(** * Checkpoint manager of torch_xla's distributed checkpointing

    A shallow embedding of
    [torch_xla/experimental/distributed_checkpoint/manager.py]: the class
    [CheckpointManager] with its tracked-checkpoint deque, the retention
    policy, the synchronous save and the restore, over an explicit model of
    the collaborators the class calls (fsspec's filesystem, the
    torch.distributed.checkpoint writer and reader, the process group, the
    wall clock and the logger), and the asynchronous save: the queue, the
    worker thread that serves it, [join] and [__del__], as two threads
    whose steps are interleaved. *)

From Stdlib Require Import ZArith String Ascii List Sorted Permutation Lia.
From stdpp Require Import base option list gmap strings pretty sorting.

Local Open Scope string_scope.
Local Open Scope list_scope.
Local Open Scope Z_scope.

(** ** Data model *)

(** [STATE_DICT_TYPE]: the state dict handed to the checkpoint writer.  The
    manager never looks inside it; named tensors are kept as integers. *)
Definition STATE_DICT_TYPE : Type := list (string * Z).

(** The dataclass [_CheckpointMetadata]: the step of a checkpoint and the
    instant at which it was taken (a [datetime], here a point on the integer
    time line). *)
Record _CheckpointMetadata : Type := mk_metadata {
  step : Z;
  ts : Z
}.

#[global] Instance _CheckpointMetadata_eq_dec : EqDecision _CheckpointMetadata.
Proof. solve_decision. Defined.

(** [_MANAGER_METADATA_FILE] *)
Definition _MANAGER_METADATA_FILE : string := ".manager_metadata".

(** What the file [.manager_metadata] of a checkpoint directory holds: the
    pickle of a metadata record, the pickle of some other object (one that
    has no [ts]), or bytes that [pickle.load] rejects. *)
Inductive MetaFile : Type :=
| Pickled (m : _CheckpointMetadata)
| Foreign
| Garbage.

#[global] Instance MetaFile_eq_dec : EqDecision MetaFile.
Proof. solve_decision. Defined.

(** What [pickle.load] returns from a metadata file it can read. *)
Inductive Unpickled : Type :=
| Metadata (m : _CheckpointMetadata)
| OtherObject.

#[global] Instance Unpickled_eq_dec : EqDecision Unpickled.
Proof. solve_decision. Defined.

(** A directory of the storage backend, as far as the manager is concerned:
    the state dict written by [dist_cp.save_state_dict] ([None]: absent or
    incomplete) and the metadata file ([None]: no such file). *)
Record Dir : Type := mk_dir {
  d_data : option STATE_DICT_TYPE;
  d_meta : option MetaFile
}.

(** A process group, seen from the calling process: its rank in the group. *)
Record ProcessGroup : Type := mk_pg {
  pg_rank : Z
}.

(** [dist.get_rank(pg)] *)
Definition get_rank (g : ProcessGroup) : Z := pg_rank g.

(** ** The world outside the manager *)

(** Every call that leaves the process is recorded.  The string is the URL
    of what the call is made on: the path, with the protocol of its
    filesystem when that is not the local one. *)
Inductive Event : Type :=
| FsLs (p : string)            (* fs.ls(p, detail=False) *)
| FsExists (p : string)        (* fs.exists(p) *)
| FsRm (p : string)            (* fs.rm(p, recursive=True) *)
| OpenRead (p : string)        (* fsspec.open(p, 'rb') and pickle.load *)
| OpenWrite (p : string)       (* fsspec.open(p, 'wb') and pickle.dump *)
| SaveStateDict (p : string)   (* dist_cp.save_state_dict, FsspecWriter(p) *)
| LoadStateDict (p : string)   (* dist_cp.load_state_dict, FsspecReader(p) *)
| LogWarning (paths : list string).  (* logging.warning *)

#[global] Instance Event_eq_dec : EqDecision Event.
Proof. solve_decision. Defined.

(** How a call to the outside ends.  [FailsPartway] is a write that raises
    after it has left something behind. *)
Inductive Outcome : Type := Succeeds | Fails | FailsPartway.

(** The world: the storage backends (the URL of a checkpoint directory to
    its contents, the filesystems told apart by the protocol of the URL; a
    [Dir] stands for the directory with everything below it), the calls made
    so far, oldest first, the wall clock and the fate of every call, both as
    functions of the number of calls made before, and the default process
    group of [torch.distributed] ([None] when it is not initialised). *)
Record World : Type := mk_world {
  storage : gmap string Dir;
  trace : list Event;
  clock : nat -> Z;
  outcome : nat -> Event -> Outcome;
  default_pg : option ProcessGroup
}.

(** ** The manager object *)

Record CheckpointManager : Type := mk_manager {
  base_path : string;
  save_interval : Z;
  max_to_keep : Z;
  _tracked_chkpts : list _CheckpointMetadata;            (* a deque, left end first *)
  _async_queue : list (option (Z * STATE_DICT_TYPE));    (* [None] is the sentinel *)
  _async_queue_maxsize : Z;
  _alive : bool;
  pg : ProcessGroup
}.

(** ** Exceptions, and a state monad that can raise *)

Inductive Message : Type :=
| Text (s : string)
| CannotRestore (untracked : Z) (tracked_steps : gset Z).
    (* f'Cannot restore from untracked step {step}. Valid steps are: {tracked_steps}' *)

Inductive Exn : Type :=
| AssertionError (msg : Message)
| ZeroDivisionError
| IndexError
| OSError (failed : Event)
| AttributeError             (* an object without the attribute asked for *)
| KeyError (key : string).   (* a key the checkpoint does not hold *)

Inductive Res (A : Type) : Type :=
| Ok (a : A)
| Raise (e : Exn).
Arguments Ok {A} a.
Arguments Raise {A} e.

(** The state a method runs in: the object and the world.  A raised exception
    keeps every mutation made before it. *)
Record St : Type := mk_st {
  self : CheckpointManager;
  world : World
}.

Definition M (A : Type) : Type := St -> Res A * St.

Definition ret {A} (a : A) : M A := fun st => (Ok a, st).

Definition bind {A B} (m : M A) (k : A -> M B) : M B := fun st =>
  match m st with
  | (Ok a, st') => k a st'
  | (Raise e, st') => (Raise e, st')
  end.

Definition raise {A} (e : Exn) : M A := fun st => (Raise e, st).

(** [try: ... except: ...] with a bare [except], as a value. *)
Definition try_ {A} (m : M A) : M (Res A) := fun st =>
  let (r, st') := m st in (Ok r, st').

Definition gets {A} (f : St -> A) : M A := fun st => (Ok (f st), st).

Definition modify (f : St -> St) : M unit := fun st => (Ok tt, f st).

(** [assert cond, msg] *)
Definition assert (cond : bool) (msg : Message) : M unit :=
  if cond then ret tt else raise (AssertionError msg).

Declare Scope M_scope.
Delimit Scope M_scope with M.
Notation "x ← m ; k" := (bind m (fun x => k))
  (at level 20, m at level 100, k at level 200, only parsing) : M_scope.
Notation "' x ← m ; k" := (bind m (fun x => k))
  (at level 20, x pattern, m at level 100, k at level 200, only parsing)
  : M_scope.
Notation "m ;; k" := (bind m (fun _ => k))
  (at level 100, k at level 200, only parsing, right associativity) : M_scope.
Local Open Scope M_scope.

Definition eval {A} (m : M A) (st : St) : Res A := fst (m st).
Definition exec {A} (m : M A) (st : St) : St := snd (m st).

(** Field updates. *)
Definition with_storage (s : gmap string Dir) (w : World) : World :=
  mk_world s (trace w) (clock w) (outcome w) (default_pg w).

Definition with_trace (t : list Event) (w : World) : World :=
  mk_world (storage w) t (clock w) (outcome w) (default_pg w).

Definition with_tracked (d : list _CheckpointMetadata) (c : CheckpointManager)
  : CheckpointManager :=
  mk_manager (base_path c) (save_interval c) (max_to_keep c) d
             (_async_queue c) (_async_queue_maxsize c) (_alive c) (pg c).

Definition with_pg (g : ProcessGroup) (c : CheckpointManager)
  : CheckpointManager :=
  mk_manager (base_path c) (save_interval c) (max_to_keep c)
             (_tracked_chkpts c) (_async_queue c) (_async_queue_maxsize c)
             (_alive c) g.

Definition on_world (f : World -> World) (st : St) : St :=
  mk_st (self st) (f (world st)).

Definition on_self (f : CheckpointManager -> CheckpointManager) (st : St) : St :=
  mk_st (f (self st)) (world st).

(** ** The collaborators *)

(** A call to the outside: it is recorded, and the world decides how it
    ends. *)
Definition perform (e : Event) : M Outcome := fun st =>
  let w := world st in
  (Ok (outcome w (length (trace w)) e),
   on_world (with_trace (trace w ++ [e])) st).

(** [a.endswith('/')] *)
Fixpoint ends_with_slash (a : string) : bool :=
  match a with
  | EmptyString => false
  | String c EmptyString => bool_decide (c = "/"%char)
  | String _ a' => ends_with_slash a'
  end.

(** [os.path.join(a, b)] for two components: an absolute [b] replaces [a],
    and a separator is put between them unless [a] is empty or has one. *)
Definition os_path_join (a b : string) : string :=
  match b with
  | String "/"%char _ => b
  | _ => if bool_decide (a = "") || ends_with_slash a
         then a +:+ b
         else a +:+ "/" +:+ b
  end.

(** [name] after [prefix], when [s] starts with [prefix]. *)
Fixpoint strip_prefix (prefix s : string) : option string :=
  match prefix, s with
  | EmptyString, _ => Some s
  | String a prefix', String b s' =>
      if bool_decide (a = b) then strip_prefix prefix' s' else None
  | String _ _, EmptyString => None
  end.

(** A filesystem of fsspec, known by its protocol; [None] is the local one,
    which paths without a protocol are on. *)
Definition Filesystem : Type := option string.

(** [s] cut at the first ["://"]. *)
Fixpoint cut_at_separator (s : string) : option (string * string) :=
  match strip_prefix "://" s with
  | Some rest => Some ("", rest)
  | None =>
      match s with
      | String c s' =>
          match cut_at_separator s' with
          | Some (before, rest) => Some (String c before, rest)
          | None => None
          end
      | EmptyString => None
      end
  end.

(** fsspec's [split_protocol]: a protocol is more than one character long
    (one character is a drive letter). *)
Definition split_protocol (url : string) : option string * string :=
  match cut_at_separator url with
  | Some (protocol, rest) =>
      if bool_decide (1 < String.length protocol)%nat
      then (Some protocol, rest)
      else (None, url)
  | None => (None, url)
  end.

(** [url_to_fs(path)]: the filesystem and the path without its protocol. *)
Definition url_to_fs (path : string) : Filesystem * string :=
  split_protocol path.

(** The URL of the path [raw] of filesystem [fs]: what the calls made on
    [fs] address in storage. *)
Definition unstrip (fs : Filesystem) (raw : string) : string :=
  match fs with
  | Some protocol => protocol +:+ "://" +:+ raw
  | None => raw
  end.

(** The protocols of the local filesystem. *)
Definition is_local (fs : Filesystem) : bool :=
  match fs with
  | None => true
  | Some protocol => bool_decide (protocol = "file")
                     || bool_decide (protocol = "local")
  end.

(** The name a listing on [fs] gives to the entry stored under [url].
    Listings give paths without protocol, and such a path, opened with
    [fsspec.open], is looked up on the local filesystem.  So for the local
    filesystem the name is the URL the entry has in storage (it opens the
    entry listed), and for any other filesystem it is the path of the entry
    with the protocol taken off (it opens whatever the local filesystem has
    there). *)
Definition listed_name (fs : Filesystem) (url : string) : string :=
  if is_local fs then url else (split_protocol url).2.

Fixpoint has_slash (s : string) : bool :=
  match s with
  | EmptyString => false
  | String c s' => bool_decide (c = "/"%char) || has_slash s'
  end.

(** [child] is an entry directly inside directory [p]. *)
Definition is_child (p child : string) : bool :=
  match strip_prefix (os_path_join p "") child with
  | Some name => negb (bool_decide (name = "")) && negb (has_slash name)
  | None => false
  end.

(** The children of [p] in storage, under the names a listing on [fs]
    gives them. *)
Definition children (fs : Filesystem) (p : string) (s : gmap string Dir)
  : list string :=
  map (listed_name fs)
      (filter (fun c => is_child p c = true) (map_to_list s).*1).

(** [fs.ls(raw_path, detail=False)]: the paths of the entries of
    [raw_path], without protocol. *)
Definition fs_ls (fs : Filesystem) (raw_path : string) : M (list string) :=
  let p := unstrip fs raw_path in
  o ← perform (FsLs p);
  match o with
  | Succeeds => gets (fun st => children fs p (storage (world st)))
  | _ => raise (OSError (FsLs p))
  end.

(** The test whether storage holds an entry under the URL [p]. *)
Definition exists_at (p : string) : M bool :=
  o ← perform (FsExists p);
  match o with
  | Succeeds => gets (fun st => bool_decide (is_Some (storage (world st) !! p)))
  | _ => raise (OSError (FsExists p))
  end.

(** The removal of the entry storage holds under the URL [p]. *)
Definition rm_at (p : string) : M unit :=
  o ← perform (FsRm p);
  match o with
  | Succeeds =>
      modify (on_world (fun w => with_storage (delete p (storage w)) w))
  | _ => raise (OSError (FsRm p))
  end.

(** [fs.exists(raw_path)] *)
Definition fs_exists (fs : Filesystem) (raw_path : string) : M bool :=
  exists_at (unstrip fs raw_path).

(** [fs.rm(raw_path, recursive=True)] *)
Definition fs_rm (fs : Filesystem) (raw_path : string) : M unit :=
  rm_at (unstrip fs raw_path).

(** What is at [p] with the state dict replaced. *)
Definition put_data (data : option STATE_DICT_TYPE) (p : string)
    (s : gmap string Dir) : gmap string Dir :=
  <[p := mk_dir data (s !! p ≫= d_meta)]> s.

(** What is at [p] with the metadata file replaced. *)
Definition put_meta (f : MetaFile) (p : string)
    (s : gmap string Dir) : gmap string Dir :=
  <[p := mk_dir (s !! p ≫= d_data) (Some f)]> s.

(** [dist_cp.save_state_dict(state_dict, storage_writer=FsspecWriter(path),
    ...)]: a collective write of the state dict into [path]. *)
Definition save_state_dict (state_dict : STATE_DICT_TYPE) (path : string)
  : M unit :=
  o ← perform (SaveStateDict path);
  match o with
  | Succeeds =>
      modify (on_world (fun w =>
        with_storage (put_data (Some state_dict) path (storage w)) w))
  | FailsPartway =>
      modify (on_world (fun w =>
        with_storage (put_data None path (storage w)) w));;
      raise (OSError (SaveStateDict path))
  | Fails => raise (OSError (SaveStateDict path))
  end.

(** [saved[key]] *)
Fixpoint lookup_key (key : string) (saved : STATE_DICT_TYPE) : option Z :=
  match saved with
  | [] => None
  | (k, v) :: saved' =>
      if bool_decide (k = key) then Some v else lookup_key key saved'
  end.

(** What the reader makes of [state_dict]: every key of it gets the value
    the checkpoint holds under that key, a key the checkpoint lacks stops
    the load, and what the checkpoint holds under other keys is not
    looked at. *)
Fixpoint load_into (state_dict saved : STATE_DICT_TYPE)
  : Res STATE_DICT_TYPE :=
  match state_dict with
  | [] => Ok []
  | (key, _) :: state_dict' =>
      match lookup_key key saved with
      | None => Raise (KeyError key)
      | Some v =>
          match load_into state_dict' saved with
          | Ok loaded => Ok ((key, v) :: loaded)
          | Raise e => Raise e
          end
      end
  end.

(** [dist_cp.load_state_dict(state_dict, storage_reader=FsspecReader(path),
    ...)]: the state dict is updated in place and nothing is returned; the
    value here is the state dict after the call. *)
Definition load_state_dict (state_dict : STATE_DICT_TYPE) (path : string)
  : M STATE_DICT_TYPE :=
  o ← perform (LoadStateDict path);
  match o with
  | Succeeds =>
      d ← gets (fun st => storage (world st) !! path ≫= d_data);
      match d with
      | Some saved =>
          match load_into state_dict saved with
          | Ok loaded => ret loaded
          | Raise e => raise e
          end
      | None => raise (OSError (LoadStateDict path))
      end
  | _ => raise (OSError (LoadStateDict path))
  end.

(** [with fsspec.open(os.path.join(path, _MANAGER_METADATA_FILE), 'wb') as f:
      pickle.dump(metadata, f)] *)
Definition pickle_dump (metadata : _CheckpointMetadata) (path : string)
  : M unit :=
  let file := os_path_join path _MANAGER_METADATA_FILE in
  o ← perform (OpenWrite file);
  match o with
  | Succeeds =>
      modify (on_world (fun w =>
        with_storage (put_meta (Pickled metadata) path (storage w)) w))
  | FailsPartway =>
      modify (on_world (fun w =>
        with_storage (put_meta Garbage path (storage w)) w));;
      raise (OSError (OpenWrite file))
  | Fails => raise (OSError (OpenWrite file))
  end.

(** The metadata record that can be read back from a directory. *)
Definition readable_meta (d : option Dir) : option _CheckpointMetadata :=
  match d ≫= d_meta with
  | Some (Pickled m) => Some m
  | _ => None
  end.

(** What [pickle.load] gets out of the metadata file of a directory:
    nothing when the file is missing or is not a pickle. *)
Definition unpickled (d : option Dir) : option Unpickled :=
  match d ≫= d_meta with
  | Some (Pickled m) => Some (Metadata m)
  | Some Foreign => Some OtherObject
  | _ => None
  end.

(** [with fsspec.open(os.path.join(path, _MANAGER_METADATA_FILE), 'rb') as f:
      pickle.load(f)].  [fsspec.open] finds the filesystem in the URL it is
    given, the local one when [path] has no protocol, so the directory read
    is the one storage holds under [path]. *)
Definition pickle_load (path : string) : M Unpickled :=
  let file := os_path_join path _MANAGER_METADATA_FILE in
  o ← perform (OpenRead file);
  match o with
  | Succeeds =>
      r ← gets (fun st => unpickled (storage (world st) !! path));
      match r with
      | Some obj => ret obj
      | None => raise (OSError (OpenRead file))
      end
  | _ => raise (OSError (OpenRead file))
  end.

(** [datetime.now()] *)
Definition datetime_now : M Z :=
  gets (fun st => clock (world st) (length (trace (world st)))).

(** [logging.warning(f'Ignoring invalid checkpoints: {invalid_paths}')] *)
Definition logging_warning (invalid_paths : list string) : M unit :=
  modify (on_world (fun w => with_trace (trace w ++ [LogWarning invalid_paths]) w)).

(** [sorted(l, key=key)]: a stable sort, smallest key first.  An element goes
    in front of the first one whose key is not smaller, so equal keys keep
    the order they came in. *)
Fixpoint insert_by {A} (key : A -> Z) (x : A) (l : list A) : list A :=
  match l with
  | [] => [x]
  | y :: l' => if key x <=? key y then x :: l else y :: insert_by key x l'
  end.

Definition sorted {A} (key : A -> Z) (l : list A) : list A :=
  foldr (insert_by key) [] l.

(** ** The methods of [CheckpointManager] *)

(** The steps of a deque of checkpoints, in its order. *)
Definition steps_of (d : list _CheckpointMetadata) : list Z := map step d.

(** The loop of [_load_tracked_chkpts] over the listed paths. *)
Fixpoint load_each (paths : list string)
    (all_chkpts : list Unpickled) (invalid_paths : list string)
  : M (list Unpickled * list string) :=
  match paths with
  | [] => ret (all_chkpts, invalid_paths)
  | path :: paths' =>
      r ← try_ (pickle_load path);
      match r with
      | Ok m => load_each paths' (all_chkpts ++ [m]) invalid_paths
      | Raise _ => load_each paths' all_chkpts (invalid_paths ++ [path])
      end
  end.

(** [m.ts] for every [m] of [all_chkpts], as [sorted] takes its keys before
    it compares any: [None] when an object has no [ts]. *)
Fixpoint with_ts (all_chkpts : list Unpickled)
  : option (list _CheckpointMetadata) :=
  match all_chkpts with
  | [] => Some []
  | Metadata m :: rest =>
      match with_ts rest with
      | Some ms => Some (m :: ms)
      | None => None
      end
  | OtherObject :: _ => None
  end.

(** [CheckpointManager._load_tracked_chkpts] *)
Definition _load_tracked_chkpts : M (list _CheckpointMetadata) :=
  '(fs, raw_path) ← gets (fun st => url_to_fs (base_path (self st)));
  paths ← fs_ls fs raw_path;
  '(all_chkpts, invalid_paths) ← load_each paths [] [];
  match invalid_paths with
  | [] => ret tt
  | _ :: _ => logging_warning invalid_paths
  end;;
  match with_ts all_chkpts with
  | Some ms => ret (sorted ts ms)
  | None => raise AttributeError
  end.

(** [CheckpointManager.__init__].  The worker thread it starts is not part
    of the model; the queue it would serve is. *)
Definition __init__ (path : string) (save_interval max_to_keep : Z)
    (async_queue_size : Z) (process_group : option ProcessGroup)
    (w : World) : Res CheckpointManager * World :=
  (* The fields not yet assigned hold what they are about to get; [pg]
     holds the group [dist.new_group()] returns, the subgroup of the
     default group with every rank in it. *)
  let new_self :=
    mk_manager path save_interval max_to_keep [] [] async_queue_size true
               (default (mk_pg 0) (default_pg w)) in
  let body : M unit :=
    assert (bool_decide (is_Some (default_pg w)))
           (Text "A process group is required.");;
    assert (bool_decide (save_interval > 0))
           (Text "save_interval must be positive");;
    assert (bool_decide (async_queue_size > 0))
           (Text "async_queue_size must be positive");;
    assert (bool_decide (max_to_keep >= 0))
           (Text "max_to_keep must be non-negative");;
    tracked ← _load_tracked_chkpts;
    modify (on_self (with_tracked tracked));;
    modify (on_self (fun c =>
      with_pg (match process_group with
               | Some g => g
               | None => pg c          (* dist.new_group() *)
               end) c))
  in
  match body (mk_st new_self w) with
  | (Ok _, st) => (Ok (self st), world st)
  | (Raise e, st) => (Raise e, world st)
  end.

(** [CheckpointManager._get_path] *)
Definition _get_path (step : Z) : M string :=
  gets (fun st => os_path_join (base_path (self st)) (pretty step)).

(** [CheckpointManager._delete_chkpt_at_step] *)
Definition _delete_chkpt_at_step (step : Z) : M unit :=
  path ← _get_path step;
  let '(fs, raw_path) := url_to_fs path in
  found ← fs_exists fs raw_path;
  if found then fs_rm fs raw_path else ret tt.

(** [self._tracked_chkpts.popleft()] *)
Definition popleft : M _CheckpointMetadata := fun st =>
  match _tracked_chkpts (self st) with
  | [] => (Raise IndexError, st)
  | oldest :: rest => (Ok oldest, on_self (with_tracked rest) st)
  end.

(** [self._tracked_chkpts.append(metadata)] *)
Definition append (metadata : _CheckpointMetadata) : M unit :=
  modify (on_self (fun c => with_tracked (_tracked_chkpts c ++ [metadata]) c)).

(** The [while] loop of [_release_oldest_checkpoints].  Every turn but the
    last takes one entry off the deque, so one turn more than the deque is
    long is enough. *)
Fixpoint release_while (turns : nat) : M unit :=
  match turns with
  | O => ret tt
  | S turns' =>
      more ← gets (fun st =>
        bool_decide (Z.of_nat (length (_tracked_chkpts (self st)))
                     > max_to_keep (self st)));
      if more then
        oldest_chkpt ← popleft;
        _delete_chkpt_at_step (step oldest_chkpt);;
        release_while turns'
      else ret tt
  end.

(** [CheckpointManager._release_oldest_checkpoints] *)
Definition _release_oldest_checkpoints : M unit :=
  gate ← gets (fun st =>
    bool_decide (get_rank (pg (self st)) = 0)
    && bool_decide (max_to_keep (self st) > 0));
  if gate then
    n ← gets (fun st => length (_tracked_chkpts (self st)));
    release_while (S n)
  else ret tt.

(** [CheckpointManager.should_save].  [%] on a zero interval raises. *)
Definition should_save (step : Z) : M bool :=
  interval ← gets (fun st => save_interval (self st));
  if bool_decide (interval = 0) then raise ZeroDivisionError
  else ret (bool_decide (step `mod` interval = 0)).

(** [CheckpointManager.save] *)
Definition save (step : Z) (state_dict : STATE_DICT_TYPE) (force : bool)
  : M bool :=
  due ← should_save step;
  if due || force then
    path ← _get_path step;
    (* Delete any existing checkpoint at the current step. *)
    _delete_chkpt_at_step step;;
    save_state_dict state_dict path;;
    now ← datetime_now;
    let metadata := mk_metadata step now in
    pickle_dump metadata path;;
    append metadata;;
    _release_oldest_checkpoints;;
    ret true
  else ret false.

(** [set(x.step for x in self._tracked_chkpts)] *)
Definition tracked_steps : M (gset Z) :=
  gets (fun st => list_to_set (steps_of (_tracked_chkpts (self st)))).

(** [CheckpointManager.restore].  The state dict is updated in place; its
    new value is the result. *)
Definition restore (step : Z) (state_dict : STATE_DICT_TYPE)
  : M STATE_DICT_TYPE :=
  tracked_steps ← tracked_steps;
  assert (bool_decide (step ∈ tracked_steps))
         (CannotRestore step tracked_steps);;
  path ← _get_path step;
  load_state_dict state_dict path.

(** [CheckpointManager.all_steps] *)
Definition all_steps : M (list Z) :=
  gets (fun st => sorted id (steps_of (_tracked_chkpts (self st)))).

(** [for step, state_dict, force in calls:
      results.append(mgr.save(step, state_dict, force))] *)
Fixpoint save_each (calls : list (Z * STATE_DICT_TYPE * bool)) : M (list bool) :=
  match calls with
  | [] => ret []
  | (step, state_dict, force) :: calls' =>
      r ← save step state_dict force;
      rs ← save_each calls';
      ret (r :: rs)
  end.

(** [[(step, state_dict, False) for step in range(n)]] *)
Definition every_step (n : nat) (state_dict : STATE_DICT_TYPE)
  : list (Z * STATE_DICT_TYPE * bool) :=
  map (fun i => (Z.of_nat i, state_dict, false)) (seq 0 n).

(** ** Sample worlds *)

(** A world with empty storage in which every call succeeds and the clock
    reads the number of calls made so far. *)
Definition calm_world (rank : Z) : World :=
  mk_world ∅ [] (fun n => Z.of_nat n) (fun _ _ => Succeeds) (Some (mk_pg rank)).

Definition some_state_dict : STATE_DICT_TYPE := [("model.weight", 7)].

(** The state after [CheckpointManager(path, save_interval, max_to_keep)] in
    world [w]; when the constructor raises, the half-built state is of no
    use and the world is given back with a manager that tracks nothing. *)
Definition started (path : string) (save_interval max_to_keep : Z) (w : World)
  : St :=
  match __init__ path save_interval max_to_keep 1 None w with
  | (Ok mgr, w') => mk_st mgr w'
  | (Raise _, w') =>
      mk_st (mk_manager path save_interval max_to_keep [] [] 1 false (mk_pg 0)) w'
  end.

(** ** The vocabulary of the statements *)

(** The order [sorted] sorts by. *)
Definition key_le {A : Type} (key : A -> Z) (x y : A) : Prop := key x <= key y.

(** A relation between the state before and the state after that holds for
    every run of [m], whatever it returns or raises. *)
Definition keeps {A} (R : relation St) (m : M A) : Prop :=
  forall st, R st (exec m st).

(** What is observed through [f] stays as it is. *)
Definition same {B} (f : St -> B) : relation St := fun st st' => f st' = f st.

(** The oracles of the world, which no method can touch. *)
Definition oracles (st : St) : (nat -> Z) * (nat -> Event -> Outcome) * option ProcessGroup :=
  (clock (world st), outcome (world st), default_pg (world st)).

(** Everything in the manager but the deque. *)
Definition config (st : St)
  : string * Z * Z * list (option (Z * STATE_DICT_TYPE)) * Z * bool * ProcessGroup :=
  let c := self st in
  (base_path c, save_interval c, max_to_keep c, _async_queue c,
   _async_queue_maxsize c, _alive c, pg c).

(** What a run leaves alone: the configuration of the manager, the oracles
    of the world, the trace so far, to which it only adds calls in [E], and
    storage outside of [P]. *)
Record frame (P : string -> Prop) (E : Event -> Prop) (st st' : St) : Prop :=
  mk_frame {
    fr_config : config st' = config st;
    fr_oracles : oracles st' = oracles st;
    fr_trace : exists evs,
      trace (world st') = trace (world st) ++ evs /\ Forall E evs;
    fr_storage : forall q,
      ~ P q -> storage (world st') !! q = storage (world st) !! q
  }.

Definition nowhere : string -> Prop := fun _ => False.
Definition any_event : Event -> Prop := fun _ => True.

(** The two calls [_delete_chkpt_at_step] makes on path [p]. *)
Definition deletion_at (p : string) (e : Event) : Prop :=
  e = FsExists p \/ e = FsRm p.

(** The calls a save makes for the step whose path is [p], retention
    aside. *)
Definition save_event (p : string) (e : Event) : Prop :=
  e = FsExists p \/ e = FsRm p \/ e = SaveStateDict p
  \/ e = OpenWrite (os_path_join p _MANAGER_METADATA_FILE).

(** The two calls [_delete_chkpt_at_step] makes. *)
Definition deletion (e : Event) : Prop :=
  exists p, e = FsExists p \/ e = FsRm p.

Abbreviation tracked st := (_tracked_chkpts (self st)) (only parsing).

(** The path [_get_path] computes for a step. *)
Definition path_of (c : CheckpointManager) (s : Z) : string :=
  os_path_join (base_path c) (pretty s).

(** The errors [_delete_chkpt_at_step] can end in. *)
Definition delete_error (e : Exn) : Prop :=
  exists p, e = OSError (FsExists p) \/ e = OSError (FsRm p).

(** What a run of the retention loop that took [n] entries off the deque
    has done. *)
Record released (n : nat) (st st' : St) : Prop := mk_released {
  rl_tracked : tracked st' = drop n (tracked st);
  rl_le : (n <= length (tracked st))%nat;
  rl_due : n <> 0%nat ->
           Z.of_nat (length (tracked st)) - Z.of_nat n >= max_to_keep (self st);
  rl_frame : frame (fun q => exists m, m ∈ take n (tracked st)
                                       /\ q = path_of (self st) (step m))
                   deletion st st'
}.

(** The guard of [_release_oldest_checkpoints]. *)
Definition gate_open (c : CheckpointManager) : Prop :=
  get_rank (pg c) = 0 /\ max_to_keep c > 0.

#[global] Instance gate_open_dec c : Decision (gate_open c).
Proof. unfold gate_open. apply _. Defined.

(** The number of entries the retention loop takes off a deque of [len]
    entries when it runs to its end. *)
Definition excess (len : nat) (k : Z) : nat := Z.to_nat (Z.of_nat len - k).

(** The stages a save goes through once it is past its guard, and where it
    can stop. *)
Inductive save_stages (s : Z) (sd : STATE_DICT_TYPE) (st : St)
  : Res bool -> St -> Prop :=
| stops_at_delete e st1 :
    _delete_chkpt_at_step s st = (Raise e, st1) ->
    save_stages s sd st (Raise e) st1
| stops_at_write st1 e st2 :
    _delete_chkpt_at_step s st = (Ok tt, st1) ->
    save_state_dict sd (path_of (self st) s) st1 = (Raise e, st2) ->
    save_stages s sd st (Raise e) st2
| stops_at_metadata st1 st2 e st3 :
    _delete_chkpt_at_step s st = (Ok tt, st1) ->
    save_state_dict sd (path_of (self st) s) st1 = (Ok tt, st2) ->
    pickle_dump (mk_metadata s (clock (world st2) (length (trace (world st2)))))
                (path_of (self st) s) st2 = (Raise e, st3) ->
    save_stages s sd st (Raise e) st3
| reaches_release st1 st2 st3 r4 st4 :
    let metadata :=
      mk_metadata s (clock (world st2) (length (trace (world st2)))) in
    _delete_chkpt_at_step s st = (Ok tt, st1) ->
    save_state_dict sd (path_of (self st) s) st1 = (Ok tt, st2) ->
    pickle_dump metadata (path_of (self st) s) st2 = (Ok tt, st3) ->
    _release_oldest_checkpoints
      (on_self (fun c => with_tracked (_tracked_chkpts c ++ [metadata]) c) st3)
      = (r4, st4) ->
    save_stages s sd st
      (match r4 with Ok _ => Ok true | Raise e => Raise e end) st4.

(** What a save that returned [True] has done: it appended [m] and then took
    [n] entries off the left end of the deque. *)
Record saved (s : Z) (sd : STATE_DICT_TYPE) (m : _CheckpointMetadata) (n : nat)
    (st st' : St) : Prop := mk_saved {
  sv_step : step m = s;
  sv_ts : exists i : nat,
    (length (trace (world st)) < i <= length (trace (world st')))%nat
    /\ ts m = clock (world st) i;
  sv_tracked : tracked st' = drop n (tracked st ++ [m]);
  sv_le : (n <= length (tracked st))%nat;
  sv_frame :
    frame (fun q => q = path_of (self st) s
                    \/ exists x, x ∈ take n (tracked st)
                                 /\ q = path_of (self st) (step x))
          any_event st st';
  sv_open : gate_open (self st) ->
    Z.of_nat (length (tracked st')) <= max_to_keep (self st)
    /\ n = excess (S (length (tracked st))) (max_to_keep (self st));
  sv_closed : ~ gate_open (self st) ->
    n = 0%nat
    /\ storage (world st') =
         <[path_of (self st) s := mk_dir (Some sd) (Some (Pickled m))]>
           (storage (world st))
}.

(** A manager started on empty storage as the process of rank 0, with
    [save_interval=10] and [max_to_keep=2]. *)
Definition sample_state : St := started "ckpt" 10 2 (calm_world 0).

(** A world whose storage already holds a checkpoint of step 10, taken at
    time 0, under ["ckpt"]. *)
Definition world_with_step_10 (rank : Z)
    (outcome : nat -> Event -> Outcome) : World :=
  mk_world {[ "ckpt/10" := mk_dir (Some some_state_dict)
                                  (Some (Pickled (mk_metadata 10 0))) ]}
           [] (fun n => Z.of_nat n) outcome (Some (mk_pg rank)).

(** Two forced saves of one step, one after the other. *)
Definition save_twice (s : Z) (sd : STATE_DICT_TYPE) : M bool :=
  save s sd true;; save s sd true.

(** The exceptions of a failed snapshot write or metadata write. *)
Definition write_failure (e : Exn) : Prop :=
  exists p, e = OSError (SaveStateDict p) \/ e = OSError (OpenWrite p).

(** The ledger: the metadata records that can be read back from storage, by
    checkpoint directory. *)
Definition ledger (w : World) : gmap string _CheckpointMetadata :=
  omap (fun d => readable_meta (Some d)) (storage w).

(** C5 as stated: a save that fails in the snapshot write or in the metadata
    write leaves the tracked checkpoints and the ledger as they were. *)
Definition failed_write_changes_nothing (st : St) (s : Z)
    (sd : STATE_DICT_TYPE) (force : bool) : Prop :=
  forall e st', save s sd force st = (Raise e, st') -> write_failure e ->
    tracked st' = tracked st /\ ledger (world st') = ledger (world st).

(** The snapshot store is down, everything else works. *)
Definition snapshot_store_down : nat -> Event -> Outcome := fun _ e =>
  match e with
  | SaveStateDict _ => Fails
  | _ => Succeeds
  end.

(** The manager of rank 0 started on storage that holds step 10, while the
    snapshot store is down. *)
Definition state_store_down : St :=
  started "ckpt" 10 0 (world_with_step_10 0 snapshot_store_down).

(** The clock never runs backwards. *)
Definition clock_monotone (w : World) : Prop :=
  forall i j : nat, (i <= j)%nat -> clock w i <= clock w j.

(** The deque is in timestamp order and nothing in it is from the future. *)
Definition in_order (st : St) : Prop :=
  StronglySorted (key_le ts) (tracked st)
  /\ Forall (fun m => ts m <= clock (world st) (length (trace (world st))))
            (tracked st).

(** The steps of the calls that returned [True], in call order. *)
Fixpoint taken (calls : list (Z * STATE_DICT_TYPE * bool)) (rs : list bool)
  : list Z :=
  match calls, rs with
  | (s, _, _) :: calls', true :: rs' => s :: taken calls' rs'
  | _ :: calls', false :: rs' => taken calls' rs'
  | _, _ => []
  end.

(** C9 as stated, for one manager: with [max_to_keep = 0] no save removes a
    tracked entry or deletes a checkpoint. *)
Definition no_save_deletes (st : St) : Prop :=
  max_to_keep (self st) = 0 ->
  forall s sd force r st',
    save s sd force st = (r, st') ->
    tracked st `prefix_of` tracked st'
    /\ forall evs q,
         trace (world st') = trace (world st) ++ evs -> FsRm q ∉ evs.

(** C2 as stated, for one process and one sequence of saves: when none of
    them raises, [all_steps()] is no longer than [max_to_keep]. *)
Definition retention_bound (st : St)
    (calls : list (Z * STATE_DICT_TYPE * bool)) : Prop :=
  max_to_keep (self st) > 0 ->
  forall rs st' steps,
    save_each calls st = (Ok rs, st') ->
    eval all_steps st' = Ok steps ->
    Z.of_nat (length steps) <= max_to_keep (self st).

(** What the attempt to read the metadata file of [path] yields when it is
    the call number [k]. *)
Definition read_at (w : World) (k : nat) (path : string)
  : option Unpickled :=
  match outcome w k (OpenRead (os_path_join path _MANAGER_METADATA_FILE)) with
  | Succeeds => unpickled (storage w !! path)
  | _ => None
  end.

(** The listed paths with what reading each yields, the first being call
    number [k]. *)
Fixpoint reads_from (w : World) (k : nat) (paths : list string)
  : list (string * option Unpickled) :=
  match paths with
  | [] => []
  | path :: paths' => (path, read_at w k path) :: reads_from w (S k) paths'
  end.

(** The paths whose read failed. *)
Definition unreadable (reads : list (string * option Unpickled))
  : list string :=
  (filter (fun pr => pr.2 = None) reads).*1.

(** The objects that were read. *)
Definition unpickled_of (reads : list (string * option Unpickled))
  : list Unpickled :=
  omap snd reads.

(** The records that were read. *)
Definition readable (reads : list (string * option Unpickled))
  : list _CheckpointMetadata :=
  omap (fun pr => match pr.2 with
                  | Some (Metadata m) => Some m
                  | _ => None
                  end) reads.

(** The paths at which something other than a record was read. *)
Definition foreign (reads : list (string * option Unpickled))
  : list string :=
  (filter (fun pr => pr.2 = Some OtherObject) reads).*1.

Definition open_read (path : string) : Event :=
  OpenRead (os_path_join path _MANAGER_METADATA_FILE).

(** The entries of the base path, as [fs.ls] lists them. *)
Definition listing (st : St) : list string :=
  children (url_to_fs (base_path (self st))).1 (base_path (self st))
           (storage (world st)).

(** The reads [_load_tracked_chkpts] makes after the listing. *)
Definition startup_reads (st : St)
  : list (string * option Unpickled) :=
  reads_from (world st) (S (length (trace (world st)))) (listing st).

(** Storage with two checkpoints, the later one listed first, a directory
    without a metadata file and one whose metadata file is corrupt. *)
Definition cluttered_world : World :=
  mk_world
    (<["ckpt/10" := mk_dir (Some some_state_dict) (Some (Pickled (mk_metadata 10 9)))]>
     (<["ckpt/20" := mk_dir (Some some_state_dict) (Some (Pickled (mk_metadata 20 5)))]>
     (<["ckpt/tmp" := mk_dir (Some some_state_dict) None]>
     (<["ckpt/30" := mk_dir None (Some Garbage)]> ∅))))
    [] (fun n => Z.of_nat n) (fun _ _ => Succeeds) (Some (mk_pg 0)).

(** A manager on ["ckpt"] at the point where [__init__] loads the tracked
    checkpoints. *)
Definition state_at_startup : St :=
  mk_st (mk_manager "ckpt" 10 0 [] [] 1 true (mk_pg 0)) cluttered_world.

(** The checkpoint of step 10 on the in-memory filesystem, and nothing on
    the local one. *)
Definition remote_world : World :=
  mk_world
    {[ "memory://ckpt/10" := mk_dir (Some some_state_dict)
                                    (Some (Pickled (mk_metadata 10 0))) ]}
    [] (fun n => Z.of_nat n) (fun _ _ => Succeeds) (Some (mk_pg 0)).

(** Storage with the checkpoint of step 10 and, beside it, a directory
    whose metadata file is the pickle of something else, a dict say. *)
Definition foreign_world : World :=
  mk_world
    (<["ckpt/10" := mk_dir (Some some_state_dict)
                           (Some (Pickled (mk_metadata 10 0)))]>
     (<["ckpt/20" := mk_dir (Some some_state_dict) (Some Foreign)]> ∅))
    [] (fun n => Z.of_nat n) (fun _ _ => Succeeds) (Some (mk_pg 0)).

(** ** The arguments of the constructor *)

(** The arguments [__init__] asserts on. *)
Definition valid_arguments (save_interval max_to_keep async_queue_size : Z)
    (w : World) : Prop :=
  is_Some (default_pg w) /\ save_interval > 0 /\ async_queue_size > 0
  /\ max_to_keep >= 0.

#[global] Instance valid_arguments_dec si k qs w :
  Decision (valid_arguments si k qs w).
Proof. unfold valid_arguments. apply _. Defined.

(** The manager object at the point where [__init__] loads the tracked
    checkpoints. *)
Definition manager_under_construction (path : string)
    (save_interval max_to_keep async_queue_size : Z) (w : World) : St :=
  mk_st (mk_manager path save_interval max_to_keep [] [] async_queue_size true
                    (default (mk_pg 0) (default_pg w))) w.

(** ** The effect of a save on the deque *)

(** What a save has done to the deque, however it ended: it appended the
    entries [new] (none or one) and took [n] entries off the left end. *)
Record save_effect (s : Z) (new : list _CheckpointMetadata) (n : nat)
    (st st' : St) : Prop := mk_save_effect {
  se_tracked : tracked st' = drop n (tracked st ++ new);
  se_le : (n <= length (tracked st))%nat;
  se_config : config st' = config st;
  se_oracles : oracles st' = oracles st;
  se_trace : trace (world st) `prefix_of` trace (world st');
  se_new : new = []
           \/ exists m (i : nat),
                new = [m] /\ step m = s
                /\ (length (trace (world st)) < i
                    <= length (trace (world st')))%nat
                /\ ts m = clock (world st) i
}.

(** ** Storage that cannot delete *)

(** A world in which [fs.rm] fails and everything else works. *)
Definition cannot_remove : nat -> Event -> Outcome := fun _ e =>
  match e with
  | FsRm _ => Fails
  | _ => Succeeds
  end.

(** Rank 0 with [max_to_keep=1] and two tracked checkpoints, the older one
    on storage that cannot delete. *)
Definition overfull_state : St :=
  on_self (with_tracked [mk_metadata 10 0; mk_metadata 20 1])
          (started "ckpt" 10 1 (world_with_step_10 0 cannot_remove)).

(** ** The asynchronous pipeline *)

(** What travels through [_async_queue]: a step with its state dict, or the
    sentinel [None]. *)
Definition Item : Type := option (Z * STATE_DICT_TYPE).

(** Where the thread that runs [_async_worker] stands. *)
Inductive Worker : Type :=
| LoopTest                  (* at [while self._alive.is_set()] *)
| Getting                   (* in [self._async_queue.get()] *)
| Holding (item : Item)     (* [item] fetched, the rest of the [try] to run *)
| Finishing                 (* at [finally] *)
| Returned                  (* the loop has ended *)
| Died.                     (* an exception has left the loop *)

(** The manager with its thread.  [shared] is what both threads see;
    [unfinished_tasks] is the counter of [queue.Queue]; [stderr] collects
    what [traceback.print_exc()] prints. *)
Record System : Type := mk_system {
  shared : St;
  unfinished_tasks : nat;
  worker : Worker;
  stderr : list Exn
}.

Definition with_queue (q : list Item) (c : CheckpointManager)
  : CheckpointManager :=
  mk_manager (base_path c) (save_interval c) (max_to_keep c)
             (_tracked_chkpts c) q (_async_queue_maxsize c) (_alive c) (pg c).

Definition with_alive (b : bool) (c : CheckpointManager)
  : CheckpointManager :=
  mk_manager (base_path c) (save_interval c) (max_to_keep c)
             (_tracked_chkpts c) (_async_queue c) (_async_queue_maxsize c)
             b (pg c).

Definition with_shared (st : St) (sys : System) : System :=
  mk_system st (unfinished_tasks sys) (worker sys) (stderr sys).

Definition with_unfinished (n : nat) (sys : System) : System :=
  mk_system (shared sys) n (worker sys) (stderr sys).

Definition with_worker (t : Worker) (sys : System) : System :=
  mk_system (shared sys) (unfinished_tasks sys) t (stderr sys).

Definition queue_of (sys : System) : list Item :=
  _async_queue (self (shared sys)).

(** A thread that cannot go on yet has no next state: a blocking call is a
    partial function of the system.  The queue is Python's [queue.Queue]:
    [put] waits while a bounded queue is full, [get] while it is empty,
    [join] until [task_done] was called once for every item put. *)
Definition Blocking (A : Type) : Type := System -> option (A * System).

(** A queue of [maxsize <= 0] is unbounded. *)
Definition queue_full (c : CheckpointManager) : bool :=
  bool_decide (_async_queue_maxsize c > 0)
  && bool_decide (Z.of_nat (length (_async_queue c))
                  >= _async_queue_maxsize c).

(** [Queue.put(item)]: waits while the queue is full. *)
Definition queue_put (item : Item) : Blocking unit := fun sys =>
  let c := self (shared sys) in
  if queue_full c then None
  else Some (tt, with_unfinished (S (unfinished_tasks sys))
                   (with_shared
                      (on_self (with_queue (_async_queue c ++ [item]))
                               (shared sys)) sys)).

(** [Queue.get()]: waits while the queue is empty. *)
Definition queue_get : Blocking Item := fun sys =>
  match queue_of sys with
  | [] => None
  | item :: rest =>
      Some (item, with_shared (on_self (with_queue rest) (shared sys)) sys)
  end.

(** [Queue.task_done()]: [ValueError] when called more often than [put],
    which is the [None] here. *)
Definition queue_task_done (sys : System) : option System :=
  match unfinished_tasks sys with
  | O => None
  | S n => Some (with_unfinished n sys)
  end.

(** [Queue.join()]: waits until every item put has been marked done. *)
Definition queue_join : Blocking unit := fun sys =>
  match unfinished_tasks sys with
  | O => Some (tt, sys)
  | S _ => None
  end.

(** [try: ... except: traceback.print_exc()] of the worker's loop, once
    [item] is fetched: what happens to the manager and the world, and what
    is printed. *)
Definition process (item : Item) (st : St) : St * list Exn :=
  match item with
  | Some (step, state_dict) =>
      match save step state_dict true st with
      | (Ok _, st') => (st', [])
      | (Raise e, st') => (st', [e])
      end
  | None => (st, [])
  end.

(** One step of [CheckpointManager._async_worker]. *)
Definition _async_worker (sys : System) : option System :=
  match worker sys with
  | LoopTest =>
      Some (with_worker
              (if _alive (self (shared sys)) then Getting else Returned) sys)
  | Getting =>
      match queue_get sys with
      | Some (item, sys') => Some (with_worker (Holding item) sys')
      | None => None
      end
  | Holding item =>
      let (st, printed) := process item (shared sys) in
      Some (mk_system st (unfinished_tasks sys) Finishing
                      (stderr sys ++ printed))
  | Finishing =>
      match queue_task_done sys with
      | Some sys' => Some (with_worker LoopTest sys')
      | None => Some (with_worker Died sys)
      end
  | Returned | Died => None
  end.

(** [self._chkpt_thread.join()] *)
Definition thread_join : Blocking unit := fun sys =>
  match worker sys with
  | Returned | Died => Some (tt, sys)
  | _ => None
  end.

(** A manager that [__init__] has built, with the thread it has started. *)
Definition boot (st : St) : System := mk_system st 0 LoopTest [].

(** What the manager imports from [_helpers]. *)
Class Helpers : Type := {
  (* the transfer of a state dict to the CPU device *)
  _sharded_cpu_state_dict : STATE_DICT_TYPE -> STATE_DICT_TYPE
}.

(** State dicts that are on the CPU device already. *)
Definition already_on_cpu : Helpers :=
  {| _sharded_cpu_state_dict := fun state_dict => state_dict |}.

(** [CheckpointManager.save_async] *)
Definition save_async {helpers : Helpers} (step : Z)
    (state_dict : STATE_DICT_TYPE) (force : bool)
  : Blocking (Res bool) := fun sys =>
  match should_save step (shared sys) with
  | (Raise e, st) => Some (Raise e, with_shared st sys)
  | (Ok due, st) =>
      if due || force then
        (* Move the state_dict to CPU *)
        let cpu_state_dict := _sharded_cpu_state_dict state_dict in
        match queue_put (Some (step, cpu_state_dict)) (with_shared st sys) with
        | Some (_, sys') => Some (Ok true, sys')
        | None => None
        end
      else Some (Ok false, with_shared st sys)
  end.

(** [CheckpointManager.join] *)
Definition join : Blocking unit := queue_join.

(** What the main thread does to the pipeline, one call that can block at a
    time. *)
Inductive Action : Type :=
| SaveAsync (step : Z) (state_dict : STATE_DICT_TYPE) (force : bool)
| Join
| AliveClear                (* [self._alive.clear()] *)
| Put (item : Item)         (* [self._async_queue.put(item)] *)
| ThreadJoin.               (* [self._chkpt_thread.join()] *)

(** [CheckpointManager.__del__] *)
Definition __del__ : list Action := [AliveClear; Put None; ThreadJoin].

(** The value a call returns: [None] for a procedure. *)
Definition act {helpers : Helpers} (a : Action)
  : Blocking (Res (option bool)) := fun sys =>
  match a with
  | SaveAsync step state_dict force =>
      match save_async step state_dict force sys with
      | Some (Ok b, sys') => Some (Ok (Some b), sys')
      | Some (Raise e, sys') => Some (Raise e, sys')
      | None => None
      end
  | Join =>
      match join sys with
      | Some (_, sys') => Some (Ok None, sys')
      | None => None
      end
  | AliveClear =>
      Some (Ok None, with_shared (on_self (with_alive false) (shared sys)) sys)
  | Put item =>
      match queue_put item sys with
      | Some (_, sys') => Some (Ok None, sys')
      | None => None
      end
  | ThreadJoin =>
      match thread_join sys with
      | Some (_, sys') => Some (Ok None, sys')
      | None => None
      end
  end.

(** The two threads interleaved: the main thread makes the calls of
    [program] in order and gets [results], the worker steps in between as
    the scheduler pleases.  A call of the main thread touches the queue and
    the flag only, which a save neither reads nor writes, so nothing is lost
    by taking the save the worker makes as one step. *)
Inductive run {helpers : Helpers}
  : System -> list Action -> list (Res (option bool)) -> System -> Prop :=
| run_done sys : run sys [] [] sys
| run_worker sys sys1 program results sys' :
    _async_worker sys = Some sys1 ->
    run sys1 program results sys' ->
    run sys program results sys'
| run_main sys a r sys1 program results sys' :
    act a sys = Some (r, sys1) ->
    run sys1 program results sys' ->
    run sys (a :: program) (r :: results) sys'.

(** A scheduler that lets the worker run whenever the main thread is
    blocked, and after the last call until it has nothing to do: [fuel]
    bounds the steps. *)
Fixpoint schedule {helpers : Helpers} (fuel : nat) (program : list Action)
    (sys : System) : option (list (Res (option bool)) * System) :=
  match fuel with
  | O => None
  | S fuel' =>
      match program with
      | [] => Some ([], sys)
      | a :: program' =>
          match act a sys with
          | Some (r, sys1) =>
              match schedule fuel' program' sys1 with
              | Some (results, sys') => Some (r :: results, sys')
              | None => None
              end
          | None =>
              match _async_worker sys with
              | Some sys1 => schedule fuel' program sys1
              | None => None
              end
          end
      end
  end.

(** The items the calls of [save_async] put on the queue. *)
Definition accepted {helpers : Helpers} (c : CheckpointManager)
    (calls : list (Z * STATE_DICT_TYPE * bool)) : list Item :=
  omap (fun '(step, state_dict, force) =>
          if bool_decide (step `mod` save_interval c = 0) || force
          then Some (Some (step, _sharded_cpu_state_dict state_dict))
          else None) calls.

(** The items processed one after the other on one thread. *)
Fixpoint drain (items : list Item) (st : St) : St * list Exn :=
  match items with
  | [] => (st, [])
  | item :: items' =>
      let (st1, printed1) := process item st in
      let (st2, printed2) := drain items' st1 in
      (st2, printed1 ++ printed2)
  end.

(** The manager with other contents of the queue and another flag. *)
Definition pipe (q : list Item) (b : bool) (st : St) : St :=
  on_self (fun c => with_alive b (with_queue q c)) st.

(** [m] neither reads nor writes the queue and the flag. *)
Definition blind {A} (m : M A) : Prop :=
  forall q b st, m (pipe q b st) = let (r, st') := m st in (r, pipe q b st').

Definition async_calls (calls : list (Z * STATE_DICT_TYPE * bool))
  : list Action :=
  map (fun '(step, state_dict, force) => SaveAsync step state_dict force) calls.

(** What the pipeline has made of the items [put] so far, for a manager
    that started in [st0] with the queue empty and the flag set: the worker
    has gone through a prefix of them in order, as [drain] does, and the
    rest is with the worker or in the queue. *)
Definition pipeline (st0 : St) (put : list Item) (sys : System) : Prop :=
  exists finished pending,
    put = finished ++ pending
    /\ shared sys = pipe (queue_of sys) true (drain finished st0).1
    /\ stderr sys = (drain finished st0).2
    /\ match worker sys with
       | LoopTest | Getting =>
           pending = queue_of sys
           /\ unfinished_tasks sys = length (queue_of sys)
       | Holding item =>
           pending = item :: queue_of sys
           /\ unfinished_tasks sys = S (length (queue_of sys))
       | Finishing =>
           pending = queue_of sys
           /\ unfinished_tasks sys = S (length (queue_of sys))
       | Returned | Died => False
       end.

(** The items the worker has taken off the queue and not yet marked done. *)
Definition in_flight (t : Worker) : nat :=
  match t with
  | Holding _ | Finishing => 1
  | _ => 0
  end.

(** Nothing queued, nothing in progress, the worker in its loop and the
    flag set: the pipeline after [__init__], and after [join]. *)
Definition idle (sys : System) : Prop :=
  queue_of sys = [] /\ unfinished_tasks sys = 0%nat
  /\ (worker sys = LoopTest \/ worker sys = Getting)
  /\ _alive (self (shared sys)) = true.

(** How far the worker is from having nothing to do. *)
Definition backlog (sys : System) : nat :=
  4 * length (queue_of sys)
  + match worker sys with
    | Holding _ => 3
    | Finishing => 2
    | LoopTest => 1
    | _ => 0
    end.

(** The pipeline while [__del__] runs, past its first statement, for a
    manager that was idle in [st0]: the flag is cleared, only sentinels are
    queued or held, and the counter of the queue is right. *)
Definition closing (st0 : St) (err : list Exn) (sys : System) : Prop :=
  shared sys = pipe (queue_of sys) false st0
  /\ stderr sys = err
  /\ Forall (eq None) (queue_of sys)
  /\ unfinished_tasks sys
     = (length (queue_of sys) + in_flight (worker sys))%nat
  /\ worker sys <> Died
  /\ forall item, worker sys = Holding item -> item = None.

(** A state in which [__del__] is stuck: one checkpoint is with the worker
    and another one fills the queue when the flag is cleared. *)
Definition stuck_system : System :=
  match schedule (helpers := already_on_cpu) 8
                 [SaveAsync 10 some_state_dict false;
                  SaveAsync 20 some_state_dict false; AliveClear]
                 (boot sample_state) with
  | Some (_, sys) => sys
  | None => boot sample_state
  end.

(** The calls of the manager's interface among the actions. *)
Definition api_call (a : Action) : Prop :=
  match a with
  | SaveAsync _ _ _ | Join => True
  | _ => False
  end.

(** The items the calls of [save_async] in [program] put on the queue. *)
Definition put_by {helpers : Helpers} (c : CheckpointManager)
    (program : list Action) : list Item :=
  flat_map (fun a => match a with
                     | SaveAsync step state_dict force =>
                         accepted c [(step, state_dict, force)]
                     | _ => []
                     end) program.

(** The item the worker has fetched and not yet processed. *)
Definition in_hand (t : Worker) : list Item :=
  match t with
  | Holding item => [item]
  | _ => []
  end.

(** The pipeline after the flag was cleared in [sys0] with the worker not
    waiting for an item: nothing has left the queue since, and the worker
    has processed at most the item it had in hand. *)
Definition winding_down (sys0 sys : System) : Prop :=
  worker sys <> Getting
  /\ queue_of sys0 `prefix_of` queue_of sys
  /\ exists done,
       shared sys = pipe (queue_of sys) false (drain done (shared sys0)).1
       /\ match worker sys with
          | Holding item => done = [] /\ worker sys0 = Holding item
          | _ => done `prefix_of` in_hand (worker sys0)
          end.

(** * Proofs *)

(** ** Facts about [sorted] *)

Section Sorted.
Context {A : Type} (key : A -> Z).

Lemma insert_by_perm x l : Permutation (x :: l) (insert_by key x l).
Proof.
  induction l as [|y l IH]; simpl; [done|].
  destruct (key x <=? key y); [done|].
  rewrite perm_swap. by constructor.
Qed.

Lemma sorted_perm l : Permutation l (sorted key l).
Proof.
  induction l as [|x l IH]; simpl; [done|].
  rewrite <- insert_by_perm. by constructor.
Qed.

Lemma insert_by_sorted x l :
  StronglySorted (key_le key) l -> StronglySorted (key_le key) (insert_by key x l).
Proof.
  induction 1 as [|y l Hl IH Hy]; simpl.
  - repeat constructor.
  - destruct (Z.leb_spec (key x) (key y)) as [Hxy|Hxy].
    + constructor; [by constructor|].
      constructor; [done|].
      eapply Forall_impl; [exact Hy|]. unfold key_le. intros; simpl in *; lia.
    + constructor; [done|].
      rewrite <- insert_by_perm. constructor; [|done]. unfold key_le; lia.
Qed.

Lemma sorted_sorted l : StronglySorted (key_le key) (sorted key l).
Proof.
  induction l as [|x l IH]; simpl; [constructor|]. by apply insert_by_sorted.
Qed.

Lemma sorted_elem_of x l : x ∈ sorted key l <-> x ∈ l.
Proof. by rewrite <- sorted_perm. Qed.

Lemma sorted_length l : length (sorted key l) = length l.
Proof. by rewrite <- sorted_perm. Qed.

(** Stability: the entries of any one key come out in the order they went
    in. *)
Lemma insert_by_filter (P : A -> Prop) `{!forall a, Decision (P a)} x l :
  (forall y, P y -> y ∈ l -> P x -> key x <= key y) ->
  filter P (insert_by key x l) = filter P (x :: l).
Proof.
  induction l as [|y l IH]; intros Hle; simpl; [done|].
  destruct (Z.leb_spec (key x) (key y)) as [Hxy|Hxy]; [done|].
  rewrite !filter_cons. rewrite filter_cons in IH.
  destruct (decide (P y)) as [Py|Py].
  - destruct (decide (P x)) as [Px|Px].
    + specialize (Hle y Py ltac:(left) Px). lia.
    + rewrite IH; [done|]. intros z Pz Hz. apply Hle; [done|by right].
  - rewrite IH; [done|]. intros z Pz Hz. apply Hle; [done|by right].
Qed.

Lemma sorted_stable k l :
  filter (fun a => key a = k) (sorted key l) = filter (fun a => key a = k) l.
Proof.
  induction l as [|x l IH]; simpl; [done|].
  rewrite insert_by_filter.
  - rewrite !filter_cons. by rewrite IH.
  - simpl. intros y Hy _ Hx. lia.
Qed.
End Sorted.

(** ** Reasoning about runs *)

Lemma bind_run {A B} (m : M A) (k : A -> M B) st r st' :
  bind m k st = (r, st') ->
  (exists a st1, m st = (Ok a, st1) /\ k a st1 = (r, st'))
  \/ (exists e, m st = (Raise e, st') /\ r = Raise e).
Proof.
  unfold bind. destruct (m st) as [[a|e] st1]; intros H.
  - left. by exists a, st1.
  - right. exists e. by inversion H.
Qed.

#[global] Instance same_preorder {B} (f : St -> B) : PreOrder (same f).
Proof. split; unfold same; [done|]. intros x y z H1 H2. congruence. Qed.

Section Keeps.
Context (R : relation St) `{!PreOrder R}.

Lemma keeps_ret {A} (a : A) : keeps R (ret a).
Proof. intros st. unfold exec, ret. simpl. reflexivity. Qed.

Lemma keeps_raise {A} e : keeps R (@raise A e).
Proof. intros st. unfold exec, raise. simpl. reflexivity. Qed.

Lemma keeps_gets {A} (f : St -> A) : keeps R (gets f).
Proof. intros st. unfold exec, gets. simpl. reflexivity. Qed.

Lemma keeps_assert c msg : keeps R (assert c msg).
Proof. destruct c; [apply keeps_ret|apply keeps_raise]. Qed.

Lemma keeps_bind {A B} (m : M A) (k : A -> M B) :
  keeps R m -> (forall a, keeps R (k a)) -> keeps R (bind m k).
Proof.
  intros Hm Hk st. unfold exec, bind.
  specialize (Hm st). unfold exec in Hm.
  destruct (m st) as [[a|e] st1]; simpl in *; [|done].
  etransitivity; [exact Hm|]. apply Hk.
Qed.

Lemma keeps_try {A} (m : M A) : keeps R m -> keeps R (try_ m).
Proof.
  intros Hm st. specialize (Hm st). unfold exec, try_ in *.
  by destruct (m st).
Qed.

Lemma keeps_modify f : (forall st, R st (f st)) -> keeps R (modify f).
Proof. intros Hf st. apply Hf. Qed.
End Keeps.

(** Proves [keeps R m] for a straight-line [m], given the lemmas [tac] knows
    for the calls inside. *)
Ltac keeps_step tac :=
  first
    [ apply keeps_ret; tc_solve
    | apply keeps_raise; tc_solve
    | apply keeps_gets; tc_solve
    | apply keeps_assert; tc_solve
    | tac
    | apply keeps_try; [tc_solve..|]
    | apply keeps_bind; [tc_solve..| |intros ?]
    | match goal with
      | |- keeps _ (match ?x with _ => _ end) => destruct x
      | |- keeps _ (if ?x then _ else _) => destruct x
      | |- keeps _ (let '(_, _) := ?x in _) => destruct x
      end ].

Ltac keeps_auto tac := repeat keeps_step tac.

(** *** The collaborators *)

Lemma bind_run_perform {B} e (k : Outcome -> M B) st :
  bind (perform e) k st =
    k (outcome (world st) (length (trace (world st))) e)
      (on_world (with_trace (trace (world st) ++ [e])) st).
Proof. reflexivity. Qed.

#[global] Instance frame_preorder P E : PreOrder (frame P E).
Proof.
  split.
  - intros st. split; try done. exists []. by rewrite app_nil_r.
  - intros x y z [C1 O1 (e1 & T1 & F1) S1] [C2 O2 (e2 & T2 & F2) S2].
    split; try congruence.
    + exists (e1 ++ e2). rewrite T2, T1, app_assoc. split; [done|].
      by apply Forall_app.
    + intros q Hq. by rewrite S2, S1.
Qed.

Lemma frame_weaken (P Q : string -> Prop) (E F : Event -> Prop) st st' :
  (forall q, P q -> Q q) -> (forall e, E e -> F e) ->
  frame P E st st' -> frame Q F st st'.
Proof.
  intros HPQ HEF [C O (evs & T & HE) S]. split; auto.
  exists evs. split; [done|]. eapply Forall_impl; eauto.
Qed.

Lemma frame_trace_length P E st st' :
  frame P E st st' ->
  (length (trace (world st)) <= length (trace (world st')))%nat.
Proof. intros [_ _ (evs & -> & _) _]. rewrite length_app. lia. Qed.

Create HintDb keeps.

Lemma perform_frame P (E : Event -> Prop) e : E e -> keeps (frame P E) (perform e).
Proof.
  intros He st. split; simpl; try done. exists [e]. split; [done|].
  by constructor.
Qed.

Lemma perform_self e : keeps (same self) (perform e).
Proof. by intros st. Qed.

Lemma set_storage_frame (P : string -> Prop) E
    (f : gmap string Dir -> gmap string Dir) :
  (forall s q, ~ P q -> f s !! q = s !! q) ->
  keeps (frame P E) (modify (on_world (fun w => with_storage (f (storage w)) w))).
Proof.
  intros Hf. apply keeps_modify; [tc_solve..|]. intros st. split; simpl; try done.
  - exists []. by rewrite app_nil_r.
  - intros q Hq. by apply Hf.
Qed.

Lemma set_storage_self (f : gmap string Dir -> gmap string Dir) :
  keeps (same self) (modify (on_world (fun w => with_storage (f (storage w)) w))).
Proof. by intros st. Qed.

Lemma put_data_other d p s q : q <> p -> put_data d p s !! q = s !! q.
Proof. intros Hq. unfold put_data. by rewrite lookup_insert_ne. Qed.

Lemma put_meta_other f p s q : q <> p -> put_meta f p s !! q = s !! q.
Proof. intros Hq. unfold put_meta. by rewrite lookup_insert_ne. Qed.

Lemma logging_warning_frame P (E : Event -> Prop) ps :
  E (LogWarning ps) -> keeps (frame P E) (logging_warning ps).
Proof.
  intros He. apply keeps_modify; [tc_solve..|]. intros st.
  split; simpl; try done. exists [LogWarning ps]. split; [done|]. by constructor.
Qed.

Lemma logging_warning_self ps : keeps (same self) (logging_warning ps).
Proof. by intros st. Qed.

#[global] Hint Resolve perform_self set_storage_self logging_warning_self : keeps.

Ltac event_ok :=
  first [ exact I | done | by left | by right | by eexists; eauto ].

Ltac keeps_known :=
  first
    [ solve [auto with keeps]
    | apply perform_frame; event_ok
    | apply logging_warning_frame; event_ok
    | apply set_storage_frame; intros ? ? ?;
      first [ apply put_data_other | apply put_meta_other
            | apply lookup_delete_ne ]; congruence ].

Lemma fs_ls_frame fs p :
  keeps (frame nowhere (eq (FsLs (unstrip fs p)))) (fs_ls fs p).
Proof. unfold fs_ls. keeps_auto keeps_known. Qed.

Lemma fs_ls_self fs p : keeps (same self) (fs_ls fs p).
Proof. unfold fs_ls. keeps_auto keeps_known. Qed.

Lemma exists_at_self p : keeps (same self) (exists_at p).
Proof. unfold exists_at. keeps_auto keeps_known. Qed.

Lemma rm_at_self p : keeps (same self) (rm_at p).
Proof. unfold rm_at. keeps_auto keeps_known. Qed.

Lemma fs_exists_self fs p : keeps (same self) (fs_exists fs p).
Proof. apply exists_at_self. Qed.

Lemma fs_rm_self fs p : keeps (same self) (fs_rm fs p).
Proof. apply rm_at_self. Qed.

Lemma save_state_dict_frame sd p :
  keeps (frame (eq p) (eq (SaveStateDict p))) (save_state_dict sd p).
Proof. unfold save_state_dict. keeps_auto keeps_known. Qed.

Lemma save_state_dict_self sd p : keeps (same self) (save_state_dict sd p).
Proof. unfold save_state_dict. keeps_auto keeps_known. Qed.

Lemma load_state_dict_frame sd p :
  keeps (frame nowhere (eq (LoadStateDict p))) (load_state_dict sd p).
Proof. unfold load_state_dict. keeps_auto keeps_known. Qed.

Lemma load_state_dict_self sd p : keeps (same self) (load_state_dict sd p).
Proof. unfold load_state_dict. keeps_auto keeps_known. Qed.

Lemma pickle_dump_frame m p :
  keeps (frame (eq p) (eq (OpenWrite (os_path_join p _MANAGER_METADATA_FILE))))
        (pickle_dump m p).
Proof. unfold pickle_dump. keeps_auto keeps_known. Qed.

Lemma pickle_dump_self m p : keeps (same self) (pickle_dump m p).
Proof. unfold pickle_dump. keeps_auto keeps_known. Qed.

Lemma pickle_load_frame p :
  keeps (frame nowhere (eq (OpenRead (os_path_join p _MANAGER_METADATA_FILE))))
        (pickle_load p).
Proof. unfold pickle_load. keeps_auto keeps_known. Qed.

Lemma pickle_load_self p : keeps (same self) (pickle_load p).
Proof. unfold pickle_load. keeps_auto keeps_known. Qed.

#[global] Hint Resolve fs_ls_self exists_at_self rm_at_self fs_exists_self
  fs_rm_self
  save_state_dict_self load_state_dict_self pickle_dump_self pickle_load_self
  : keeps.

(** *** The methods *)

Lemma bind_gets {A B} (f : St -> A) (k : A -> M B) st :
  bind (gets f) k st = k (f st) st.
Proof. reflexivity. Qed.

Section Config.
Context (st st' : St) (H : config st' = config st).

Lemma config_base_path : base_path (self st') = base_path (self st).
Proof using H. unfold config in H. congruence. Qed.

Lemma config_save_interval : save_interval (self st') = save_interval (self st).
Proof using H. unfold config in H. congruence. Qed.

Lemma config_max_to_keep : max_to_keep (self st') = max_to_keep (self st).
Proof using H. unfold config in H. congruence. Qed.

Lemma config_pg : pg (self st') = pg (self st).
Proof using H. unfold config in H. congruence. Qed.

Lemma config_async_queue : _async_queue (self st') = _async_queue (self st).
Proof using H. unfold config in H. congruence. Qed.

Lemma config_path_of s : path_of (self st') s = path_of (self st) s.
Proof using H. unfold path_of. by rewrite config_base_path. Qed.
End Config.

Lemma same_self_config st st' : self st' = self st -> config st' = config st.
Proof. unfold config. by intros ->. Qed.

Lemma strip_prefix_Some prefix : forall s rest,
  strip_prefix prefix s = Some rest -> prefix +:+ rest = s.
Proof.
  induction prefix as [|a prefix IH]; intros s rest H; simpl in H.
  - by injection H as ->.
  - destruct s as [|b s]; [done|]. case_bool_decide as Hab; [|done].
    subst b. change (String a (prefix +:+ rest) = String a s).
    f_equal. by apply IH.
Qed.

Lemma cut_at_separator_app s : forall protocol rest,
  cut_at_separator s = Some (protocol, rest) -> protocol +:+ "://" +:+ rest = s.
Proof.
  induction s as [|c s IH]; intros protocol rest H.
  - simpl in H. done.
  - unfold cut_at_separator in H. fold cut_at_separator in H.
    destruct (strip_prefix "://" (String c s)) as [rest'|] eqn:Hp.
    + injection H as <- <-. by apply (strip_prefix_Some "://").
    + destruct (cut_at_separator s) as [[before rest']|]; [|done].
      injection H as <- <-.
      change (String c (before +:+ "://" +:+ rest') = String c s).
      f_equal. by apply IH.
Qed.

(** The filesystem and the raw path of a URL address the URL. *)
Lemma unstrip_url_to_fs path :
  unstrip (url_to_fs path).1 (url_to_fs path).2 = path.
Proof.
  unfold url_to_fs, split_protocol.
  destruct (cut_at_separator path) as [[protocol rest]|] eqn:Hcut; [|done].
  case_bool_decide; [|done]. simpl. by apply cut_at_separator_app.
Qed.

Lemma delete_unfold s st :
  let p := path_of (self st) s in
  _delete_chkpt_at_step s st
  = (found ← exists_at p; if found then rm_at p else ret tt) st.
Proof.
  intros p. unfold _delete_chkpt_at_step, _get_path. rewrite bind_gets.
  fold (path_of (self st) s). fold p.
  pose proof (unstrip_url_to_fs p) as Hp.
  destruct (url_to_fs p) as [fs raw_path]. simpl in Hp.
  unfold fs_exists, fs_rm. by rewrite Hp.
Qed.

Lemma delete_self s : keeps (same self) (_delete_chkpt_at_step s).
Proof. unfold _delete_chkpt_at_step, _get_path. keeps_auto keeps_known. Qed.

#[global] Hint Resolve delete_self : keeps.

Lemma delete_frame_at s st :
  frame (eq (path_of (self st) s)) (deletion_at (path_of (self st) s)) st
        (exec (_delete_chkpt_at_step s) st).
Proof.
  unfold exec. rewrite delete_unfold.
  set (p := path_of (self st) s).
  assert (keeps (frame (eq p) (deletion_at p))
            (found ← exists_at p; if found then rm_at p else ret tt)) as Hk.
  { unfold exists_at, rm_at. keeps_auto keeps_known. }
  apply Hk.
Qed.

Lemma delete_frame s st :
  frame (eq (path_of (self st) s)) deletion st
        (exec (_delete_chkpt_at_step s) st).
Proof.
  eapply frame_weaken; [| |apply delete_frame_at]; [done|].
  intros e He. by exists (path_of (self st) s).
Qed.

Lemma delete_raises s st e st' :
  _delete_chkpt_at_step s st = (Raise e, st') -> delete_error e.
Proof.
  rewrite delete_unfold. simpl.
  set (p := path_of (self st) s). intros H. exists p.
  apply bind_run in H as [(found & st1 & H1 & H2)|(e' & H1 & [= ->])].
  - destruct found; [|by inversion H2].
    unfold rm_at in H2. rewrite bind_run_perform in H2.
    right. destruct (outcome _ _ _); by inversion H2.
  - unfold exists_at in H1. rewrite bind_run_perform in H1.
    left. destruct (outcome _ _ _); by inversion H1.
Qed.

(** After a deletion that did not raise there is nothing at the path. *)
Lemma delete_gone s st st' :
  _delete_chkpt_at_step s st = (Ok tt, st') ->
  storage (world st') !! path_of (self st) s = None.
Proof.
  rewrite delete_unfold. simpl.
  set (p := path_of (self st) s). intros H.
  apply bind_run in H as [(found & st1 & H1 & H2)|(e' & H1 & [=])].
  unfold exists_at in H1. rewrite bind_run_perform in H1.
  destruct (outcome _ _ _); try by inversion H1.
  unfold gets in H1. inversion H1; subst found st1; clear H1.
  simpl in H2. case_bool_decide as Hfound.
  - unfold rm_at in H2. rewrite bind_run_perform in H2.
    destruct (outcome _ _ _); try by inversion H2.
    unfold modify in H2. inversion H2; subst st'. simpl.
    by rewrite lookup_delete_eq.
  - inversion H2; subst st'. simpl.
    by apply eq_None_not_Some.
Qed.

Lemma delete_run s st r st' :
  _delete_chkpt_at_step s st = (r, st') ->
  self st' = self st
  /\ frame (eq (path_of (self st) s)) deletion st st'
  /\ (forall e, r = Raise e -> delete_error e)
  /\ (r = Ok tt -> storage (world st') !! path_of (self st) s = None).
Proof.
  intros H. split; [|split; [|split]].
  - pose proof (delete_self s st) as Hs. unfold same, exec in Hs.
    by rewrite H in Hs.
  - pose proof (delete_frame s st) as Hf. unfold exec in Hf. by rewrite H in Hf.
  - intros e ->. by eapply delete_raises.
  - intros ->. by eapply delete_gone.
Qed.

Lemma released_none st : released 0 st st.
Proof. split; try done. simpl. lia. Qed.

Lemma release_while_run turns : forall st r st',
  release_while turns st = (r, st') ->
  exists n, (n <= turns)%nat /\ released n st st'
    /\ (r = Ok tt -> (length (tracked st) < turns)%nat ->
        Z.of_nat (length (tracked st')) <= max_to_keep (self st))
    /\ (forall e, r = Raise e ->
        delete_error e \/ (e = IndexError /\ max_to_keep (self st) < 0)).
Proof.
  induction turns as [|turns IH]; intros st r st' H; simpl in H.
  - inversion H; subst. exists 0%nat. split; [lia|]. split; [apply released_none|].
    split; [|done]. intros _ Hlen. lia.
  - rewrite bind_gets in H. case_bool_decide as Hmore.
    + unfold bind at 1 in H. unfold popleft in H.
      destruct (tracked st) as [|oldest rest] eqn:Ht.
      { inversion H; subst. exists 0%nat. split; [lia|].
        split; [apply released_none|]. split; [done|]. intros e [= <-].
        right. split; [done|]. simpl in Hmore. lia. }
      set (st1 := on_self (with_tracked rest) st) in H.
      assert (frame nowhere deletion st st1) as Hf1.
      { split; try done. exists []. by rewrite app_nil_r. }
      apply bind_run in H as [(a & st2 & Hd & Hr)|(e & Hd & ->)].
      * apply delete_run in Hd as (Hself & Hfr & _ & _).
        apply IH in Hr as (n & Hn & Hrel & Hexit & Herr).
        destruct Hrel as [R1 R2 R3 R4].
        assert (config st2 = config st) as Hc2.
        { rewrite (same_self_config _ _ Hself). done. }
        rewrite Hself in R1, R2, R3, Hexit, Herr.
        simpl in R1, R2, R3, Hexit, Herr.
        exists (S n). split; [lia|]. split; [split|split].
        -- by rewrite Ht.
        -- rewrite Ht. simpl. lia.
        -- intros _. rewrite Ht. simpl length. destruct n as [|n'].
           ++ simpl in Hmore. lia.
           ++ specialize (R3 ltac:(done)). lia.
        -- rewrite Ht. simpl take.
           transitivity st1; [|transitivity st2].
           ++ eapply frame_weaken; [| |exact Hf1]; [by intros ? []|done].
           ++ eapply frame_weaken; [| |exact Hfr]; [|done].
              intros q <-. exists oldest. split; [by left|done].
           ++ eapply frame_weaken; [| |exact R4]; [|done].
              intros q (m & Hm & ->). exists m. rewrite Hself in Hm.
              split; [by right|]. by rewrite (config_path_of _ _ Hc2).
        -- intros Hr Hlen. simpl in Hlen. apply Hexit; [done|lia].
        -- done.
      * apply delete_run in Hd as (Hself & Hfr & Herr & _).
        exists 1%nat. split; [lia|]. split; [split|split].
        -- by rewrite Hself, Ht.
        -- rewrite Ht. simpl. lia.
        -- intros _. simpl in Hmore. rewrite Ht. simpl length. lia.
        -- rewrite Ht. simpl take. transitivity st1.
           ++ eapply frame_weaken; [| |exact Hf1]; [by intros ? []|done].
           ++ eapply frame_weaken; [| |exact Hfr]; [|done].
              intros q <-. exists oldest. split; [by left|done].
        -- done.
        -- intros e' [= <-]. left. by apply Herr.
    + inversion H; subst. exists 0%nat. split; [lia|].
      split; [apply released_none|]. split; [|done]. intros _ _. lia.
Qed.

Lemma release_closed st :
  ~ gate_open (self st) -> _release_oldest_checkpoints st = (Ok tt, st).
Proof.
  intros Hg. unfold _release_oldest_checkpoints. rewrite bind_gets.
  unfold gate_open in Hg. repeat case_bool_decide; simpl; try done. tauto.
Qed.

Lemma release_open st r st' :
  gate_open (self st) ->
  _release_oldest_checkpoints st = (r, st') ->
  exists n, released n st st'
    /\ (r = Ok tt -> Z.of_nat (length (tracked st')) <= max_to_keep (self st))
    /\ (forall e, r = Raise e -> delete_error e).
Proof.
  intros [Hrank Hk]. unfold _release_oldest_checkpoints. rewrite bind_gets.
  rewrite !bool_decide_eq_true_2 by done. cbn [andb]. rewrite bind_gets.
  intros H. apply release_while_run in H as (n & _ & Hrel & Hexit & Herr).
  exists n. split; [done|]. split.
  - intros Hr. apply Hexit; [done|lia].
  - intros e He. destruct (Herr e He) as [?|[_ ?]]; [done|lia].
Qed.

Lemma released_excess n st st' :
  released n st st' ->
  Z.of_nat (length (tracked st')) <= max_to_keep (self st) ->
  n = excess (length (tracked st)) (max_to_keep (self st)).
Proof.
  intros [R1 R2 R3 _] Hle. rewrite R1, length_drop in Hle. unfold excess.
  destruct n as [|n]; [lia|]. specialize (R3 ltac:(done)). lia.
Qed.

Lemma release_run st r st' :
  _release_oldest_checkpoints st = (r, st') ->
  exists n, released n st st'
    /\ (forall e, r = Raise e -> delete_error e)
    /\ (~ gate_open (self st) -> n = 0%nat /\ r = Ok tt /\ st' = st)
    /\ (gate_open (self st) -> r = Ok tt ->
        Z.of_nat (length (tracked st')) <= max_to_keep (self st)
        /\ n = excess (length (tracked st)) (max_to_keep (self st))).
Proof.
  intros H. destruct (decide (gate_open (self st))) as [Hg|Hg].
  - destruct (release_open _ _ _ Hg H) as (n & Hrel & Hexit & Herr).
    exists n. split; [done|]. split; [done|]. split; [done|].
    intros _ Hr. split; [by apply Hexit|].
    apply (released_excess _ _ _ Hrel). by apply Hexit.
  - rewrite (release_closed _ Hg) in H. inversion H; subst.
    exists 0%nat. split; [apply released_none|]. split; [done|].
    split; [done|]. intros Hg'. by destruct Hg.
Qed.

Lemma save_state_dict_run sd p st r st' :
  save_state_dict sd p st = (r, st') ->
  self st' = self st
  /\ oracles st' = oracles st
  /\ trace (world st') = trace (world st) ++ [SaveStateDict p]
  /\ ((r = Ok tt
       /\ outcome (world st) (length (trace (world st))) (SaveStateDict p) = Succeeds
       /\ storage (world st') = put_data (Some sd) p (storage (world st)))
      \/ (r = Raise (OSError (SaveStateDict p))
          /\ outcome (world st) (length (trace (world st))) (SaveStateDict p) <> Succeeds
          /\ (storage (world st') = storage (world st)
              \/ storage (world st') = put_data None p (storage (world st))))).
Proof.
  unfold save_state_dict. rewrite bind_run_perform.
  destruct (outcome _ _ _) eqn:Ho; intros H; inversion H; subst; simpl;
    (split; [done|]); (split; [done|]); (split; [done|]).
  - by left.
  - right. repeat split; try done. by left.
  - right. repeat split; try done. by right.
Qed.

Lemma pickle_dump_run m p st r st' :
  let file := os_path_join p _MANAGER_METADATA_FILE in
  pickle_dump m p st = (r, st') ->
  self st' = self st
  /\ oracles st' = oracles st
  /\ trace (world st') = trace (world st) ++ [OpenWrite file]
  /\ ((r = Ok tt
       /\ storage (world st') = put_meta (Pickled m) p (storage (world st)))
      \/ (r = Raise (OSError (OpenWrite file))
          /\ (storage (world st') = storage (world st)
              \/ storage (world st') = put_meta Garbage p (storage (world st))))).
Proof.
  intros file. unfold pickle_dump. fold file. rewrite bind_run_perform.
  destruct (outcome _ _ _) eqn:Ho; intros H; inversion H; subst; simpl;
    (split; [done|]); (split; [done|]); (split; [done|]).
  - by left.
  - right. split; [done|]. by left.
  - right. split; [done|]. by right.
Qed.

Lemma should_save_run s st :
  should_save s st =
    (if bool_decide (save_interval (self st) = 0) then Raise ZeroDivisionError
     else Ok (bool_decide (s `mod` save_interval (self st) = 0)), st).
Proof.
  unfold should_save. rewrite bind_gets. by case_bool_decide.
Qed.

Lemma save_run s sd force st r st' :
  save s sd force st = (r, st') ->
  (save_interval (self st) = 0 /\ r = Raise ZeroDivisionError /\ st' = st)
  \/ (save_interval (self st) <> 0
      /\ s `mod` save_interval (self st) <> 0 /\ force = false
      /\ r = Ok false /\ st' = st)
  \/ (save_interval (self st) <> 0
      /\ (s `mod` save_interval (self st) = 0 \/ force = true)
      /\ save_stages s sd st r st').
Proof.
  unfold save. unfold bind at 1. rewrite should_save_run.
  case_bool_decide as Hi; intros H.
  { inversion H; subst. by left. }
  right. destruct (_ || _) eqn:Hgate.
  - right. split; [done|]. split.
    { apply orb_true_iff in Hgate as [Hd%bool_decide_eq_true|Hf]; auto. }
    unfold _get_path at 1 in H. rewrite bind_gets in H.
    fold (path_of (self st) s) in H. set (p := path_of (self st) s) in *.
    apply bind_run in H as [([] & st1 & H1 & H)|(e & H1 & ->)];
      [|by eapply stops_at_delete].
    apply bind_run in H as [([] & st2 & H2 & H)|(e & H2 & ->)];
      [|by eapply stops_at_write].
    unfold datetime_now in H. rewrite bind_gets in H.
    apply bind_run in H as [([] & st3 & H3 & H)|(e & H3 & ->)];
      [|by eapply stops_at_metadata].
    unfold append in H. unfold bind at 1 in H. unfold modify at 1 in H.
    apply bind_run in H as [([] & st4 & H4 & H)|(e & H4 & ->)].
    + inversion H; subst.
      by apply (reaches_release s sd st st1 st2 st3 (Ok tt) st').
    + by apply (reaches_release s sd st st1 st2 st3 (Raise e) st').
  - left. apply orb_false_iff in Hgate as [Hd%bool_decide_eq_false ->].
    inversion H; subst. done.
Qed.

Lemma keeps_at {A} (R : relation St) (m : M A) st r st' :
  keeps R m -> m st = (r, st') -> R st st'.
Proof. intros Hk H. specialize (Hk st). unfold exec in Hk. by rewrite H in Hk. Qed.

Lemma frame_self_only P E st st' :
  config st' = config st -> world st' = world st -> frame P E st st'.
Proof.
  intros Hc Hw. split; try done.
  - unfold oracles. by rewrite Hw.
  - exists []. by rewrite app_nil_r, Hw.
  - intros q _. by rewrite Hw.
Qed.

Lemma written_dir (sd : STATE_DICT_TYPE) m p (s0 s1 : gmap string Dir) :
  s1 !! p = None ->
  (forall q, q <> p -> s1 !! q = s0 !! q) ->
  put_meta (Pickled m) p (put_data (Some sd) p s1)
  = <[p := mk_dir (Some sd) (Some (Pickled m))]> s0.
Proof.
  intros Hnone Hother. unfold put_meta, put_data.
  rewrite lookup_insert_eq, Hnone. simpl. rewrite insert_insert_eq.
  apply map_eq. intros q. destruct (decide (p = q)) as [->|Hq].
  - by rewrite !lookup_insert_eq.
  - rewrite !lookup_insert_ne by done. apply Hother. congruence.
Qed.

Lemma save_true_run s sd force st st' :
  save s sd force st = (Ok true, st') -> exists m n, saved s sd m n st st'.
Proof.
  intros H. apply save_run in H as [(_ & [=] & _)|[(_ & _ & _ & [=] & _)|(Hi & Hdue & H)]].
  inversion H as [| | |st1 st2 st3 r4 st4 metadata H1 H2 H3 H4 Hr]; subst st4.
  destruct r4 as [[]|]; [clear Hr|done].
  set (p := path_of (self st) s) in *.
  apply delete_run in H1 as (S1 & F1 & _ & G1); specialize (G1 eq_refl).
  pose proof (keeps_at _ _ _ _ _ (save_state_dict_frame sd p) H2) as F2.
  apply save_state_dict_run in H2 as (S2 & O2 & T2 & [(_ & _ & D2)|([=] & _)]).
  pose proof (keeps_at _ _ _ _ _ (pickle_dump_frame metadata p) H3) as F3.
  apply pickle_dump_run in H3 as (S3 & O3 & T3 & [(_ & D3)|([=] & _)]).
  set (st3' := on_self _ st3) in H4.
  assert (self st3 = self st) as S03 by congruence.
  assert (tracked st3' = tracked st ++ [metadata]) as Ht3.
  { unfold st3'. simpl. by rewrite S03. }
  assert (config st3' = config st) as C3.
  { unfold st3', config. simpl. by rewrite S03. }
  assert (frame (eq p) any_event st st3') as F03.
  { transitivity st1; [|transitivity st2; [|transitivity st3]].
    - eapply frame_weaken; [| |exact F1]; done.
    - eapply frame_weaken; [| |exact F2]; done.
    - eapply frame_weaken; [| |exact F3]; done.
    - apply frame_self_only; [|done]. unfold st3', config. by simpl. }
  apply release_run in H4 as (n & Hrel & _ & Hclosed & Hopen).
  pose proof (config_max_to_keep _ _ C3) as Hk.
  pose proof (config_pg _ _ C3) as Hpg.
  assert (gate_open (self st3') <-> gate_open (self st)) as Hgate.
  { unfold gate_open. by rewrite Hk, Hpg. }
  destruct Hrel as [R1 R2 R3 R4]. rewrite Ht3 in R1, R2, R3.
  rewrite length_app in R2, R3. simpl length in R2, R3.
  assert (n <= length (tracked st))%nat as Hn.
  { destruct (decide (gate_open (self st))) as [Hg|Hg].
    - destruct n as [|n']; [lia|]. specialize (R3 ltac:(done)).
      destruct Hg as [_ Hpos]. rewrite Hk in R3. lia.
    - rewrite <- Hgate in Hg. destruct (Hclosed Hg) as [-> _]. lia. }
  exists metadata, n. split.
  - done.
  - exists (length (trace (world st2))). split.
    + pose proof (frame_trace_length _ _ _ _ F1) as L1.
      pose proof (frame_trace_length _ _ _ _ R4) as L4.
      change (trace (world st3')) with (trace (world st3)) in L4.
      rewrite T3, T2, !length_app in L4. rewrite T2, length_app.
      simpl in *. lia.
    + unfold metadata. simpl. destruct F1 as [_ Ho _ _].
      unfold oracles in O2, Ho. congruence.
  - done.
  - done.
  - transitivity st3'.
    + eapply frame_weaken; [| |exact F03]; [|done]. intros q <-. by left.
    + eapply frame_weaken; [| |exact R4]; [|done].
      intros q (x & Hx & ->). right. exists x.
      rewrite Ht3, take_app_le in Hx by done.
      split; [done|]. by rewrite (config_path_of _ _ C3).
  - intros Hg. rewrite <- Hgate in Hg. destruct (Hopen Hg eq_refl) as [Hlen ->].
    rewrite Hk in Hlen. split; [done|]. rewrite Ht3, length_app, Hk. simpl.
    f_equal. lia.
  - intros Hg. rewrite <- Hgate in Hg. destruct (Hclosed Hg) as (-> & _ & ->).
    split; [done|].
    assert (storage (world st3') = storage (world st3)) as -> by done.
    rewrite D3, D2. apply written_dir; [done|].
    intros q Hq. destruct F1 as [_ _ _ Hst]. apply Hst. congruence.
Qed.

(** ** The properties of the specification *)

(** The states the statements below start from are what the constructor
    returns, and the constructor rejects what it asserts against. *)
Example constructor_runs :
  fst (__init__ "ckpt" 10 2 1 None (calm_world 0)) = Ok (self sample_state)
  /\ fst (__init__ "ckpt" 10 0 1 None (calm_world 0))
     = Ok (self (started "ckpt" 10 0 (calm_world 0)))
  /\ fst (__init__ "ckpt" 10 1 1 None (calm_world 0))
     = Ok (self (started "ckpt" 10 1 (calm_world 0)))
  /\ fst (__init__ "ckpt" 1 0 1 None (calm_world 0))
     = Ok (self (started "ckpt" 1 0 (calm_world 0)))
  /\ fst (__init__ "ckpt" 10 2 1 None (calm_world 1))
     = Ok (self (started "ckpt" 10 2 (calm_world 1)))
  /\ fst (__init__ "ckpt" 10 0 1 None
            (world_with_step_10 1 (fun _ _ => Succeeds)))
     = Ok (self (started "ckpt" 10 0
                   (world_with_step_10 1 (fun _ _ => Succeeds))))
  /\ fst (__init__ "ckpt" 10 0 1 None (world_with_step_10 0 snapshot_store_down))
     = Ok (self state_store_down)
  /\ fst (__init__ "ckpt" 0 0 1 None (calm_world 0))
     = Raise (AssertionError (Text "save_interval must be positive"))
  /\ fst (__init__ "ckpt" 10 (-1) 1 None (calm_world 0))
     = Raise (AssertionError (Text "max_to_keep must be non-negative")).
Proof. vm_compute. repeat split; reflexivity. Qed.

Lemma all_steps_run st :
  all_steps st = (Ok (sorted id (steps_of (tracked st))), st).
Proof. reflexivity. Qed.

(** C6: for every integer step [s], [should_save(s)] returns true if and only
    if [s] modulo [save_interval] is 0.  The interval is not 0 (the
    constructor asserts that it is positive); the call has no effect. *)
Theorem should_save_iff_multiple (st : St) (s : Z) :
  save_interval (self st) <> 0 ->
  should_save s st
    = (Ok (bool_decide (s `mod` save_interval (self st) = 0)), st)
  /\ (eval (should_save s) st = Ok true <-> s `mod` save_interval (self st) = 0).
Proof.
  intros Hi. unfold eval. rewrite should_save_run.
  rewrite bool_decide_eq_false_2 by done. split; [done|]. simpl.
  case_bool_decide; split; intros; congruence.
Qed.

Lemma should_save_iff_multiple_witness :
  save_interval (self sample_state) <> 0
  /\ should_save 20 sample_state = (Ok true, sample_state)
  /\ should_save 25 sample_state = (Ok false, sample_state).
Proof.
  assert (save_interval (self sample_state) <> 0) as Hi by (vm_compute; lia).
  split; [exact Hi|]. split.
  - exact (proj1 (should_save_iff_multiple sample_state 20 Hi)).
  - exact (proj1 (should_save_iff_multiple sample_state 25 Hi)).
Defined.

(** C7: for every step [s] that is not in [all_steps()], [restore(s, target)]
    fails with the untracked-step error, whose message lists the steps that
    are tracked, and makes no call to storage before it fails: state and
    trace are as they were. *)
Theorem restore_untracked_fails (st : St) (s : Z) (target : STATE_DICT_TYPE)
    (steps : list Z) :
  eval all_steps st = Ok steps ->
  s ∉ steps ->
  exists valid : gset Z,
    restore s target st = (Raise (AssertionError (CannotRestore s valid)), st)
    /\ (forall x, x ∈ valid <-> x ∈ steps)
    /\ trace (world (exec (restore s target) st)) = trace (world st).
Proof.
  unfold eval. rewrite all_steps_run. simpl. intros [= <-] Hs.
  rewrite sorted_elem_of in Hs.
  exists (list_to_set (steps_of (tracked st))).
  assert (restore s target st
          = (Raise (AssertionError
                      (CannotRestore s (list_to_set (steps_of (tracked st))))),
             st)) as Hrun.
  { unfold restore, tracked_steps. rewrite bind_gets.
    rewrite bool_decide_eq_false_2; [done|].
    by rewrite elem_of_list_to_set. }
  split; [exact Hrun|]. split.
  - intros x. by rewrite elem_of_list_to_set, sorted_elem_of.
  - unfold exec. by rewrite Hrun.
Qed.

Lemma restore_untracked_fails_witness :
  exists valid : gset Z,
    restore 7 some_state_dict sample_state
      = (Raise (AssertionError (CannotRestore 7 valid)), sample_state)
    /\ (forall x, x ∈ valid <-> x ∈ @nil Z)
    /\ trace (world (exec (restore 7 some_state_dict) sample_state))
       = trace (world sample_state).
Proof.
  apply (restore_untracked_fails sample_state 7 some_state_dict []).
  - vm_compute. reflexivity.
  - apply not_elem_of_nil.
Defined.

Lemma restore_self s target : keeps (same self) (restore s target).
Proof.
  unfold restore, tracked_steps, _get_path. keeps_auto keeps_known.
Qed.

Lemma restore_frame s target : keeps (frame nowhere any_event) (restore s target).
Proof.
  unfold restore, tracked_steps, _get_path, load_state_dict.
  keeps_auto keeps_known.
Qed.

(** C10: [restore(step, target)] never modifies the manager: whatever the
    step and however the call ends, the manager object is the one it was, so
    the tracked checkpoints and hence [all_steps()], [max_to_keep],
    [save_interval] and the async queue are as before the call.  Nothing in
    storage changes either. *)
Theorem restore_keeps_manager (st : St) (s : Z) (target : STATE_DICT_TYPE) :
  let st' := exec (restore s target) st in
  self st' = self st
  /\ tracked st' = tracked st
  /\ eval all_steps st' = eval all_steps st
  /\ max_to_keep (self st') = max_to_keep (self st)
  /\ save_interval (self st') = save_interval (self st)
  /\ _async_queue (self st') = _async_queue (self st)
  /\ storage (world st') = storage (world st).
Proof.
  intros st'. pose proof (restore_self s target st) as Hs.
  unfold same in Hs. fold st' in Hs.
  split; [done|]. unfold eval. rewrite !all_steps_run. simpl. rewrite Hs.
  repeat (split; [done|]).
  destruct (restore_frame s target st) as [_ _ _ Hst]. fold st' in Hst.
  apply map_eq. intros q. apply Hst. by intros [].
Qed.

(** C4: if neither [force] nor [should_save(s)] holds, [save(s, snapshot,
    force)] returns false with no side effect: the manager and the world,
    trace included, are untouched.  And whenever [save] returns true,
    [all_steps()] contains [s]. *)
Theorem save_gate_and_tracking (st : St) (s : Z) (sd : STATE_DICT_TYPE)
    (force : bool) :
  (force = false -> eval (should_save s) st = Ok false ->
   save s sd force st = (Ok false, st))
  /\ (forall st', save s sd force st = (Ok true, st') ->
      exists steps, eval all_steps st' = Ok steps /\ s ∈ steps).
Proof.
  split.
  - intros -> Hdue. unfold eval in Hdue. rewrite should_save_run in Hdue.
    unfold save. unfold bind at 1. rewrite should_save_run.
    simpl in Hdue. rewrite Hdue. done.
  - intros st' H. apply save_true_run in H as (m & n & Hsv).
    destruct Hsv as [Hstep _ Htr Hle _ _ _].
    eexists. split; [unfold eval; by rewrite all_steps_run|].
    apply sorted_elem_of. unfold steps_of. rewrite Htr.
    rewrite drop_app_le by done. rewrite map_app. simpl.
    rewrite Hstep. apply elem_of_app. right. by left.
Qed.

Lemma save_gate_and_tracking_witness :
  save 7 some_state_dict false sample_state = (Ok false, sample_state)
  /\ exists steps,
       eval all_steps (exec (save 20 some_state_dict false) sample_state)
         = Ok steps /\ 20 ∈ steps.
Proof.
  split.
  - apply (save_gate_and_tracking sample_state 7 some_state_dict false).
    + reflexivity.
    + vm_compute. reflexivity.
  - apply (save_gate_and_tracking sample_state 20 some_state_dict false).
    vm_compute. reflexivity.
Defined.

(** C1 fails on the code: [save] deletes the old checkpoint of the step from
    storage but leaves its entry in the deque, and appends another.  With
    [max_to_keep=0] two forced saves of step 5 leave two tracked entries for
    step 5, and [all_steps()] is [[5, 5]]. *)
Theorem save_twice_tracks_step_twice :
  let st0 := started "ckpt" 10 0 (calm_world 0) in
  let st2 := exec (save_twice 5 some_state_dict) st0 in
  eval (save_twice 5 some_state_dict) st0 = Ok true
  /\ tracked st0 = []
  /\ tracked st2 = [mk_metadata 5 3; mk_metadata 5 7]
  /\ eval all_steps st2 = Ok [5; 5]
  /\ dom (storage (world st2)) = {[ "ckpt/5" ]}.
Proof. vm_compute. repeat split; reflexivity. Qed.

(** The same two saves under [max_to_keep=1]: retention then takes the older
    of the two entries off the deque and deletes the checkpoint at its step,
    which is the one just written.  Step 5 stays tracked, nothing is left in
    storage, and restoring it fails. *)
Lemma save_twice_loses_checkpoint :
  let st0 := started "ckpt" 10 1 (calm_world 0) in
  let st2 := exec (save_twice 5 some_state_dict) st0 in
  eval (save_twice 5 some_state_dict) st0 = Ok true
  /\ eval all_steps st2 = Ok [5]
  /\ storage (world st2) !! "ckpt/5" = None
  /\ eval (restore 5 some_state_dict) st2
     = Raise (OSError (LoadStateDict "ckpt/5")).
Proof. vm_compute. repeat split; reflexivity. Qed.

(** Whenever retention does not run, two saves of a step that both return
    true leave two more entries for that step. *)
Lemma save_twice_appends_twice s sd f1 f2 st st1 st2 :
  ~ gate_open (self st) ->
  save s sd f1 st = (Ok true, st1) ->
  save s sd f2 st1 = (Ok true, st2) ->
  exists m1 m2, tracked st2 = tracked st ++ [m1; m2]
                /\ step m1 = s /\ step m2 = s.
Proof.
  intros Hg H1 H2.
  apply save_true_run in H1 as (m1 & n1 & [E1 _ T1 _ F1 _ C1]).
  apply save_true_run in H2 as (m2 & n2 & [E2 _ T2 _ _ _ C2]).
  destruct (C1 Hg) as [-> _].
  assert (~ gate_open (self st1)) as Hg1.
  { destruct F1 as [Hc _ _ _]. unfold gate_open.
    by rewrite (config_pg _ _ Hc), (config_max_to_keep _ _ Hc). }
  destruct (C2 Hg1) as [-> _].
  exists m1, m2. rewrite T2, T1. rewrite !drop_0, <- app_assoc. done.
Qed.

(** C3 fails on the code: [save] calls [_delete_chkpt_at_step] for its own
    step whatever the rank.  On the process of rank 1, with a checkpoint of
    step 10 in storage, [save(10, ...)] removes ["ckpt/10"]. *)
Theorem nonzero_rank_deletes_on_save :
  let st0 := started "ckpt" 10 0 (world_with_step_10 1 (fun _ _ => Succeeds)) in
  let st1 := exec (save 10 some_state_dict false) st0 in
  get_rank (pg (self st0)) = 1
  /\ eval all_steps st0 = Ok [10]
  /\ eval (save 10 some_state_dict false) st0 = Ok true
  /\ trace (world st1)
     = trace (world st0)
       ++ [FsExists "ckpt/10"; FsRm "ckpt/10"; SaveStateDict "ckpt/10";
           OpenWrite "ckpt/10/.manager_metadata"].
Proof. vm_compute. repeat split; reflexivity. Qed.

Lemma delete_removes s st r st1 :
  let p := path_of (self st) s in
  is_Some (storage (world st) !! p) ->
  outcome (world st) (length (trace (world st))) (FsExists p) = Succeeds ->
  _delete_chkpt_at_step s st = (r, st1) ->
  trace (world st1) = trace (world st) ++ [FsExists p; FsRm p].
Proof.
  intros p Hsome Hok. rewrite delete_unfold. simpl. fold p.
  unfold exists_at. unfold bind at 1. rewrite bind_run_perform, Hok.
  unfold gets. cbn [storage world on_world with_trace].
  rewrite bool_decide_eq_true_2 by done.
  unfold rm_at. rewrite bind_run_perform.
  unfold modify, raise.
  match goal with |- context [match ?o with _ => _ end] => destruct o end;
    intros H; inversion H; subst; simpl; by rewrite <- app_assoc.
Qed.

Lemma save_stages_trace s sd st r st' :
  save_stages s sd st r st' ->
  exists r1 st1,
    _delete_chkpt_at_step s st = (r1, st1)
    /\ trace (world st1) `prefix_of` trace (world st').
Proof.
  intros H.
  inversion H as [e1 st1 H1|st1 e2 st2 H1 H2|st1 st2 e3 st3 H1 H2 H3
                 |st1 st2 st3 r4 st4 metadata H1 H2 H3 H4 Hr]; subst;
    eexists _, _; (split; [exact H1|]).
  - done.
  - apply save_state_dict_run in H2 as (_ & _ & -> & _). by apply prefix_app_r.
  - apply save_state_dict_run in H2 as (_ & _ & T2 & _).
    apply pickle_dump_run in H3 as (_ & _ & -> & _).
    rewrite T2, <- app_assoc. by apply prefix_app_r.
  - apply save_state_dict_run in H2 as (_ & _ & T2 & _).
    apply pickle_dump_run in H3 as (_ & _ & T3 & _).
    apply release_run in H4 as (n & [_ _ _ [_ _ (evs & -> & _) _]] & _).
    simpl. rewrite T3, T2, <- !app_assoc. by apply prefix_app_r.
Qed.

(** On every rank: a save that is past its guard finds the checkpoint that
    exists at its step and calls [fs.rm] on it. *)
Lemma save_removes_on_any_rank s sd force st r st' :
  let p := path_of (self st) s in
  save_interval (self st) <> 0 ->
  s `mod` save_interval (self st) = 0 \/ force = true ->
  is_Some (storage (world st) !! p) ->
  outcome (world st) (length (trace (world st))) (FsExists p) = Succeeds ->
  save s sd force st = (r, st') ->
  FsRm p ∈ trace (world st').
Proof.
  intros p Hi Hdue Hsome Hok H.
  apply save_run in H as [(? & _)|[(_ & Hnot & -> & _)|(_ & _ & H)]];
    [done|by destruct Hdue|].
  apply save_stages_trace in H as (r1 & st1 & H1 & [evs ->]).
  rewrite (delete_removes _ _ _ _ Hsome Hok H1).
  rewrite !elem_of_app. left. right. right. by left.
Qed.

(** Retention, the other place that deletes, does keep to rank 0: on any
    other rank [_release_oldest_checkpoints] does nothing at all. *)
Lemma release_is_rank_gated st :
  get_rank (pg (self st)) <> 0 ->
  _release_oldest_checkpoints st = (Ok tt, st).
Proof. intros Hr. apply release_closed. by intros [? _]. Qed.

(** *** Failed writes *)

Lemma ledger_lookup w q : ledger w !! q = readable_meta (storage w !! q).
Proof.
  unfold ledger. rewrite lookup_omap. by destruct (storage w !! q).
Qed.

Lemma delete_error_not_write e : delete_error e -> ~ write_failure e.
Proof. intros (p & [->| ->]) (q & [?|?]); congruence. Qed.

Lemma save_failed_write s sd force st e st' :
  save s sd force st = (Raise e, st') ->
  write_failure e ->
  tracked st' = tracked st
  /\ (forall q, q <> path_of (self st) s ->
      storage (world st') !! q = storage (world st) !! q)
  /\ readable_meta (storage (world st') !! path_of (self st) s) = None.
Proof.
  intros H Hw.
  apply save_run in H as [(_ & [= ->] & _)|[(_ & _ & _ & [=] & _)|(_ & _ & H)]].
  { destruct Hw as (p & [?|?]); congruence. }
  inversion H as [e1 st1 H1|st1 e2 st2 H1 H2|st1 st2 e3 st3 H1 H2 H3
                 |st1 st2 st3 r4 st4 metadata H1 H2 H3 H4 Hr]; subst.
  - exfalso. eapply delete_error_not_write; [|exact Hw].
    by eapply delete_raises.
  - apply delete_run in H1 as (S1 & [_ _ _ F1] & _ & G1); specialize (G1 eq_refl).
    apply save_state_dict_run in H2 as (S2 & _ & _ & [([=] & _)|(_ & _ & D2)]).
    split; [congruence|]. split.
    + intros q Hq. rewrite <- F1 by (intros Heq; by apply Hq).
      destruct D2 as [-> | ->]; [done|]. by apply put_data_other.
    + destruct D2 as [-> | ->].
      * by rewrite G1.
      * unfold put_data. by rewrite lookup_insert_eq, G1.
  - apply delete_run in H1 as (S1 & [_ _ _ F1] & _ & G1); specialize (G1 eq_refl).
    apply save_state_dict_run in H2 as (S2 & _ & _ & [(_ & _ & D2)|([=] & _)]).
    apply pickle_dump_run in H3 as (S3 & _ & _ & [([=] & _)|(_ & D3)]).
    split; [congruence|]. split.
    + intros q Hq. rewrite <- F1 by (intros Heq; by apply Hq).
      destruct D3 as [-> | ->]; rewrite ?put_meta_other by done;
        rewrite D2; by apply put_data_other.
    + destruct D3 as [-> | ->]; rewrite D2; unfold put_meta, put_data;
        rewrite !lookup_insert_eq; by rewrite ?G1.
  - destruct r4 as [|e4]; [done|]. inversion Hr; subst e4.
    apply release_run in H4 as (n & _ & Herr & _).
    exfalso. eapply delete_error_not_write; [|exact Hw]. by apply Herr.
Qed.

(** The calls a save makes, in order: those of the deletion at its own step,
    then the snapshot write, then the metadata write, then those of
    retention. *)
Lemma save_trace s sd force st r st' :
  save s sd force st = (r, st') ->
  let p := path_of (self st) s in
  exists before mid after,
    trace (world st') = trace (world st) ++ before ++ mid ++ after
    /\ Forall deletion before /\ Forall deletion after
    /\ (mid = [] \/ mid = [SaveStateDict p]
        \/ (mid = [SaveStateDict p;
                   OpenWrite (os_path_join p _MANAGER_METADATA_FILE)]
            /\ outcome (world st)
                       (length (trace (world st)) + length before)
                       (SaveStateDict p) = Succeeds)).
Proof.
  intros H p.
  apply save_run in H as [(_ & _ & ->)|[(_ & _ & _ & _ & ->)|(_ & _ & H)]].
  1,2: exists [], [], []; rewrite app_nil_r; repeat split; auto.
  fold p in H.
  inversion H as [e1 st1 H1|st1 e2 st2 H1 H2|st1 st2 e3 st3 H1 H2 H3
                 |st1 st2 st3 r4 st4 metadata H1 H2 H3 H4 Hr]; subst.
  - apply delete_run in H1 as (_ & [_ _ (evs & E1 & D1) _] & _).
    exists evs, [], []. rewrite E1. simpl. rewrite app_nil_r. repeat split; auto.
  - apply delete_run in H1 as (_ & [_ _ (evs & E1 & D1) _] & _).
    apply save_state_dict_run in H2 as (_ & _ & T2 & _).
    exists evs, [SaveStateDict p], []. rewrite T2, E1, <- app_assoc.
    repeat split; auto.
  - apply delete_run in H1 as (_ & [_ O1 (evs & E1 & D1) _] & _).
    apply save_state_dict_run in H2 as (_ & _ & T2 & [(_ & Hok & _)|([=] & _)]).
    apply pickle_dump_run in H3 as (_ & _ & T3 & _).
    exists evs, [SaveStateDict p;
                 OpenWrite (os_path_join p _MANAGER_METADATA_FILE)], [].
    rewrite T3, T2, E1, <- !app_assoc. simpl. repeat split; auto.
    right. right. split; [done|].
    rewrite E1, length_app in Hok. unfold oracles in O1.
    replace (outcome (world st)) with (outcome (world st1)) by congruence.
    done.
  - apply delete_run in H1 as (_ & [_ O1 (evs & E1 & D1) _] & _).
    apply save_state_dict_run in H2 as (_ & _ & T2 & [(_ & Hok & _)|([=] & _)]).
    apply pickle_dump_run in H3 as (_ & _ & T3 & _).
    apply release_run in H4 as (n & [_ _ _ [_ _ (evs4 & E4 & D4) _]] & _).
    simpl in E4.
    exists evs, [SaveStateDict p;
                 OpenWrite (os_path_join p _MANAGER_METADATA_FILE)], evs4.
    rewrite E4, T3, T2, E1, <- !app_assoc. simpl. repeat split; auto.
    right. right. split; [done|].
    rewrite E1, length_app in Hok. unfold oracles in O1.
    replace (outcome (world st)) with (outcome (world st1)) by congruence.
    done.
Qed.

Lemma open_write_not_deletion q : ~ deletion (OpenWrite q).
Proof. intros (p & [?|?]); congruence. Qed.

Lemma save_metadata_after_data s sd force st r st' evs j q :
  save s sd force st = (r, st') ->
  trace (world st') = trace (world st) ++ evs ->
  evs !! j = Some (OpenWrite q) ->
  let p := path_of (self st) s in
  q = os_path_join p _MANAGER_METADATA_FILE
  /\ exists i : nat,
       (i < j)%nat /\ evs !! i = Some (SaveStateDict p)
       /\ outcome (world st) (length (trace (world st)) + i) (SaveStateDict p)
          = Succeeds.
Proof.
  intros H Hevs Hj p.
  apply save_trace in H as (before & mid & after & Ht & Hb & Ha & Hmid).
  fold p in Hmid. rewrite Ht in Hevs. apply app_inv_head in Hevs. subst evs.
  apply lookup_app_Some in Hj as [Hj|[Hlen Hj]].
  { exfalso. eapply open_write_not_deletion.
    eapply Forall_lookup_1; [exact Hb|exact Hj]. }
  apply lookup_app_Some in Hj as [Hj|[Hlen' Hj]].
  - destruct Hmid as [->|[->|[-> Hok]]].
    + done.
    + destruct (j - length before)%nat as [|[|]]; simpl in Hj; done.
    + destruct (j - length before)%nat as [|[|k]] eqn:Hk; simpl in Hj;
        try done.
      inversion Hj; subst q. split; [done|].
      exists (length before). split; [lia|]. split; [|done].
      rewrite lookup_app_r by lia. by rewrite Nat.sub_diag.
  - exfalso. eapply open_write_not_deletion.
    eapply Forall_lookup_1; [exact Ha|exact Hj].
Qed.

(** C5 fails on the code.  [save] deletes the checkpoint that exists at the
    step before it writes and leaves the tracked entry of the step where it
    is, so when the write then fails the attempt has not left things as
    they were: on storage that holds the checkpoint of step 10, tracked by
    the manager, with the snapshot store down, [save(10, state_dict)]
    raises, the ledger has lost the record of step 10 and nothing is left
    at its path, while step 10 is still tracked and [restore(10, ...)]
    fails. *)
Theorem failed_write_loses_old_checkpoint :
  let st := state_store_down in
  let st' := exec (save 10 some_state_dict false) st in
  eval (save 10 some_state_dict false) st
    = Raise (OSError (SaveStateDict "ckpt/10"))
  /\ ledger (world st) !! "ckpt/10" = Some (mk_metadata 10 0)
  /\ ledger (world st') !! "ckpt/10" = None
  /\ storage (world st') !! "ckpt/10" = None
  /\ eval all_steps st' = Ok [10]
  /\ eval (restore 10 some_state_dict) st'
     = Raise (OSError (LoadStateDict "ckpt/10"))
  /\ ~ failed_write_changes_nothing st 10 some_state_dict false.
Proof.
  intros st st'. split; [vm_compute; reflexivity|].
  split; [rewrite ledger_lookup; vm_compute; reflexivity|].
  split; [rewrite ledger_lookup; vm_compute; reflexivity|].
  do 3 (split; [vm_compute; reflexivity|]).
  intros Hclaim.
  destruct (Hclaim (OSError (SaveStateDict "ckpt/10")) st') as [_ Hledger].
  - vm_compute. reflexivity.
  - exists "ckpt/10". by left.
  - apply (f_equal (fun l => l !! "ckpt/10")) in Hledger.
    rewrite !ledger_lookup in Hledger. vm_compute in Hledger. discriminate.
Qed.

(** X19: Within [save] the metadata file is written only after the snapshot write
    has succeeded, and a save that fails in the snapshot write or in the
    metadata write appends nothing to the tracked checkpoints, leaves
    storage and ledger at every other path as they were and registers no
    metadata for the step: the ledger has no entry at the step's path that
    it did not have before. *)
Theorem failed_write_registers_nothing (st : St) (s : Z)
    (sd : STATE_DICT_TYPE) (force : bool) (r : Res bool) (st' : St) :
  save s sd force st = (r, st') ->
  let p := path_of (self st) s in
  (forall evs j q,
     trace (world st') = trace (world st) ++ evs ->
     evs !! j = Some (OpenWrite q) ->
     q = os_path_join p _MANAGER_METADATA_FILE
     /\ exists i : nat,
          (i < j)%nat /\ evs !! i = Some (SaveStateDict p)
          /\ outcome (world st) (length (trace (world st)) + i)
                     (SaveStateDict p) = Succeeds)
  /\ (forall e, r = Raise e -> write_failure e ->
      tracked st' = tracked st
      /\ (forall q, q <> p ->
          storage (world st') !! q = storage (world st) !! q
          /\ ledger (world st') !! q = ledger (world st) !! q)
      /\ (forall m, ledger (world st') !! p = Some m ->
                    ledger (world st) !! p = Some m)).
Proof.
  intros H p. split.
  - intros evs j q Hevs Hj. by eapply save_metadata_after_data.
  - intros e -> Hw.
    destruct (save_failed_write _ _ _ _ _ _ H Hw) as (Ht & Hother & Hp).
    fold p in Hother, Hp. split; [done|]. split.
    + intros q Hq. rewrite !ledger_lookup, (Hother q Hq). done.
    + intros m. rewrite ledger_lookup, Hp. done.
Qed.

Lemma failed_write_registers_nothing_witness :
  let st' := exec (save 20 some_state_dict false) state_store_down in
  tracked st' = tracked state_store_down
  /\ ledger (world st') !! "ckpt/10" = ledger (world state_store_down) !! "ckpt/10"
  /\ forall m, ledger (world st') !! "ckpt/20" = Some m ->
                ledger (world state_store_down) !! "ckpt/20" = Some m.
Proof.
  intros st'.
  destruct (failed_write_registers_nothing state_store_down 20
              some_state_dict false
              (Raise (OSError (SaveStateDict "ckpt/20"))) st')
    as [_ Hfail].
  - vm_compute. reflexivity.
  - destruct (Hfail (OSError (SaveStateDict "ckpt/20")) eq_refl)
      as (Ht & Hother & Hown).
    + exists "ckpt/20". by left.
    + split; [exact Ht|]. split; [|exact Hown].
      destruct (Hother "ckpt/10") as [_ Hledger]; [|exact Hledger].
      vm_compute. discriminate.
Defined.

(** *** Saves when retention does not run *)

Lemma save_closed_run s sd force st r st' :
  ~ gate_open (self st) ->
  save s sd force st = (r, st') ->
  frame (eq (path_of (self st) s)) (save_event (path_of (self st) s)) st st'
  /\ (tracked st' = tracked st
      \/ exists m, step m = s /\ tracked st' = tracked st ++ [m] /\ r = Ok true).
Proof.
  intros Hg H.
  apply save_run in H as [(_ & _ & ->)|[(_ & _ & _ & _ & ->)|(_ & _ & H)]].
  1,2: split; [reflexivity|by left].
  set (p := path_of (self st) s).
  assert (forall e, deletion_at p e -> save_event p e) as E1.
  { intros e [->| ->]; unfold save_event; auto. }
  assert (forall e, SaveStateDict p = e -> save_event p e) as E2.
  { intros e <-. unfold save_event. auto. }
  assert (forall e, OpenWrite (os_path_join p _MANAGER_METADATA_FILE) = e ->
                    save_event p e) as E3.
  { intros e <-. unfold save_event. auto. }
  inversion H as [e1 st1 H1|st1 e2 st2 H1 H2|st1 st2 e3 st3 H1 H2 H3
                 |st1 st2 st3 r4 st4 metadata H1 H2 H3 H4 Hr]; subst.
  - pose proof (delete_frame_at s st) as F1. unfold exec in F1.
    rewrite H1 in F1. simpl in F1.
    apply delete_run in H1 as (S1 & _). split; [|left; congruence].
    eapply frame_weaken; [| |exact F1]; done.
  - pose proof (delete_frame_at s st) as F1. unfold exec in F1.
    rewrite H1 in F1. simpl in F1.
    apply delete_run in H1 as (S1 & _).
    pose proof (keeps_at _ _ _ _ _ (save_state_dict_frame sd p) H2) as F2.
    pose proof (keeps_at _ _ _ _ _ (save_state_dict_self sd p) H2) as S2.
    split; [|left; unfold same in S2; congruence].
    transitivity st1; (eapply frame_weaken; [| |eassumption]; done).
  - pose proof (delete_frame_at s st) as F1. unfold exec in F1.
    rewrite H1 in F1. simpl in F1.
    apply delete_run in H1 as (S1 & _).
    pose proof (keeps_at _ _ _ _ _ (save_state_dict_frame sd p) H2) as F2.
    pose proof (keeps_at _ _ _ _ _ (save_state_dict_self sd p) H2) as S2.
    pose proof (keeps_at _ _ _ _ _ (pickle_dump_frame _ p) H3) as F3.
    pose proof (keeps_at _ _ _ _ _ (pickle_dump_self _ p) H3) as S3.
    split; [|left; unfold same in S2, S3; congruence].
    transitivity st1; [|transitivity st2];
      (eapply frame_weaken; [| |eassumption]; done).
  - pose proof (delete_frame_at s st) as F1. unfold exec in F1.
    rewrite H1 in F1. simpl in F1.
    apply delete_run in H1 as (S1 & _).
    pose proof (keeps_at _ _ _ _ _ (save_state_dict_frame sd p) H2) as F2.
    pose proof (keeps_at _ _ _ _ _ (save_state_dict_self sd p) H2) as S2.
    pose proof (keeps_at _ _ _ _ _ (pickle_dump_frame _ p) H3) as F3.
    pose proof (keeps_at _ _ _ _ _ (pickle_dump_self _ p) H3) as S3.
    unfold same in S2, S3.
    assert (self st3 = self st) as S03 by congruence.
    rewrite release_closed in H4.
    2: { unfold gate_open in *. simpl. by rewrite S03. }
    inversion H4; subst r4 st'. split.
    + transitivity st1; [|transitivity st2; [|transitivity st3]];
        try (eapply frame_weaken; [| |eassumption]; done).
      apply frame_self_only; [|done]. unfold config. by simpl.
    + right. exists metadata. simpl. by rewrite S03.
Qed.

(** C9 does not hold as stated: a save does delete a checkpoint, the one
    that is stored for the step it saves, before it writes the new one.
    With [max_to_keep = 0] on storage that holds the checkpoint of step 10,
    [save(10, state_dict)] calls [fs.rm] on its directory. *)
Lemma unbounded_save_deletes_own_step :
  let st := started "ckpt" 10 0 (world_with_step_10 0 (fun _ _ => Succeeds)) in
  max_to_keep (self st) = 0
  /\ eval (save 10 some_state_dict false) st = Ok true
  /\ FsRm "ckpt/10" ∈ trace (world (exec (save 10 some_state_dict false) st))
  /\ ~ no_save_deletes st.
Proof.
  intros st. do 2 (split; [vm_compute; reflexivity|]).
  split; [apply (bool_decide_unpack _); vm_compute; exact I|].
  intros Hclaim.
  destruct (Hclaim ltac:(vm_compute; reflexivity) 10 some_state_dict false
                   (Ok true) (exec (save 10 some_state_dict false) st))
    as [_ Hrm].
  - vm_compute. reflexivity.
  - apply (Hrm [FsExists "ckpt/10"; FsRm "ckpt/10"; SaveStateDict "ckpt/10";
                OpenWrite "ckpt/10/.manager_metadata"] "ckpt/10").
    + vm_compute. reflexivity.
    + apply (bool_decide_unpack _). vm_compute. exact I.
Qed.

(** C9, amended: with [max_to_keep = 0] the retention policy does nothing.
    [_release_oldest_checkpoints] leaves manager, storage and trace as they
    are.  A save, however it ends, removes no tracked entry, calls [fs.rm]
    on no path but that of the step it saves (what it removes is what it is
    about to rewrite) and leaves every other path as it was; a save that
    returns true adds exactly one tracked entry, and no path that held a
    checkpoint is left without one.  After 100 saves at interval 1, steps 0
    to 99, [all_steps()] has 100 entries. *)
Theorem unbounded_retention_is_noop :
  (forall st : St, max_to_keep (self st) = 0 ->
     _release_oldest_checkpoints st = (Ok tt, st)
     /\ forall s sd force r st', save s sd force st = (r, st') ->
          tracked st `prefix_of` tracked st'
          /\ (forall evs q,
                trace (world st') = trace (world st) ++ evs ->
                FsRm q ∈ evs -> q = path_of (self st) s)
          /\ (forall q, q <> path_of (self st) s ->
              storage (world st') !! q = storage (world st) !! q)
          /\ (r = Ok true ->
              (exists m, step m = s /\ tracked st' = tracked st ++ [m])
              /\ forall q, is_Some (storage (world st) !! q) ->
                           is_Some (storage (world st') !! q)))
  /\ (let st0 := started "ckpt" 1 0 (calm_world 0) in
      let run := save_each (every_step 100 some_state_dict) in
      eval run st0 = Ok (replicate 100 true)
      /\ eval all_steps (exec run st0) = Ok (map Z.of_nat (seq 0 100))
      /\ length (map Z.of_nat (seq 0 100)) = 100%nat).
Proof.
  split.
  - intros st Hk.
    assert (~ gate_open (self st)) as Hg by (intros [_ ?]; lia).
    split; [by apply release_closed|].
    intros s sd force r st' H.
    destruct (save_closed_run _ _ _ _ _ _ Hg H)
      as ([_ _ (evs' & Hevs & Hown) Hst] & Htr).
    split; [|split; [|split]].
    + destruct Htr as [->|(m & _ & -> & _)]; [done|]. by apply prefix_app_r.
    + intros evs q Ht Hin. rewrite Hevs in Ht. apply app_inv_head in Ht.
      subst evs'. rewrite Forall_forall in Hown.
      destruct (Hown _ Hin) as [?|[?|[?|?]]]; congruence.
    + intros q Hq. apply Hst. congruence.
    + intros ->. apply save_true_run in H as (m & n & [E _ T _ _ _ C]).
      destruct (C Hg) as [-> Hsto]. split.
      * exists m. by rewrite T, drop_0.
      * intros q Hq. rewrite Hsto. rewrite lookup_insert_is_Some.
        destruct (decide (path_of (self st) s = q)); [by left|by right].
  - vm_compute. repeat split; reflexivity.
Qed.

Lemma unbounded_retention_is_noop_witness :
  let st0 := started "ckpt" 10 0 (calm_world 0) in
  _release_oldest_checkpoints st0 = (Ok tt, st0)
  /\ tracked st0 `prefix_of` tracked (exec (save 20 some_state_dict false) st0).
Proof.
  intros st0.
  destruct (proj1 unbounded_retention_is_noop st0) as [Hrel Hsave].
  - vm_compute. reflexivity.
  - split; [exact Hrel|].
    apply (Hsave 20 some_state_dict false
                 (eval (save 20 some_state_dict false) st0)).
    unfold eval, exec. by destruct (save 20 some_state_dict false st0).
Defined.

(** *** Sequences of saves under retention *)

Lemma save_false_run s sd force st st' :
  save s sd force st = (Ok false, st') -> st' = st.
Proof.
  intros H.
  apply save_run in H as [(_ & [=] & _)|[(_ & _ & _ & _ & ->)|(_ & _ & H)]];
    [done|].
  inversion H as [| | |st1 st2 st3 r4 st4 metadata H1 H2 H3 H4 Hr].
  by destruct r4.
Qed.

Lemma gate_open_config st st' :
  config st' = config st -> gate_open (self st) -> gate_open (self st').
Proof.
  intros Hc. unfold gate_open.
  by rewrite (config_pg _ _ Hc), (config_max_to_keep _ _ Hc).
Qed.

Lemma oracles_clock st st' :
  oracles st' = oracles st -> clock (world st') = clock (world st).
Proof. unfold oracles. congruence. Qed.

Lemma save_each_run calls : forall st rs st',
  gate_open (self st) ->
  save_each calls st = (Ok rs, st') ->
  exists news n,
    tracked st' = drop n (tracked st ++ news)
    /\ (n <= length (tracked st ++ news))%nat
    /\ steps_of news = taken calls rs
    /\ config st' = config st
    /\ oracles st' = oracles st
    /\ (length (trace (world st)) <= length (trace (world st')))%nat
    /\ (true ∈ rs \/ Z.of_nat (length (tracked st)) <= max_to_keep (self st) ->
        Z.of_nat (length (tracked st')) <= max_to_keep (self st))
    /\ (n <> 0%nat ->
        Z.of_nat (length (tracked st')) >= max_to_keep (self st))
    /\ (clock_monotone (world st) ->
        StronglySorted (key_le ts) news
        /\ Forall (fun x =>
             clock (world st) (length (trace (world st))) <= ts x
             <= clock (world st) (length (trace (world st')))) news).
Proof.
  induction calls as [|[[s sd] force] calls IH]; intros st rs st' Hg H;
    simpl in H.
  - inversion H; subst. exists [], 0%nat. rewrite app_nil_r, drop_0.
    repeat split; try done.
    + lia.
    + intros [Hin|Hle]; [by apply elem_of_nil in Hin|done].
    + constructor.
  - apply bind_run in H as [(b & st1 & H1 & H)|(e & _ & [=])].
    apply bind_run in H as [(rs' & st2 & H2 & H)|(e & _ & [=])].
    inversion H; subst rs st2; clear H.
    destruct b.
    + apply save_true_run in H1 as (m & n1 & [E1 (i & Hi & Hts) T1 L1 F1 O1 _]).
      destruct (O1 Hg) as [Hlen1 Hn1].
      destruct F1 as [C1 Or1 Tr1 _].
      assert (length (trace (world st)) <= length (trace (world st1)))%nat
        as Hgrow1.
      { destruct Tr1 as (evs & -> & _). rewrite length_app. lia. }
      pose proof (gate_open_config _ _ C1 Hg) as Hg1.
      destruct (IH _ _ _ Hg1 H2)
        as (news & n2 & T2 & L2 & S2 & C2 & Or2 & Tr2 & Hle & Hge & Hclk).
      pose proof (config_max_to_keep _ _ C1) as Hk. rewrite Hk in *.
      exists (m :: news), (n1 + n2)%nat.
      assert (length (tracked st1) = length (tracked st) + 1 - n1)%nat as Hl1.
      { rewrite T1, length_drop, length_app. simpl. lia. }
      split; [|split; [|split; [|split; [|split; [|split; [|split; [|split]]]]]]].
      * rewrite T2, T1. rewrite <- (drop_app_le _ news).
        2: { rewrite length_app. simpl. lia. }
        rewrite drop_drop, <- app_assoc. done.
      * rewrite length_app in *. simpl. lia.
      * simpl. by rewrite E1, S2.
      * congruence.
      * congruence.
      * lia.
      * intros _. apply Hle. right. done.
      * intros Hn. destruct (decide (n2 = 0%nat)) as [->|Hn2].
        -- assert (n1 <> 0%nat) as Hn1' by lia.
           rewrite T2, drop_0, length_app, Hl1.
           unfold excess in Hn1. lia.
        -- by apply Hge.
      * intros Hmono.
        rewrite (oracles_clock _ _ Or1) in Hclk.
        destruct Hclk as [Hsorted Hbounds].
        { unfold clock_monotone. by rewrite (oracles_clock _ _ Or1). }
        assert (clock (world st) (length (trace (world st))) <= ts m
                <= clock (world st) (length (trace (world st1)))) as Hm.
        { rewrite Hts. split; apply Hmono; lia. }
        split.
        -- constructor; [done|]. eapply Forall_impl; [exact Hbounds|].
           unfold key_le. intros x Hx. simpl in Hx. lia.
        -- constructor.
           ++ split; [lia|]. etransitivity; [apply Hm|]. by apply Hmono.
           ++ eapply Forall_impl; [exact Hbounds|]. intros x Hx. simpl in Hx.
              split; [|lia]. etransitivity; [|apply Hx]. by apply Hmono.
    + apply save_false_run in H1. subst st1.
      destruct (IH _ _ _ Hg H2)
        as (news & n & T2 & L2 & S2 & C2 & Or2 & Tr2 & Hle & Hge & Hclk).
      exists news, n. repeat split; try done.
      * intros [Hin|Hlen]; apply Hle; [|by right].
        left. apply elem_of_cons in Hin as [?|?]; done.
      * by apply Hclk.
      * by apply Hclk.
Qed.

(** C2 does not hold for every process: [_release_oldest_checkpoints] runs
    on rank 0 only, so the process of rank 1 never takes an entry off its
    deque.  With [save_interval=10] and [max_to_keep=2], after saves for
    steps 0 to 29 its [all_steps()] is [[0, 10, 20]]. *)
Lemma nonzero_rank_keeps_every_step :
  let st0 := started "ckpt" 10 2 (calm_world 1) in
  let calls := every_step 30 some_state_dict in
  eval all_steps (exec (save_each calls) st0) = Ok [0; 10; 20]
  /\ ~ retention_bound st0 calls.
Proof.
  intros st0 calls. split; [vm_compute; reflexivity|].
  intros Hclaim.
  specialize (Hclaim ltac:(vm_compute; reflexivity)
                (concat (replicate 3 (true :: replicate 9 false)))
                (exec (save_each calls) st0) [0; 10; 20]
                ltac:(vm_compute; reflexivity) ltac:(vm_compute; reflexivity)).
  vm_compute in Hclaim. by apply Hclaim.
Qed.

(** C2, amended: on the process of rank 0 with [max_to_keep > 0], after any
    sequence of saves none of which raised and one of which returned true,
    the tracked checkpoints are the last [max_to_keep] (or all, if there are
    fewer) of the entries tracked at the start followed by one new entry per
    save that returned true, so [all_steps()] has at most [max_to_keep]
    steps; and when the clock does not run backwards and the deque was, at
    the start, in timestamp order with no timestamp later than the clock
    then read, every evicted entry has a timestamp no later than any
    retained one.  In particular with [save_interval=10] and
    [max_to_keep=2] on empty storage, saves for steps 0 to 29 leave
    [all_steps() == [10, 20]]. *)
Theorem retention_on_rank_zero :
  (forall (st : St) (calls : list (Z * STATE_DICT_TYPE * bool))
          (rs : list bool) (st' : St),
     gate_open (self st) ->
     save_each calls st = (Ok rs, st') ->
     true ∈ rs ->
     exists news,
       let all := tracked st ++ news in
       let n := excess (length all) (max_to_keep (self st)) in
       steps_of news = taken calls rs
       /\ tracked st' = drop n all
       /\ Z.of_nat (length (tracked st')) <= max_to_keep (self st)
       /\ (exists steps, eval all_steps st' = Ok steps
                         /\ Z.of_nat (length steps) <= max_to_keep (self st))
       /\ (clock_monotone (world st) -> in_order st ->
           StronglySorted (key_le ts) all
           /\ forall x y, x ∈ take n all -> y ∈ tracked st' -> ts x <= ts y))
  /\ (let st0 := started "ckpt" 10 2 (calm_world 0) in
      eval all_steps (exec (save_each (every_step 30 some_state_dict)) st0)
      = Ok [10; 20]).
Proof.
  split; [|vm_compute; reflexivity].
  intros st calls rs st' Hg H Htrue.
  destruct (save_each_run _ _ _ _ Hg H)
    as (news & n & T & L & S & C & Or & Tr & Hle & Hge & Hclk).
  specialize (Hle ltac:(by left)).
  exists news. simpl.
  assert (n = excess (length (tracked st ++ news)) (max_to_keep (self st)))
    as Hn.
  { unfold excess. rewrite T, length_drop in Hle, Hge.
    destruct n as [|n']; [lia|]. specialize (Hge ltac:(done)). lia. }
  rewrite <- Hn. split; [done|]. split; [done|]. split; [done|]. split.
  - eexists. unfold eval. rewrite all_steps_run. split; [done|].
    unfold steps_of. by rewrite sorted_length, length_map.
  - intros Hmono [Hsorted Hpast].
    destruct (Hclk Hmono) as [Hnews Hbounds].
    assert (StronglySorted (key_le ts) (tracked st ++ news)) as Hall.
    { apply StronglySorted_app_2; [|done|done].
      intros x y Hx Hy. unfold key_le.
      rewrite Forall_forall in Hpast, Hbounds.
      specialize (Hpast x Hx). specialize (Hbounds y Hy). simpl in *. lia. }
    split; [done|]. intros x y Hx Hy. rewrite T in Hy.
    rewrite <- (take_drop n (tracked st ++ news)) in Hall.
    by apply (StronglySorted_app_1_elem_of _ _ _ _ _ Hall).
Qed.

Lemma retention_on_rank_zero_witness :
  let st' := exec (save_each (every_step 30 some_state_dict)) sample_state in
  Z.of_nat (length (tracked st')) <= 2
  /\ exists news,
       steps_of news = [0; 10; 20]
       /\ StronglySorted (key_le ts) (tracked sample_state ++ news).
Proof.
  intros st'.
  destruct (proj1 retention_on_rank_zero sample_state
              (every_step 30 some_state_dict)
              (concat (replicate 3 (true :: replicate 9 false))) st')
    as (news & Hsteps & _ & Hlen & _ & Hts).
  - vm_compute. split; reflexivity.
  - vm_compute. reflexivity.
  - vm_compute. by left.
  - split; [exact Hlen|]. exists news. split; [exact Hsteps|].
    apply Hts.
    + intros i j Hij. change (Z.of_nat i <= Z.of_nat j). lia.
    + split; vm_compute; constructor.
Defined.

(** *** Loading the tracked checkpoints *)

Lemma pickle_load_run path st :
  pickle_load path st =
    (match read_at (world st) (length (trace (world st))) path with
     | Some obj => Ok obj
     | None => Raise (OSError (open_read path))
     end,
     on_world (with_trace (trace (world st) ++ [open_read path])) st).
Proof.
  unfold pickle_load, read_at, open_read. rewrite bind_run_perform.
  destruct (outcome _ _ _); try done.
  rewrite bind_gets. simpl. by destruct (unpickled _).
Qed.

Lemma reads_from_with_trace t w k paths :
  reads_from (with_trace t w) k paths = reads_from w k paths.
Proof.
  revert k. induction paths as [|p ps IH]; intros k; simpl; [done|].
  by rewrite IH.
Qed.

Lemma load_each_run paths : forall st all_chkpts invalid_paths,
  let w := world st in
  let reads := reads_from w (length (trace w)) paths in
  load_each paths all_chkpts invalid_paths st =
    (Ok (all_chkpts ++ unpickled_of reads, invalid_paths ++ unreadable reads),
     on_world (with_trace (trace w ++ map open_read paths)) st).
Proof.
  induction paths as [|p ps IH]; intros st acc inv; simpl.
  - unfold ret, unpickled_of, unreadable. simpl. rewrite !app_nil_r.
    by destruct st as [c []].
  - unfold bind at 1, try_ at 1. rewrite pickle_load_run.
    set (st1 := on_world _ st).
    assert (reads_from (world st1) (length (trace (world st1))) ps
            = reads_from (world st) (S (length (trace (world st)))) ps) as Hr.
    { unfold st1. simpl. rewrite reads_from_with_trace, length_app. simpl.
      by rewrite Nat.add_1_r. }
    destruct (read_at _ _ p) as [m|] eqn:Hread; rewrite IH, Hr;
      unfold unpickled_of, unreadable; simpl; rewrite ?filter_cons; simpl;
      rewrite ?Hread; simpl.
    + rewrite <- !app_assoc. done.
    + rewrite <- !app_assoc. done.
Qed.

(** The sort gets its keys when every object read is a record, and then
    the records are the objects. *)
Lemma with_ts_readable reads :
  with_ts (unpickled_of reads)
  = match foreign reads with
    | [] => Some (readable reads)
    | _ :: _ => None
    end.
Proof.
  unfold unpickled_of, readable, foreign, omap.
  induction reads as [|[p [[m|]|]] reads IH]; simpl; [done|..];
    rewrite ?filter_cons; simpl.
  - rewrite IH. by destruct (filter _ reads).*1.
  - done.
  - exact IH.
Qed.

(** The listing is made at the base path itself. *)
Lemma url_to_fs_base st :
  let fs := (url_to_fs (base_path (self st))).1 in
  let raw_path := (url_to_fs (base_path (self st))).2 in
  unstrip fs raw_path = base_path (self st)
  /\ children fs (unstrip fs raw_path) (storage (world st)) = listing st.
Proof.
  intros fs raw_path. pose proof (unstrip_url_to_fs (base_path (self st))) as H.
  fold fs raw_path in H. split; [done|]. unfold listing. fold fs.
  by rewrite H.
Qed.

Lemma load_tracked_run st :
  outcome (world st) (length (trace (world st))) (FsLs (base_path (self st)))
    = Succeeds ->
  let reads := startup_reads st in
  let bad := unreadable reads in
  _load_tracked_chkpts st =
    (match foreign reads with
     | [] => Ok (sorted ts (readable reads))
     | _ :: _ => Raise AttributeError
     end,
     on_world (with_trace
       (trace (world st) ++ FsLs (base_path (self st))
          :: map open_read (listing st)
          ++ match bad with [] => [] | _ :: _ => [LogWarning bad] end)) st).
Proof.
  intros Hls reads bad. unfold _load_tracked_chkpts. rewrite bind_gets.
  destruct (url_to_fs_base st) as [Hp Hc].
  destruct (url_to_fs (base_path (self st))) as [fs raw_path].
  simpl in Hp, Hc. unfold fs_ls. rewrite Hp in *.
  unfold bind at 1. rewrite bind_run_perform, Hls.
  unfold gets at 1. cbn [world on_world storage with_trace]. rewrite Hc.
  unfold bind at 1. rewrite load_each_run. simpl.
  rewrite reads_from_with_trace, length_app. simpl. rewrite Nat.add_1_r.
  fold (startup_reads st). fold reads. fold bad.
  rewrite with_ts_readable.
  destruct bad as [|b bs]; destruct (foreign reads);
    unfold bind, ret, raise, logging_warning, modify; simpl;
    unfold on_world, with_trace; simpl;
    by rewrite ?app_nil_r, <- ?app_assoc.
Qed.

Lemma load_tracked_inaccessible st :
  outcome (world st) (length (trace (world st))) (FsLs (base_path (self st)))
    <> Succeeds ->
  eval _load_tracked_chkpts st = Raise (OSError (FsLs (base_path (self st)))).
Proof.
  intros Hls. unfold eval, _load_tracked_chkpts. rewrite bind_gets.
  destruct (url_to_fs_base st) as [Hp _].
  destruct (url_to_fs (base_path (self st))) as [fs raw_path].
  simpl in Hp. unfold fs_ls. rewrite Hp.
  unfold bind at 1. rewrite bind_run_perform.
  by destruct (outcome _ _ _).
Qed.

Lemma load_tracked_inaccessible_run st :
  outcome (world st) (length (trace (world st))) (FsLs (base_path (self st)))
    <> Succeeds ->
  _load_tracked_chkpts st
  = (Raise (OSError (FsLs (base_path (self st)))),
     on_world (with_trace (trace (world st) ++ [FsLs (base_path (self st))]))
              st).
Proof.
  intros Hls. unfold _load_tracked_chkpts. rewrite bind_gets.
  destruct (url_to_fs_base st) as [Hp _].
  destruct (url_to_fs (base_path (self st))) as [fs raw_path].
  simpl in Hp. unfold fs_ls. rewrite Hp.
  unfold bind at 1. rewrite bind_run_perform.
  by destruct (outcome _ _ _).
Qed.

Lemma reads_from_paths w k paths : (reads_from w k paths).*1 = paths.
Proof.
  revert k. induction paths as [|p ps IH]; intros k; simpl; [done|].
  by rewrite IH.
Qed.

Lemma elem_of_readable m reads :
  m ∈ readable reads <-> exists path, (path, Some (Metadata m)) ∈ reads.
Proof.
  unfold readable. rewrite list_elem_of_omap. split.
  - intros ([p [[m'|]|]] & Hin & Ho); simpl in Ho; try done.
    injection Ho as ->. by exists p.
  - intros (p & Hin). by exists (p, Some (Metadata m)).
Qed.

Lemma elem_of_unreadable path reads :
  path ∈ unreadable reads <-> (path, None) ∈ reads.
Proof.
  unfold unreadable. rewrite list_elem_of_fmap. split.
  - intros ([p o] & -> & Hin). apply list_elem_of_filter in Hin as [Ho Hin].
    simpl in *. by subst o.
  - intros Hin. exists (path, None). split; [done|].
    by apply list_elem_of_filter.
Qed.

(** X18: Loading the tracked checkpoints at startup, once the base path could
    be listed and as long as no metadata file read holds the pickle of
    something that is not a record, never raises.  Every listed path is
    tried once; those whose metadata file cannot be read or deserialized
    are left out and are named, all of them, in one warning (none is logged
    when every read succeeds); the records that were read are returned
    sorted by timestamp, oldest first, equal timestamps in listing order.
    Manager and storage are left as they were. *)
Theorem load_skips_unreadable (st : St) :
  outcome (world st) (length (trace (world st))) (FsLs (base_path (self st)))
    = Succeeds ->
  let reads := startup_reads st in
  foreign reads = [] ->
  exists loaded st',
    _load_tracked_chkpts st = (Ok loaded, st')
    /\ reads.*1 = listing st
    /\ loaded ≡ₚ readable reads
    /\ (forall m, m ∈ loaded
                  <-> exists path, (path, Some (Metadata m)) ∈ reads)
    /\ (forall path, path ∈ unreadable reads <-> (path, None) ∈ reads)
    /\ StronglySorted (key_le ts) loaded
    /\ (forall k, filter (fun m => ts m = k) loaded
                  = filter (fun m => ts m = k) (readable reads))
    /\ trace (world st')
       = trace (world st) ++ FsLs (base_path (self st))
           :: map open_read (listing st)
           ++ match unreadable reads with
              | [] => []
              | _ :: _ => [LogWarning (unreadable reads)]
              end
    /\ self st' = self st
    /\ storage (world st') = storage (world st).
Proof.
  intros Hls reads Hforeign. eexists _, _. split.
  { rewrite (load_tracked_run st Hls). fold reads. by rewrite Hforeign. }
  split; [exact (reads_from_paths _ _ _)|].
  split; [symmetry; apply sorted_perm|].
  split; [intros m; by rewrite sorted_elem_of, elem_of_readable|].
  split; [exact (fun path => elem_of_unreadable path _)|].
  split; [apply sorted_sorted|].
  split; [intros k; apply sorted_stable|].
  done.
Qed.

Lemma load_skips_unreadable_witness :
  exists loaded,
    eval _load_tracked_chkpts state_at_startup = Ok loaded
    /\ StronglySorted (key_le ts) loaded
    /\ unreadable (startup_reads state_at_startup) = ["ckpt/30"; "ckpt/tmp"].
Proof.
  destruct (load_skips_unreadable state_at_startup)
    as (loaded & st' & Hrun & _ & _ & _ & _ & Hsorted & _).
  - vm_compute. reflexivity.
  - vm_compute. reflexivity.
  - exists loaded. split; [unfold eval; by rewrite Hrun|].
    split; [exact Hsorted|]. vm_compute. reflexivity.
Defined.

(** C8: the claim fails on the code.  The objects [pickle.load] returns are
    collected inside the [try], but [sorted] takes [m.ts] of each of them
    outside it: one listed directory whose metadata file is the pickle of
    something that is not a record is not skipped, it makes the load, and
    with it the constructor, raise [AttributeError], after the warning
    about the unreadable ones.  On storage with the checkpoint of step 10
    and such a directory beside it the constructor raises. *)
Theorem foreign_metadata_fails_startup :
  (forall st : St,
     outcome (world st) (length (trace (world st)))
             (FsLs (base_path (self st))) = Succeeds ->
     foreign (startup_reads st) <> [] ->
     eval _load_tracked_chkpts st = Raise AttributeError)
  /\ (__init__ "ckpt" 10 0 1 None foreign_world).1 = Raise AttributeError
  /\ trace (__init__ "ckpt" 10 0 1 None foreign_world).2
     = [FsLs "ckpt"; OpenRead "ckpt/10/.manager_metadata";
        OpenRead "ckpt/20/.manager_metadata"].
Proof.
  split.
  - intros st Hls Hforeign. unfold eval. rewrite (load_tracked_run st Hls).
    simpl. by destruct (foreign _).
  - vm_compute. by split.
Qed.

Lemma unreadable_all reads :
  Forall (fun pr : string * option Unpickled => pr.2 = None) reads ->
  unreadable reads = reads.*1 /\ readable reads = [] /\ foreign reads = [].
Proof.
  unfold unreadable, readable, foreign, omap.
  induction 1 as [|[p o] reads Ho _ (IH1 & IH2 & IH3)]; [done|].
  simpl in Ho. subst o. rewrite !filter_cons. simpl.
  split; [f_equal; exact IH1|]. by split.
Qed.

Lemma reads_from_none w paths :
  (forall p, p ∈ paths -> storage w !! p = None) ->
  forall k, Forall (fun pr : string * option Unpickled => pr.2 = None)
                   (reads_from w k paths).
Proof.
  induction paths as [|p ps IH]; intros Hnone k; simpl; [done|].
  constructor.
  - simpl. unfold read_at. rewrite (Hnone p) by left.
    by destruct (outcome _ _ _).
  - apply IH. intros q Hq. apply Hnone. by right.
Qed.

(** X20: The listing is made on the filesystem of the base path, the reads
    are made on the local one.  When nothing is stored locally under the
    names listed, as for a base path on another filesystem, the load
    returns no checkpoint at all, whatever the base path holds: every
    listed entry is tried and reported invalid. *)
Theorem remote_checkpoints_are_not_found (st : St) :
  outcome (world st) (length (trace (world st))) (FsLs (base_path (self st)))
    = Succeeds ->
  (forall p, p ∈ listing st -> storage (world st) !! p = None) ->
  exists st',
    _load_tracked_chkpts st = (Ok [], st')
    /\ trace (world st')
       = trace (world st) ++ FsLs (base_path (self st))
           :: map open_read (listing st)
           ++ match listing st with
              | [] => []
              | _ :: _ => [LogWarning (listing st)]
              end.
Proof.
  intros Hls Hnone.
  pose proof (reads_from_none (world st) (listing st) Hnone
                (S (length (trace (world st))))) as Hall.
  fold (startup_reads st) in Hall.
  destruct (unreadable_all _ Hall) as (Hbad & Hgood & Hforeign).
  unfold startup_reads in Hbad at 2. rewrite reads_from_paths in Hbad.
  eexists. rewrite (load_tracked_run st Hls), Hforeign, Hgood, Hbad.
  split; reflexivity.
Qed.

Lemma remote_checkpoints_are_not_found_witness :
  let st := manager_under_construction "memory://ckpt" 10 0 1 remote_world in
  listing st = ["ckpt/10"]
  /\ is_Some (storage (world st) !! "memory://ckpt/10")
  /\ exists st',
       _load_tracked_chkpts st = (Ok [], st')
       /\ trace (world st')
          = trace (world st) ++ FsLs (base_path (self st))
              :: map open_read (listing st)
              ++ match listing st with
                 | [] => []
                 | _ :: _ => [LogWarning (listing st)]
                 end.
Proof.
  intros st. split; [vm_compute; reflexivity|].
  split; [vm_compute; by eexists|].
  apply (remote_checkpoints_are_not_found st).
  - vm_compute. reflexivity.
  - intros p Hp.
    assert (listing st = ["ckpt/10"]) as Hl by (vm_compute; reflexivity).
    rewrite Hl in Hp. apply list_elem_of_singleton in Hp as ->.
    vm_compute. reflexivity.
Defined.

Example load_cluttered :
  listing state_at_startup = ["ckpt/30"; "ckpt/10"; "ckpt/20"; "ckpt/tmp"]
  /\ eval _load_tracked_chkpts state_at_startup
     = Ok [mk_metadata 20 5; mk_metadata 10 9]
  /\ trace (world (exec _load_tracked_chkpts state_at_startup))
     = [FsLs "ckpt"; OpenRead "ckpt/30/.manager_metadata";
        OpenRead "ckpt/10/.manager_metadata";
        OpenRead "ckpt/20/.manager_metadata";
        OpenRead "ckpt/tmp/.manager_metadata";
        LogWarning ["ckpt/30"; "ckpt/tmp"]].
Proof. vm_compute. repeat split; reflexivity. Qed.

(** ** Paths of steps *)

Lemma has_slash_app s1 s2 :
  has_slash (s1 +:+ s2) = has_slash s1 || has_slash s2.
Proof.
  induction s1 as [|c s1 IH]; simpl; [done|]. by rewrite IH, orb_assoc.
Qed.

Lemma pretty_N_char_no_slash x : pretty_N_char x <> "/"%char.
Proof. unfold pretty_N_char. by repeat case_match. Qed.

Lemma pretty_N_go_no_slash x : forall s,
  has_slash s = false -> has_slash (pretty_N_go x s) = false.
Proof.
  induction (N.lt_wf_0 x) as [x _ IH]; intros s Hs.
  assert (x = 0 \/ 0 < x)%N as [->|Hx] by lia.
  - by rewrite pretty_N_go_0.
  - rewrite pretty_N_go_step by done. apply IH; [by apply N.div_lt|].
    simpl. rewrite Hs, orb_false_r. apply bool_decide_eq_false.
    apply pretty_N_char_no_slash.
Qed.

Lemma pretty_N_go_nonempty x s : s <> "" -> pretty_N_go x s <> "".
Proof.
  revert s. induction (N.lt_wf_0 x) as [x _ IH]; intros s Hs.
  assert (x = 0 \/ 0 < x)%N as [->|Hx] by lia.
  - by rewrite pretty_N_go_0.
  - rewrite pretty_N_go_step by done. apply IH; [by apply N.div_lt|done].
Qed.

Lemma pretty_N_no_slash (x : N) : has_slash (pretty x) = false.
Proof.
  unfold pretty, pretty_N. case_decide; [done|]. by apply pretty_N_go_no_slash.
Qed.

Lemma pretty_N_nonempty (x : N) : pretty x <> "".
Proof.
  unfold pretty, pretty_N. case_decide as Hx; [done|].
  rewrite pretty_N_go_step by lia. by apply pretty_N_go_nonempty.
Qed.

(** [str(step)] has no separator in it and is not empty. *)
Lemma pretty_Z_no_slash (s : Z) : has_slash (pretty s) = false.
Proof.
  unfold pretty, pretty_Z. destruct s as [|p|p]; [done|..].
  - apply pretty_N_no_slash.
  - rewrite has_slash_app. simpl. apply pretty_N_no_slash.
Qed.

Lemma pretty_Z_nonempty (s : Z) : pretty s <> "".
Proof.
  unfold pretty, pretty_Z. destruct s as [|p|p]; [done|..].
  - apply pretty_N_nonempty.
  - done.
Qed.

Lemma append_nil_r (s : string) : s +:+ "" = s.
Proof.
  induction s as [|c s IH]; [done|].
  change (String c (s +:+ "") = String c s). by f_equal.
Qed.

Lemma append_assoc (s1 s2 s3 : string) :
  (s1 +:+ s2) +:+ s3 = s1 +:+ (s2 +:+ s3).
Proof.
  induction s1 as [|c s1 IH]; [done|].
  change (String c ((s1 +:+ s2) +:+ s3) = String c (s1 +:+ (s2 +:+ s3))).
  by f_equal.
Qed.

Lemma os_path_join_not_absolute a b :
  has_slash b = false ->
  os_path_join a b
  = if bool_decide (a = "") || ends_with_slash a then a +:+ b
    else a +:+ "/" +:+ b.
Proof.
  intros Hb. unfold os_path_join. destruct b as [|c b]; [done|].
  simpl in Hb. apply orb_false_iff in Hb as [Hc _].
  apply bool_decide_eq_false in Hc.
  destruct c as [[] [] [] [] [] [] [] []]; done.
Qed.

(** A relative name is put behind the directory prefix [os.path.join(a, '')]. *)
Lemma os_path_join_relative a b :
  has_slash b = false ->
  os_path_join a b = os_path_join a "" +:+ b.
Proof.
  intros Hb. rewrite os_path_join_not_absolute by done.
  rewrite (os_path_join_not_absolute a "") by done.
  destruct (_ || _).
  - by rewrite append_nil_r.
  - by rewrite append_assoc.
Qed.

Lemma os_path_join_inj a b1 b2 :
  has_slash b1 = false -> has_slash b2 = false ->
  os_path_join a b1 = os_path_join a b2 -> b1 = b2.
Proof.
  intros H1 H2.
  rewrite (os_path_join_relative a b1), (os_path_join_relative a b2) by done.
  apply (inj (String.app _)).
Qed.

(** Different steps have different paths. *)
Lemma path_of_inj c s1 s2 : path_of c s1 = path_of c s2 -> s1 = s2.
Proof.
  unfold path_of. intros H.
  apply os_path_join_inj in H; auto using pretty_Z_no_slash.
  by apply (inj pretty) in H.
Qed.

Lemma strip_prefix_app a b : strip_prefix a (a +:+ b) = Some b.
Proof.
  induction a as [|c a IH]; simpl; [by destruct b|].
  by rewrite bool_decide_eq_true_2.
Qed.

(** The path of a step is an entry of the base path. *)
Lemma path_of_is_child c s : is_child (base_path c) (path_of c s) = true.
Proof.
  unfold is_child, path_of.
  rewrite (os_path_join_relative _ (pretty s)) by apply pretty_Z_no_slash.
  rewrite strip_prefix_app, pretty_Z_no_slash.
  rewrite bool_decide_eq_false_2 by apply pretty_Z_nonempty. done.
Qed.

(** ** Further properties of the methods *)

(** *** Round trips *)

Lemma save_true_storage s sd force st st' :
  save s sd force st = (Ok true, st') ->
  (gate_open (self st) -> forall x, x ∈ tracked st -> step x <> s) ->
  exists m,
    step m = s
    /\ m ∈ tracked st'
    /\ config st' = config st
    /\ oracles st' = oracles st
    /\ storage (world st') !! path_of (self st) s
       = Some (mk_dir (Some sd) (Some (Pickled m))).
Proof.
  intros H Hnew.
  apply save_run in H as [(_ & [=] & _)|[(_ & _ & _ & [=] & _)|(Hi & Hdue & H)]].
  inversion H as [| | |st1 st2 st3 r4 st4 metadata H1 H2 H3 H4 Hr]; subst st4.
  destruct r4 as [[]|]; [clear Hr|done].
  set (p := path_of (self st) s) in *.
  apply delete_run in H1 as (S1 & [_ O1 _ _] & _ & G1); specialize (G1 eq_refl).
  apply save_state_dict_run in H2 as (S2 & O2 & T2 & [(_ & _ & D2)|([=] & _)]).
  apply pickle_dump_run in H3 as (S3 & O3 & T3 & [(_ & D3)|([=] & _)]).
  set (st3' := on_self _ st3) in H4.
  assert (self st3 = self st) as S03 by congruence.
  assert (tracked st3' = tracked st ++ [metadata]) as Ht3.
  { unfold st3'. simpl. by rewrite S03. }
  assert (config st3' = config st) as C3.
  { unfold st3', config. simpl. by rewrite S03. }
  assert (storage (world st3') !! p
          = Some (mk_dir (Some sd) (Some (Pickled metadata)))) as Hp.
  { change (storage (world st3')) with (storage (world st3)).
    rewrite D3, D2. unfold put_meta, put_data.
    rewrite !lookup_insert_eq. fold p in G1. by rewrite G1. }
  apply release_run in H4 as (n & Hrel & _ & Hclosed & Hopen).
  pose proof (config_max_to_keep _ _ C3) as Hk.
  destruct Hrel as [R1 R2 R3 [R5 R6 _ R4]]. rewrite Ht3 in R1, R2, R3, R4.
  rewrite length_app in R2, R3. simpl length in R2, R3.
  assert (n <= length (tracked st))%nat as Hn.
  { destruct (decide (gate_open (self st3'))) as [Hg|Hg].
    - destruct n as [|n']; [lia|]. specialize (R3 ltac:(done)).
      destruct Hg as [_ Hpos]. lia.
    - destruct (Hclosed Hg) as [-> _]. lia. }
  exists metadata. split; [done|]. split; [|split; [|split]].
  - rewrite R1, drop_app_le by done. apply elem_of_app. right. by left.
  - congruence.
  - unfold oracles in *. change (world st3') with (world st3) in R6.
    congruence.
  - rewrite R4; [done|]. intros (x & Hx & Heq).
    rewrite take_app_le in Hx by done.
    rewrite (config_path_of _ _ C3) in Heq. apply path_of_inj in Heq.
    destruct (decide (gate_open (self st3'))) as [Hg|Hg].
    + apply (Hnew (gate_open_config _ _ (eq_sym C3) Hg) x); [|done].
      by apply (subseteq_take n) in Hx.
    + destruct (Hclosed Hg) as [-> _]. simpl in Hx. by apply elem_of_nil in Hx.
Qed.

Lemma lookup_key_elem_of saved : forall key v,
  NoDup saved.*1 -> (key, v) ∈ saved -> lookup_key key saved = Some v.
Proof.
  induction saved as [|[k w] saved IH]; intros key v Hnd Hin.
  - by apply elem_of_nil in Hin.
  - simpl in *. apply NoDup_cons in Hnd as [Hk Hnd].
    apply elem_of_cons in Hin as [[= -> ->]|Hin].
    + by rewrite bool_decide_eq_true_2.
    + rewrite bool_decide_eq_false_2; [by apply IH|].
      intros ->. apply Hk. apply list_elem_of_fmap. by exists (key, v).
Qed.

Lemma load_into_held saved : forall state_dict held,
  (forall key v, (key, v) ∈ held -> lookup_key key saved = Some v) ->
  state_dict.*1 = held.*1 ->
  load_into state_dict saved = Ok held.
Proof.
  induction state_dict as [|[k w] state_dict IH];
    intros [|[k' v] held] Hheld Hkeys; try done.
  simpl in *. injection Hkeys as -> Hkeys.
  rewrite (Hheld k' v) by left.
  rewrite (IH held); [done| |done].
  intros key v' Hin. apply Hheld. by right.
Qed.

(** A state dict with the keys of the saved one, each once, is loaded to
    the saved one. *)
Lemma load_into_same_keys state_dict saved :
  state_dict.*1 = saved.*1 -> NoDup saved.*1 ->
  load_into state_dict saved = Ok saved.
Proof.
  intros Hkeys Hnd. apply load_into_held; [|done].
  intros key v. by apply lookup_key_elem_of.
Qed.

Lemma restore_tracked_run s target st saved :
  s ∈ steps_of (tracked st) ->
  outcome (world st) (length (trace (world st)))
          (LoadStateDict (path_of (self st) s)) = Succeeds ->
  storage (world st) !! path_of (self st) s ≫= d_data = Some saved ->
  eval (restore s target) st = load_into target saved.
Proof.
  intros Hin Hok Hp.
  unfold eval, restore, tracked_steps. rewrite bind_gets.
  rewrite bool_decide_eq_true_2 by by apply elem_of_list_to_set.
  unfold assert. unfold bind at 1, ret at 1. unfold _get_path.
  rewrite bind_gets. fold (path_of (self st) s).
  unfold load_state_dict. rewrite bind_run_perform, Hok, bind_gets.
  cbn [storage world on_world with_trace]. rewrite Hp.
  by destruct (load_into target saved).
Qed.

(** X1: A checkpoint that [save] has taken can be restored: provided the
    read succeeds and, where retention runs, the step was not tracked
    before (an older entry of the same step could be evicted, which deletes
    the path just written), [restore] loads into its state dict what was
    saved, key by key, and a state dict that has the keys of the saved one
    comes back equal to it. *)
Theorem save_then_restore (st : St) (s : Z) (sd target : STATE_DICT_TYPE)
    (force : bool) (st' : St) :
  save s sd force st = (Ok true, st') ->
  (gate_open (self st) -> forall x, x ∈ tracked st -> step x <> s) ->
  outcome (world st') (length (trace (world st')))
          (LoadStateDict (path_of (self st') s)) = Succeeds ->
  eval (restore s target) st' = load_into target sd
  /\ (target.*1 = sd.*1 -> NoDup sd.*1 ->
      eval (restore s target) st' = Ok sd).
Proof.
  intros H Hnew Hok.
  destruct (save_true_storage _ _ _ _ _ H Hnew) as (m & Hm & Hin & C & _ & Hp).
  rewrite <- (config_path_of _ _ C) in Hp.
  assert (eval (restore s target) st' = load_into target sd) as Hrun.
  { apply restore_tracked_run; [|done|by rewrite Hp].
    unfold steps_of. apply list_elem_of_fmap. by exists m. }
  split; [done|]. intros Hkeys Hnd.
  by rewrite Hrun, load_into_same_keys.
Qed.

Lemma save_then_restore_witness :
  let st' := exec (save 20 some_state_dict false) sample_state in
  (eval (restore 20 [("model.weight", 0)]) st'
   = load_into [("model.weight", 0)] some_state_dict
   /\ ([("model.weight", 0)].*1 = some_state_dict.*1 ->
       NoDup some_state_dict.*1 ->
       eval (restore 20 [("model.weight", 0)]) st' = Ok some_state_dict))
  /\ eval (restore 20 [("model.weight", 0)]) st' = Ok [("model.weight", 7)]
  /\ eval (restore 20 []) st' = Ok [].
Proof.
  intros st'. split; [|by vm_compute].
  apply (save_then_restore sample_state 20 some_state_dict
           [("model.weight", 0)] false).
  - vm_compute. reflexivity.
  - intros _ x Hx. vm_compute in Hx. by apply elem_of_nil in Hx.
  - vm_compute. reflexivity.
Defined.

(** *** The constructor *)

Lemma init_rejects path si k qs g w :
  ~ valid_arguments si k qs w ->
  exists msg, __init__ path si k qs g w = (Raise (AssertionError (Text msg)), w).
Proof.
  unfold valid_arguments, __init__. intros Hbad.
  unfold bind at 1, assert at 1. case_bool_decide as H1; [|by eexists].
  unfold ret at 1. unfold bind at 1, assert at 1.
  case_bool_decide as H2; [|by eexists].
  unfold ret at 1. unfold bind at 1, assert at 1.
  case_bool_decide as H3; [|by eexists].
  unfold ret at 1. unfold bind at 1, assert at 1.
  case_bool_decide as H4; [|by eexists].
  tauto.
Qed.

Lemma init_run path si k qs g w :
  valid_arguments si k qs w ->
  let st0 := manager_under_construction path si k qs w in
  outcome w (length (trace w)) (FsLs path) = Succeeds ->
  exists w',
    __init__ path si k qs g w
    = (match foreign (startup_reads st0) with
       | [] =>
           Ok (mk_manager path si k (sorted ts (readable (startup_reads st0)))
                          [] qs true
                          (default (default (mk_pg 0) (default_pg w)) g))
       | _ :: _ => Raise AttributeError
       end, w')
    /\ storage w' = storage w
    /\ clock w' = clock w /\ outcome w' = outcome w
    /\ default_pg w' = default_pg w.
Proof.
  intros (H1 & H2 & H3 & H4) st0 Hls. unfold __init__.
  fold (manager_under_construction path si k qs w). fold st0.
  rewrite !bool_decide_eq_true_2 by done.
  unfold assert. unfold bind at 1, ret at 1. unfold bind at 1, ret at 1.
  unfold bind at 1, ret at 1. unfold bind at 1, ret at 1.
  unfold bind at 1. rewrite (load_tracked_run st0 Hls).
  destruct (foreign (startup_reads st0)).
  - unfold bind, modify. cbn [self world on_self on_world with_tracked with_pg
      base_path save_interval max_to_keep _tracked_chkpts _async_queue
      _async_queue_maxsize _alive pg st0 manager_under_construction].
    eexists. split; [by destruct g|]. by repeat split.
  - eexists. split; [reflexivity|]. by repeat split.
Qed.

(** X2: Invalid arguments are rejected by an assertion before storage is
    touched: the world, trace included, is as it was. *)
Theorem constructor_validates_first (path : string)
    (save_interval max_to_keep async_queue_size : Z)
    (process_group : option ProcessGroup) (w : World) :
  ~ valid_arguments save_interval max_to_keep async_queue_size w ->
  exists msg,
    __init__ path save_interval max_to_keep async_queue_size process_group w
    = (Raise (AssertionError (Text msg)), w).
Proof.
  unfold valid_arguments, __init__. intros Hbad.
  unfold bind at 1, assert at 1.
  case_bool_decide as Hgroup; [|by eexists].
  unfold ret at 1. unfold bind at 1, assert at 1.
  case_bool_decide as Hinterval; [|by eexists].
  unfold ret at 1. unfold bind at 1, assert at 1.
  case_bool_decide as Hsize; [|by eexists].
  unfold ret at 1. unfold bind at 1, assert at 1.
  case_bool_decide as Hkeep; [|by eexists].
  tauto.
Qed.

Lemma constructor_validates_first_witness :
  exists msg,
    __init__ "ckpt" 10 2 0 None (calm_world 0)
    = (Raise (AssertionError (Text msg)), calm_world 0).
Proof.
  apply (constructor_validates_first "ckpt" 10 2 0 None (calm_world 0)).
  intros (_ & _ & Hq & _). lia.
Defined.

Lemma reads_from_healthy w k paths :
  (forall n e, outcome w n e = Succeeds) ->
  reads_from w k paths
  = map (fun p => (p, unpickled (storage w !! p))) paths.
Proof.
  intros Hok. revert k. induction paths as [|p ps IH]; intros k; simpl; [done|].
  rewrite IH. unfold read_at. by rewrite Hok.
Qed.

(** A listing of the local filesystem names the entries as storage does. *)
Lemma elem_of_listing st p :
  is_local (url_to_fs (base_path (self st))).1 = true ->
  p ∈ listing st
  <-> is_child (base_path (self st)) p = true
      /\ is_Some (storage (world st) !! p).
Proof.
  intros Hlocal. unfold listing, children.
  rewrite (map_ext _ (fun url => url))
    by (intros url; unfold listed_name; by rewrite Hlocal).
  rewrite map_id, list_elem_of_filter, list_elem_of_fmap. split.
  - intros (Hc & [q d] & -> & Hin). apply elem_of_map_to_list in Hin.
    split; [done|]. by exists d.
  - intros (Hc & d & Hd). split; [done|]. exists (p, d). split; [done|].
    by apply elem_of_map_to_list.
Qed.

(** X3: A checkpoint that [save] has taken is tracked again by a manager
    that is constructed afterwards on the same base path, when that path is
    on the local filesystem, storage answers and no metadata file in the
    base path holds the pickle of something that is not a record: the
    tracked list is rebuilt from the metadata files. *)
Theorem checkpoint_survives_restart (st : St) (s : Z) (sd : STATE_DICT_TYPE)
    (force : bool) (st' : St)
    (save_interval max_to_keep async_queue_size : Z)
    (process_group : option ProcessGroup) :
  save s sd force st = (Ok true, st') ->
  (gate_open (self st) -> forall x, x ∈ tracked st -> step x <> s) ->
  is_local (url_to_fs (base_path (self st))).1 = true ->
  (forall p d, is_child (base_path (self st)) p = true ->
               storage (world st') !! p = Some d ->
               d_meta d <> Some Foreign) ->
  (forall n e, outcome (world st') n e = Succeeds) ->
  valid_arguments save_interval max_to_keep async_queue_size (world st') ->
  exists mgr w',
    __init__ (base_path (self st)) save_interval max_to_keep async_queue_size
             process_group (world st') = (Ok mgr, w')
    /\ s ∈ steps_of (_tracked_chkpts mgr)
    /\ exists steps, eval all_steps (mk_st mgr w') = Ok steps /\ s ∈ steps.
Proof.
  intros H Hnew Hlocal Hrecords Hok Hvalid.
  destruct (save_true_storage _ _ _ _ _ H Hnew) as (m & Hm & _ & _ & _ & Hp).
  destruct (init_run (base_path (self st)) save_interval max_to_keep
              async_queue_size process_group (world st') Hvalid (Hok _ _))
    as (w' & Hrun & _).
  set (st0 := manager_under_construction _ _ _ _ _) in Hrun.
  assert (forall p, p ∈ listing st0
                    <-> is_child (base_path (self st)) p = true
                        /\ is_Some (storage (world st') !! p)) as Hlisting.
  { intros p. by apply (elem_of_listing st0). }
  assert (startup_reads st0
          = map (fun p => (p, unpickled (storage (world st') !! p)))
                (listing st0)) as Hreads.
  { unfold startup_reads. by rewrite reads_from_healthy. }
  assert (foreign (startup_reads st0) = []) as Hforeign.
  { unfold foreign. rewrite Hreads.
    assert (forall l : list (string * option Unpickled),
              Forall (fun pr => pr.2 <> Some OtherObject) l ->
              (filter (fun pr => pr.2 = Some OtherObject) l).*1 = []) as Hnil.
    { induction 1 as [|pr l Hpr _ IH]; [done|].
      rewrite filter_cons. by rewrite decide_False by done. }
    apply Hnil, Forall_forall.
    intros [p o] Hin. simpl.
    apply list_elem_of_fmap in Hin as (q & [= -> ->] & Hq).
    apply Hlisting in Hq as [Hc [d Hd]]. specialize (Hrecords q d Hc Hd).
    rewrite Hd. unfold unpickled. simpl.
    by destruct (d_meta d) as [[]|]. }
  rewrite Hforeign in Hrun.
  assert (m ∈ readable (startup_reads st0)) as Hin.
  { apply elem_of_readable. exists (path_of (self st) s). rewrite Hreads.
    apply list_elem_of_fmap. exists (path_of (self st) s). split.
    - unfold unpickled. by rewrite Hp.
    - apply Hlisting. split; [exact (path_of_is_child (self st) s)|].
      by rewrite Hp. }
  assert (s ∈ steps_of (sorted ts (readable (startup_reads st0)))) as Hs.
  { unfold steps_of. apply list_elem_of_fmap. exists m. split; [done|].
    by apply sorted_elem_of. }
  eexists _, w'. split; [exact Hrun|]. split; [exact Hs|].
  eexists. split; [reflexivity|]. by apply sorted_elem_of.
Qed.

Lemma checkpoint_survives_restart_witness :
  exists mgr w',
    __init__ "ckpt" 5 0 1 None
             (world (exec (save 20 some_state_dict false) sample_state))
    = (Ok mgr, w')
    /\ 20 ∈ steps_of (_tracked_chkpts mgr)
    /\ exists steps, eval all_steps (mk_st mgr w') = Ok steps /\ 20 ∈ steps.
Proof.
  apply (checkpoint_survives_restart sample_state 20 some_state_dict false
           (exec (save 20 some_state_dict false) sample_state) 5 0 1 None).
  - vm_compute. reflexivity.
  - intros _ x Hx. vm_compute in Hx. by apply elem_of_nil in Hx.
  - vm_compute. reflexivity.
  - intros p d _.
    apply (bool_decide_unpack
             (map_Forall (fun _ d => d_meta d <> Some Foreign) _)).
    vm_compute. exact I.
  - intros n e. reflexivity.
  - vm_compute. repeat split; try done. by eexists.
Defined.

(** *** Where a save writes and deletes *)

Lemma save_storage_frame s sd force st r st' q :
  save s sd force st = (r, st') ->
  q <> path_of (self st) s ->
  (forall m, m ∈ tracked st -> q <> path_of (self st) (step m)) ->
  storage (world st') !! q = storage (world st) !! q.
Proof.
  intros H Hq Hold.
  apply save_run in H as [(_ & _ & ->)|[(_ & _ & _ & _ & ->)|(_ & _ & H)]];
    [done..|].
  set (p := path_of (self st) s) in *.
  assert (forall st1 r1, _delete_chkpt_at_step s st = (r1, st1) ->
            storage (world st1) !! q = storage (world st) !! q) as D.
  { intros st1 r1 H1. apply delete_run in H1 as (_ & [_ _ _ F1] & _).
    apply F1. by intros <-. }
  assert (forall st1 st2 r2, save_state_dict sd p st1 = (r2, st2) ->
            storage (world st2) !! q = storage (world st1) !! q) as W.
  { intros st1 st2 r2 H2.
    apply save_state_dict_run in H2
      as (_ & _ & _ & [(_ & _ & ->)|(_ & _ & [-> | ->])]);
      by rewrite ?put_data_other. }
  assert (forall m st2 st3 r3, pickle_dump m p st2 = (r3, st3) ->
            storage (world st3) !! q = storage (world st2) !! q) as P.
  { intros m st2 st3 r3 H3.
    apply pickle_dump_run in H3 as (_ & _ & _ & [(_ & ->)|(_ & [-> | ->])]);
      by rewrite ?put_meta_other. }
  inversion H as [e1 st1 H1|st1 e2 st2 H1 H2|st1 st2 e3 st3 H1 H2 H3
                 |st1 st2 st3 r4 st4 metadata H1 H2 H3 H4 Hr]; subst.
  - by eapply D.
  - rewrite (W _ _ _ H2). by eapply D.
  - rewrite (P _ _ _ _ H3), (W _ _ _ H2). by eapply D.
  - pose proof (delete_run _ _ _ _ H1) as (S1 & _).
    pose proof (save_state_dict_run _ _ _ _ _ H2) as (S2 & _).
    pose proof (pickle_dump_run _ _ _ _ _ H3) as (S3 & _).
    set (st3' := on_self _ st3) in H4.
    assert (self st3 = self st) as S03 by congruence.
    assert (tracked st3' = tracked st ++ [metadata]) as Ht3.
    { unfold st3'. simpl. by rewrite S03. }
    assert (base_path (self st3') = base_path (self st)) as Hb.
    { unfold st3'. simpl. by rewrite S03. }
    apply release_run in H4 as (n & [_ _ _ [_ _ _ R]] & _).
    rewrite R.
    + change (storage (world st3')) with (storage (world st3)).
      rewrite (P _ _ _ _ H3), (W _ _ _ H2). by eapply D.
    + intros (m & Hm & Hqm). apply subseteq_take in Hm.
      rewrite Ht3 in Hm. unfold path_of in Hqm. rewrite Hb in Hqm.
      apply elem_of_app in Hm as [Hm|Hm].
      * by apply (Hold m Hm).
      * apply list_elem_of_singleton in Hm as ->. by apply Hq.
Qed.

(** X4: A save touches nothing in storage but the directory of its own step
    and the directories of the steps that were tracked when it began, on
    every rank and however it ends. *)
Theorem save_touches_known_paths_only (st : St) (s : Z)
    (sd : STATE_DICT_TYPE) (force : bool) (q : string) :
  q <> path_of (self st) s ->
  (forall m, m ∈ tracked st -> q <> path_of (self st) (step m)) ->
  storage (world (exec (save s sd force) st)) !! q = storage (world st) !! q.
Proof.
  intros Hq Hold. unfold exec.
  destruct (save s sd force st) as [r st'] eqn:H. simpl.
  by eapply save_storage_frame.
Qed.

Lemma save_touches_known_paths_only_witness :
  let st := started "ckpt" 10 1 (world_with_step_10 0 (fun _ _ => Succeeds)) in
  storage (world (exec (save 20 some_state_dict false) st)) !! "ckpt/30"
  = storage (world st) !! "ckpt/30".
Proof.
  intros st.
  apply (save_touches_known_paths_only st 20 some_state_dict false "ckpt/30").
  - vm_compute. discriminate.
  - intros m Hm. vm_compute in Hm.
    apply list_elem_of_singleton in Hm as ->. vm_compute. discriminate.
Defined.

(** *** What the constructor leaves alone *)

Lemma init_inaccessible path si k qs g w :
  valid_arguments si k qs w ->
  outcome w (length (trace w)) (FsLs path) <> Succeeds ->
  __init__ path si k qs g w
  = (Raise (OSError (FsLs path)), with_trace (trace w ++ [FsLs path]) w).
Proof.
  intros (H1 & H2 & H3 & H4) Hls. unfold __init__.
  rewrite !bool_decide_eq_true_2 by done.
  unfold assert. unfold bind at 1, ret at 1. unfold bind at 1, ret at 1.
  unfold bind at 1, ret at 1. unfold bind at 1, ret at 1.
  unfold bind at 1. by rewrite load_tracked_inaccessible_run.
Qed.

(** X5: The constructor only reads: however it ends, storage is as it was, and
    when it returns the manager tracks every checkpoint whose metadata
    could be read, however many [max_to_keep] allows.  Retention waits for
    the next save. *)
Theorem constructor_only_reads (path : string) (interval keep size : Z)
    (process_group : option ProcessGroup) (w : World)
    (r : Res CheckpointManager) (w' : World) :
  __init__ path interval keep size process_group w = (r, w') ->
  storage w' = storage w
  /\ forall mgr, r = Ok mgr ->
       _tracked_chkpts mgr
         ≡ₚ readable (startup_reads
                        (manager_under_construction path interval keep size w))
       /\ max_to_keep mgr = keep
       /\ _async_queue mgr = [] /\ _alive mgr = true.
Proof.
  intros H.
  destruct (decide (valid_arguments interval keep size w)) as [Hv|Hv].
  - destruct (outcome w (length (trace w)) (FsLs path)) eqn:Hls.
    + destruct (init_run path interval keep size process_group w Hv Hls)
        as (w1 & Hrun & Hst & _).
      rewrite Hrun in H. inversion H; subst r w1. split; [done|].
      intros mgr Hmgr. destruct (foreign _); [|done].
      injection Hmgr as <-. simpl. split; [|done].
      symmetry. apply sorted_perm.
    + rewrite (init_inaccessible _ _ _ _ process_group _ Hv) in H
        by congruence.
      inversion H; subst. by split.
    + rewrite (init_inaccessible _ _ _ _ process_group _ Hv) in H
        by congruence.
      inversion H; subst. by split.
  - destruct (init_rejects path interval keep size process_group w Hv)
      as (msg & Hrun).
    rewrite Hrun in H. inversion H; subst. by split.
Qed.

Lemma constructor_only_reads_witness :
  let r := __init__ "ckpt" 10 1 1 None cluttered_world in
  storage r.2 = storage cluttered_world
  /\ forall mgr, r.1 = Ok mgr ->
       _tracked_chkpts mgr
         ≡ₚ readable (startup_reads
                        (manager_under_construction "ckpt" 10 1 1
                                                    cluttered_world))
       /\ max_to_keep mgr = 1
       /\ _async_queue mgr = [] /\ _alive mgr = true.
Proof.
  intros r.
  apply (constructor_only_reads "ckpt" 10 1 1 None cluttered_world).
  unfold r. by destruct (__init__ _ _ _ _ _ _).
Defined.

(** *** The directories of the steps *)

(** X6: Every step has a directory of its own directly inside the base path:
    [_get_path] never raises, gives different steps different paths, and
    each of them is an entry the listing of the base path can show. *)
Theorem get_path_separates_steps (st : St) (s1 s2 : Z) :
  (eval (_get_path s1) st = eval (_get_path s2) st <-> s1 = s2)
  /\ exists p, _get_path s1 st = (Ok p, st)
               /\ is_child (base_path (self st)) p = true.
Proof.
  split.
  - unfold eval, _get_path, gets. simpl. split; [|by intros ->].
    intros [= H]. by eapply (path_of_inj (self st)).
  - eexists. split; [reflexivity|]. apply (path_of_is_child (self st)).
Qed.

(** *** The steps a manager reports *)

(** X7: [all_steps] lists the steps of the tracked checkpoints in ascending
    order, each as often as it is tracked, and changes nothing. *)
Theorem all_steps_ascending (st : St) :
  exists steps,
    all_steps st = (Ok steps, st)
    /\ StronglySorted Z.le steps
    /\ steps ≡ₚ steps_of (tracked st).
Proof.
  eexists. split; [apply all_steps_run|]. split.
  - apply (sorted_sorted id).
  - symmetry. apply sorted_perm.
Qed.

(** *** What every save keeps *)

Lemma frame_prefix P E st st' :
  frame P E st st' -> trace (world st) `prefix_of` trace (world st').
Proof. intros [_ _ (evs & -> & _) _]. by apply prefix_app_r. Qed.

Lemma save_effect_none s st st' :
  self st' = self st -> oracles st' = oracles st ->
  trace (world st) `prefix_of` trace (world st') ->
  save_effect s [] 0 st st'.
Proof.
  intros Hs Ho Ht. split; try done.
  - by rewrite Hs, app_nil_r, drop_0.
  - lia.
  - by apply same_self_config.
  - by left.
Qed.

Lemma save_any_run s sd force st r st' :
  save s sd force st = (r, st') -> exists new n, save_effect s new n st st'.
Proof.
  intros H.
  apply save_run in H as [(_ & _ & ->)|[(_ & _ & _ & _ & ->)|(_ & _ & H)]].
  1,2: exists [], 0%nat; by apply save_effect_none.
  set (p := path_of (self st) s) in *.
  inversion H as [e1 st1 H1|st1 e2 st2 H1 H2|st1 st2 e3 st3 H1 H2 H3
                 |st1 st2 st3 r4 st4 metadata H1 H2 H3 H4 Hr]; subst.
  - apply delete_run in H1 as (S1 & F1 & _).
    exists [], 0%nat. apply save_effect_none; [done|by destruct F1|].
    by eapply frame_prefix.
  - apply delete_run in H1 as (S1 & F1 & _).
    apply save_state_dict_run in H2 as (S2 & O2 & T2 & _).
    exists [], 0%nat. apply save_effect_none; [congruence| |].
    + destruct F1 as [_ O1 _ _]. congruence.
    + etransitivity; [by eapply frame_prefix|]. rewrite T2.
      by apply prefix_app_r.
  - apply delete_run in H1 as (S1 & F1 & _).
    apply save_state_dict_run in H2 as (S2 & O2 & T2 & _).
    apply pickle_dump_run in H3 as (S3 & O3 & T3 & _).
    exists [], 0%nat. apply save_effect_none; [congruence| |].
    + destruct F1 as [_ O1 _ _]. congruence.
    + etransitivity; [by eapply frame_prefix|]. rewrite T3, T2, <- app_assoc.
      by apply prefix_app_r.
  - pose proof (delete_run _ _ _ _ H1) as (S1 & F1 & _).
    apply save_state_dict_run in H2 as (S2 & O2 & T2 & _).
    apply pickle_dump_run in H3 as (S3 & O3 & T3 & _).
    set (st3' := on_self _ st3) in H4.
    assert (self st3 = self st) as S03 by congruence.
    assert (tracked st3' = tracked st ++ [metadata]) as Ht3.
    { unfold st3'. simpl. by rewrite S03. }
    assert (config st3' = config st) as C3.
    { unfold st3', config. simpl. by rewrite S03. }
    apply release_run in H4 as (n & Hrel & _ & Hclosed & _).
    pose proof (config_max_to_keep _ _ C3) as Hk.
    destruct Hrel as [R1 R2 R3 [R5 R6 R7 _]]. rewrite Ht3 in R1, R2, R3.
    rewrite length_app in R2, R3. simpl length in R2, R3.
    assert (n <= length (tracked st))%nat as Hn.
    { destruct (decide (gate_open (self st3'))) as [Hg|Hg].
      - destruct n as [|n']; [lia|]. specialize (R3 ltac:(done)).
        destruct Hg as [_ Hpos]. lia.
      - destruct (Hclosed Hg) as [-> _]. lia. }
    pose proof (frame_trace_length _ _ _ _ F1) as L1.
    destruct R7 as (evs4 & T4 & _).
    change (trace (world st3')) with (trace (world st3)) in T4.
    destruct F1 as [_ O1 Tr1 _].
    exists [metadata], n. split; try done.
    + congruence.
    + unfold oracles in *. change (world st3') with (world st3) in R6.
      congruence.
    + destruct Tr1 as (evs1 & T1 & _). rewrite T4, T3, T2, T1, <- !app_assoc.
      by apply prefix_app_r.
    + right. exists metadata, (length (trace (world st2))).
      split; [done|]. split; [done|]. split.
      * rewrite T4, T3, !length_app. rewrite T2, length_app. simpl. lia.
      * unfold metadata. simpl. unfold oracles in *. congruence.
Qed.

(** X8: However a save ends, it leaves the configuration of the manager alone:
    base path, interval, retention bound, process group and the async
    queue. *)
Theorem save_keeps_configuration (st : St) (s : Z) (sd : STATE_DICT_TYPE)
    (force : bool) :
  let st' := exec (save s sd force) st in
  base_path (self st') = base_path (self st)
  /\ save_interval (self st') = save_interval (self st)
  /\ max_to_keep (self st') = max_to_keep (self st)
  /\ pg (self st') = pg (self st)
  /\ _async_queue (self st') = _async_queue (self st)
  /\ _alive (self st') = _alive (self st).
Proof.
  intros st'. destruct (save s sd force st) as [r st1] eqn:H.
  assert (st' = st1) as -> by (unfold st', exec; by rewrite H).
  apply save_any_run in H as (new & n & [_ _ C _ _ _]).
  unfold config in C. by injection C as -> -> -> -> _ -> ->.
Qed.

Lemma StronglySorted_drop {A} (R : relation A) n (l : list A) :
  StronglySorted R l -> StronglySorted R (drop n l).
Proof.
  intros H. rewrite <- (take_drop n l) in H.
  by apply StronglySorted_app_1_r in H.
Qed.

(** X9: The deque stays in timestamp order: if the clock does not run backwards
    and the tracked checkpoints are in timestamp order with nothing from the
    future, the same holds after a save, however it ends. *)
Theorem save_keeps_timestamp_order (st : St) (s : Z) (sd : STATE_DICT_TYPE)
    (force : bool) (r : Res bool) (st' : St) :
  clock_monotone (world st) ->
  in_order st ->
  save s sd force st = (r, st') ->
  in_order st' /\ clock_monotone (world st').
Proof.
  intros Hmono [Hsorted Hpast] H.
  apply save_any_run in H as (new & n & [T L C O Tr N]).
  pose proof (oracles_clock _ _ O) as Hclk.
  assert (length (trace (world st)) <= length (trace (world st')))%nat as Hlen.
  { destruct Tr as [evs ->]. rewrite length_app. lia. }
  split; [|unfold clock_monotone; by rewrite Hclk].
  unfold in_order. rewrite T, Hclk.
  assert (StronglySorted (key_le ts) (tracked st ++ new)
          /\ Forall (fun m => ts m <= clock (world st)
                                        (length (trace (world st'))))
                    (tracked st ++ new)) as [Hs Hp].
  { assert (Forall (fun m => ts m <= clock (world st)
                                      (length (trace (world st'))))
                   (tracked st)) as Hold.
    { eapply Forall_impl; [exact Hpast|]. intros x Hx. simpl in Hx.
      etransitivity; [exact Hx|]. by apply Hmono. }
    destruct N as [->|(m & i & -> & _ & Hi & Hts)].
    - by rewrite app_nil_r.
    - split.
      + apply StronglySorted_app_2; [|done|repeat constructor].
        intros x y Hx Hy. apply list_elem_of_singleton in Hy as ->.
        unfold key_le. rewrite Hts. rewrite Forall_forall in Hpast.
        etransitivity; [by apply Hpast|]. apply Hmono. lia.
      + apply Forall_app. split; [done|]. constructor; [|done].
        rewrite Hts. apply Hmono. lia. }
  split; [by apply StronglySorted_drop|].
  rewrite <- (take_drop n (tracked st ++ new)) in Hp.
  by apply Forall_app in Hp as [_ ?].
Qed.

Lemma save_keeps_timestamp_order_witness :
  in_order (exec (save 20 some_state_dict false) sample_state).
Proof.
  apply (save_keeps_timestamp_order sample_state 20 some_state_dict false
           (eval (save 20 some_state_dict false) sample_state)).
  - intros i j Hij. change (Z.of_nat i <= Z.of_nat j). lia.
  - split; vm_compute; constructor.
  - unfold eval, exec. by destruct (save 20 some_state_dict false sample_state).
Defined.

(** *** The commit point of a save *)

Lemma pickle_dump_raises m p st e st' :
  pickle_dump m p st = (Raise e, st') ->
  outcome (world st) (length (trace (world st)))
          (OpenWrite (os_path_join p _MANAGER_METADATA_FILE)) <> Succeeds.
Proof.
  unfold pickle_dump. rewrite bind_run_perform.
  destruct (outcome _ _ _); [|done..]. unfold modify. by intros [=].
Qed.

Lemma last_drop_snoc {A} (l : list A) (x : A) n :
  (n <= length l)%nat -> last (drop n (l ++ [x])) = Some x.
Proof. intros Hn. rewrite drop_app_le by done. apply last_snoc. Qed.

(** X10: Once the metadata write of a save has succeeded the checkpoint is
    tracked, also when the save then raises, which it can only do in the
    deletions of retention. *)
Theorem save_commits_at_metadata_write (st : St) (s : Z)
    (sd : STATE_DICT_TYPE) (force : bool) (r : Res bool) (st' : St)
    (evs : list Event) (j : nat) :
  let file := os_path_join (path_of (self st) s) _MANAGER_METADATA_FILE in
  save s sd force st = (r, st') ->
  trace (world st') = trace (world st) ++ evs ->
  evs !! j = Some (OpenWrite file) ->
  outcome (world st) (length (trace (world st)) + j) (OpenWrite file)
    = Succeeds ->
  (exists m, step m = s /\ last (tracked st') = Some m)
  /\ (r = Ok true \/ exists e, r = Raise e /\ delete_error e).
Proof.
  intros file H Hevs Hj Hok.
  apply save_run in H as [(_ & _ & ->)|[(_ & _ & _ & _ & ->)|(_ & _ & H)]].
  1,2: rewrite <- (app_nil_r (trace (world st))) in Hevs at 1;
       apply app_inv_head in Hevs; by subst evs.
  set (p := path_of (self st) s) in *.
  inversion H as [e1 st1 H1|st1 e2 st2 H1 H2|st1 st2 e3 st3 H1 H2 H3
                 |st1 st2 st3 r4 st4 metadata H1 H2 H3 H4 Hr]; subst.
  - apply delete_run in H1 as (_ & [_ _ (evs1 & T1 & D1) _] & _).
    rewrite T1 in Hevs. apply app_inv_head in Hevs. subst evs1.
    exfalso. eapply open_write_not_deletion.
    eapply Forall_lookup_1; [exact D1|exact Hj].
  - apply delete_run in H1 as (_ & [_ _ (evs1 & T1 & D1) _] & _).
    apply save_state_dict_run in H2 as (_ & _ & T2 & _).
    rewrite T2, T1, <- app_assoc in Hevs. apply app_inv_head in Hevs.
    subst evs. apply lookup_app_Some in Hj as [Hj|[_ Hj]].
    + exfalso. eapply open_write_not_deletion.
      eapply Forall_lookup_1; [exact D1|exact Hj].
    + destruct (j - length evs1)%nat as [|[|]]; simpl in Hj; done.
  - apply delete_run in H1 as (_ & [_ O1 (evs1 & T1 & D1) _] & _).
    pose proof (pickle_dump_raises _ _ _ _ _ H3) as Hfail.
    apply save_state_dict_run in H2 as (_ & O2 & T2 & _).
    apply pickle_dump_run in H3 as (_ & _ & T3 & _).
    rewrite T3, T2, T1, <- !app_assoc in Hevs. apply app_inv_head in Hevs.
    subst evs. apply lookup_app_Some in Hj as [Hj|[Hlen Hj]].
    + exfalso. eapply open_write_not_deletion.
      eapply Forall_lookup_1; [exact D1|exact Hj].
    + destruct (j - length evs1)%nat as [|[|]] eqn:Hjj; simpl in Hj;
        try done.
      exfalso. apply Hfail. rewrite T2, T1, !length_app. simpl.
      unfold oracles in *.
      replace (outcome (world st2)) with (outcome (world st)) by congruence.
      replace (length (trace (world st)) + length evs1 + 1)%nat
        with (length (trace (world st)) + j)%nat by lia.
      exact Hok.
  - clear Hj Hok Hevs.
    pose proof (delete_run _ _ _ _ H1) as (S1 & _).
    apply save_state_dict_run in H2 as (S2 & _).
    apply pickle_dump_run in H3 as (S3 & _).
    set (st3' := on_self _ st3) in H4.
    assert (self st3 = self st) as S03 by congruence.
    assert (tracked st3' = tracked st ++ [metadata]) as Ht3.
    { unfold st3'. simpl. by rewrite S03. }
    apply release_run in H4 as (n & Hrel & Herr & Hclosed & _).
    destruct Hrel as [R1 R2 R3 _]. rewrite Ht3 in R1, R2, R3.
    rewrite length_app in R2, R3. simpl length in R2, R3.
    assert (n <= length (tracked st))%nat as Hn.
    { destruct (decide (gate_open (self st3'))) as [Hg|Hg].
      - destruct n as [|n']; [lia|]. specialize (R3 ltac:(done)).
        destruct Hg as [_ Hpos]. lia.
      - destruct (Hclosed Hg) as [-> _]. lia. }
    split.
    + exists metadata. split; [done|]. rewrite R1. by apply last_drop_snoc.
    + destruct r4 as [[]|e]; [by left|]. right. exists e. split; [done|].
      by apply Herr.
Qed.

(** Rank 0 with [max_to_keep=1] on storage that holds step 10: the save of
    step 20 is written and tracked, then retention fails to remove step 10
    and the save raises. *)
Lemma save_commits_at_metadata_write_witness :
  let st := started "ckpt" 10 1 (world_with_step_10 0 cannot_remove) in
  let st' := exec (save 20 some_state_dict false) st in
  eval (save 20 some_state_dict false) st = Raise (OSError (FsRm "ckpt/10"))
  /\ exists m, step m = 20 /\ last (tracked st') = Some m.
Proof.
  intros st st'. split; [vm_compute; reflexivity|].
  apply (save_commits_at_metadata_write st 20 some_state_dict false
           (eval (save 20 some_state_dict false) st) st'
           [FsExists "ckpt/20"; SaveStateDict "ckpt/20";
            OpenWrite "ckpt/20/.manager_metadata";
            FsExists "ckpt/10"; FsRm "ckpt/10"] 2).
  - unfold eval, st', exec. by destruct (save 20 some_state_dict false st).
  - vm_compute. reflexivity.
  - vm_compute. reflexivity.
  - vm_compute. reflexivity.
Defined.

(** *** Retention that fails *)

Lemma delete_rm_failed s st st' p :
  _delete_chkpt_at_step s st = (Raise (OSError (FsRm p)), st') ->
  p = path_of (self st) s
  /\ self st' = self st
  /\ is_Some (storage (world st') !! p).
Proof.
  rewrite delete_unfold. simpl.
  set (q := path_of (self st) s). intros H.
  apply bind_run in H as [(found & st1 & H1 & H2)|(e' & H1 & [= He])].
  - unfold exists_at in H1. rewrite bind_run_perform in H1.
    destruct (outcome _ _ _); try by inversion H1.
    unfold gets in H1. inversion H1; subst found st1; clear H1.
    simpl in H2. case_bool_decide as Hfound; [|by inversion H2].
    unfold rm_at in H2. rewrite bind_run_perform in H2.
    destruct (outcome _ _ _); inversion H2; subst; by repeat split.
  - unfold exists_at in H1. rewrite bind_run_perform in H1.
    destruct (outcome _ _ _); inversion H1; congruence.
Qed.

Lemma release_while_raises turns : forall st e st',
  release_while turns st = (Raise e, st') ->
  delete_error e ->
  exists n x,
    tracked st !! n = Some x
    /\ tracked st' = drop (S n) (tracked st)
    /\ base_path (self st') = base_path (self st)
    /\ forall p, e = OSError (FsRm p) ->
         p = path_of (self st) (step x)
         /\ is_Some (storage (world st') !! p).
Proof.
  induction turns as [|turns IH]; intros st e st' H He; simpl in H; [done|].
  rewrite bind_gets in H. case_bool_decide as Hmore; [|done].
  unfold bind at 1 in H. unfold popleft in H.
  destruct (tracked st) as [|oldest rest] eqn:Ht.
  { inversion H; subst. destruct He as (p & [?|?]); congruence. }
  set (st1 := on_self (with_tracked rest) st) in H.
  apply bind_run in H as [([] & st2 & Hd & Hr)|(e' & Hd & [= <-])].
  - apply delete_run in Hd as (Hself & _).
    destruct (IH _ _ _ Hr He) as (n & x & Hx & Hdrop & Hbase & Hrm).
    rewrite Hself in Hx, Hdrop, Hbase, Hrm. simpl in Hx, Hdrop, Hbase.
    exists (S n), x. split; [done|]. split; [done|]. split; [done|].
    intros p Hp. destruct (Hrm p Hp) as [-> Hsome]. split; [|done].
    unfold path_of. done.
  - exists 0%nat, oldest. split; [done|].
    pose proof (delete_run _ _ _ _ Hd) as (Hself & _).
    split; [by rewrite Hself|]. split; [by rewrite Hself|].
    intros p ->. apply delete_rm_failed in Hd as (Hp & _ & Hsome).
    split; [|done]. rewrite Hp. done.
Qed.

(** X11: Retention takes an entry off the deque before it deletes its checkpoint:
    when the deletion fails, retention raises with that entry already
    untracked, and if it was [fs.rm] that failed the checkpoint is still on
    storage. *)
Theorem failed_eviction_untracks (st : St) (e : Exn) (st' : St) :
  _release_oldest_checkpoints st = (Raise e, st') ->
  exists n x,
    tracked st !! n = Some x
    /\ tracked st' = drop (S n) (tracked st)
    /\ forall p, e = OSError (FsRm p) ->
         p = path_of (self st) (step x)
         /\ is_Some (storage (world st') !! p).
Proof.
  intros H.
  destruct (decide (gate_open (self st))) as [Hg|Hg].
  2: { rewrite release_closed in H by done. done. }
  pose proof (release_open _ _ _ Hg H) as (_ & _ & _ & Herr).
  specialize (Herr e eq_refl).
  unfold _release_oldest_checkpoints in H. rewrite bind_gets in H.
  destruct Hg as [Hrank Hk].
  rewrite !bool_decide_eq_true_2 in H by done. cbn [andb] in H.
  rewrite bind_gets in H.
  destruct (release_while_raises _ _ _ _ H Herr) as (n & x & ? & ? & _ & ?).
  by exists n, x.
Qed.

Lemma failed_eviction_untracks_witness :
  exists n x,
    tracked overfull_state !! n = Some x
    /\ tracked (exec _release_oldest_checkpoints overfull_state)
       = drop (S n) (tracked overfull_state)
    /\ forall p, OSError (FsRm "ckpt/10") = OSError (FsRm p) ->
         p = path_of (self overfull_state) (step x)
         /\ is_Some (storage (world (exec _release_oldest_checkpoints
                                          overfull_state)) !! p).
Proof.
  apply (failed_eviction_untracks overfull_state (OSError (FsRm "ckpt/10"))).
  vm_compute. reflexivity.
Defined.

(** ** The asynchronous pipeline *)

(** *** Methods that leave the pipeline alone *)

Lemma blind_ret {A} (a : A) : blind (ret a).
Proof. by intros q b st. Qed.

Lemma blind_raise {A} e : blind (@raise A e).
Proof. by intros q b st. Qed.

Lemma blind_bind {A B} (m : M A) (k : A -> M B) :
  blind m -> (forall a, blind (k a)) -> blind (bind m k).
Proof.
  intros Hm Hk q b st. unfold bind. rewrite Hm.
  destruct (m st) as [[a|e] st1]; [|done]. apply Hk.
Qed.

Lemma blind_gets {A} (f : St -> A) :
  (forall q b st, f (pipe q b st) = f st) -> blind (gets f).
Proof. intros Hf q b st. unfold gets. by rewrite Hf. Qed.

Lemma blind_modify (f : St -> St) :
  (forall q b st, f (pipe q b st) = pipe q b (f st)) -> blind (modify f).
Proof. intros Hf q b st. unfold modify. by rewrite Hf. Qed.

Lemma blind_perform e : blind (perform e).
Proof. by intros q b st. Qed.

Ltac blind_auto :=
  repeat first
    [ apply blind_ret | apply blind_raise | apply blind_perform
    | apply blind_gets; by intros ? ? ?
    | apply blind_modify; by intros ? ? ?
    | apply blind_bind; [|intros ?]
    | match goal with
      | |- blind (match ?x with _ => _ end) => destruct x
      | |- blind (if ?x then _ else _) => destruct x
      end ].

Lemma blind_delete s : blind (_delete_chkpt_at_step s).
Proof. unfold _delete_chkpt_at_step, _get_path, fs_exists, fs_rm. blind_auto. Qed.

Lemma blind_popleft : blind popleft.
Proof.
  intros q b st. unfold popleft. simpl.
  by destruct (_tracked_chkpts (self st)).
Qed.

Lemma blind_release_while turns : blind (release_while turns).
Proof.
  induction turns as [|turns IH]; simpl; [apply blind_ret|].
  apply blind_bind; [apply blind_gets; by intros ? ? ?|intros more].
  destruct more; [|apply blind_ret].
  apply blind_bind; [apply blind_popleft|intros ?].
  apply blind_bind; [apply blind_delete|intros ?]. exact IH.
Qed.

Lemma blind_release : blind _release_oldest_checkpoints.
Proof.
  unfold _release_oldest_checkpoints.
  apply blind_bind; [apply blind_gets; by intros ? ? ?|intros gate].
  destruct gate; [|apply blind_ret].
  apply blind_bind; [apply blind_gets; by intros ? ? ?|intros n].
  apply blind_release_while.
Qed.

Lemma blind_save s sd force : blind (save s sd force).
Proof.
  unfold save.
  apply blind_bind; [unfold should_save; blind_auto|intros due].
  destruct (due || force); [|apply blind_ret].
  apply blind_bind; [unfold _get_path; blind_auto|intros path].
  apply blind_bind; [apply blind_delete|intros ?].
  apply blind_bind; [unfold save_state_dict; blind_auto|intros ?].
  apply blind_bind; [unfold datetime_now; blind_auto|intros now].
  apply blind_bind; [unfold pickle_dump; blind_auto|intros ?].
  apply blind_bind; [unfold append; blind_auto|intros ?].
  apply blind_bind; [apply blind_release|intros ?]. apply blind_ret.
Qed.

Lemma process_pipe item q b st :
  process item (pipe q b st)
  = let (st', printed) := process item st in (pipe q b st', printed).
Proof.
  destruct item as [[s sd]|]; simpl; [|done].
  rewrite blind_save. by destruct (save s sd true st) as [[?|?] ?].
Qed.

Lemma drain_app items1 items2 st :
  drain (items1 ++ items2) st
  = let (st1, p1) := drain items1 st in
    let (st2, p2) := drain items2 st1 in (st2, p1 ++ p2).
Proof.
  revert st. induction items1 as [|item items1 IH]; intros st; simpl.
  - by destruct (drain items2 st).
  - destruct (process item st) as [sta pa]. rewrite IH.
    destruct (drain items1 sta) as [st1 p1].
    destruct (drain items2 st1) as [st2 p2]. by rewrite app_assoc.
Qed.

Lemma process_config item st : config (process item st).1 = config st.
Proof.
  destruct item as [[s sd]|]; simpl; [|done].
  destruct (save s sd true st) as [r st'] eqn:H.
  apply save_any_run in H as (new & n & [_ _ C _ _ _]). by destruct r.
Qed.

Lemma drain_config items : forall st, config (drain items st).1 = config st.
Proof.
  induction items as [|item items IH]; intros st; simpl; [done|].
  pose proof (process_config item st) as H1.
  destruct (process item st) as [st1 p1]. specialize (IH st1).
  destruct (drain items st1) as [st2 p2]. simpl in *. congruence.
Qed.

Lemma drain_snoc items item st :
  drain (items ++ [item]) st
  = let (st1, p1) := drain items st in
    let (st2, p2) := process item st1 in (st2, p1 ++ p2).
Proof.
  rewrite drain_app. destruct (drain items st) as [st1 p1]. simpl.
  destruct (process item st1) as [st2 p2]. by rewrite app_nil_r.
Qed.

Lemma pipeline_worker st0 put sys sys1 :
  pipeline st0 put sys -> _async_worker sys = Some sys1 ->
  pipeline st0 put sys1.
Proof.
  intros (finished & pending & Hput & Hsh & Herr & Hw) Hstep.
  destruct sys as [st n t err]. unfold _async_worker in Hstep.
  unfold queue_of in *. simpl in *. destruct t as [| |item| | |]; try done.
  - destruct Hw as [-> ->]. rewrite Hsh in Hstep. simpl in Hstep.
    inversion Hstep; subst sys1; clear Hstep.
    exists finished, (_async_queue (self st)). by repeat split.
  - destruct Hw as [-> ->]. unfold queue_get, queue_of in Hstep.
    simpl in Hstep. destruct (_async_queue (self st)) as [|item rest] eqn:Hq;
      [done|].
    inversion Hstep; subst sys1; clear Hstep.
    exists finished, (item :: rest). simpl. split; [done|].
    split; [by rewrite Hsh|]. by repeat split.
  - destruct Hw as [-> ->]. rewrite Hsh, process_pipe in Hstep.
    destruct (process item (drain finished st0).1) as [st' printed] eqn:Hp.
    inversion Hstep; subst sys1; clear Hstep.
    exists (finished ++ [item]), (_async_queue (self st)). simpl.
    rewrite drain_snoc. destruct (drain finished st0) as [st1 p1].
    simpl in Hp. rewrite Hp. simpl. split; [by rewrite <- app_assoc|].
    split; [done|]. split; [by rewrite Herr|]. by split.
  - destruct Hw as [-> ->]. simpl in Hstep.
    inversion Hstep; subst sys1; clear Hstep.
    exists finished, (_async_queue (self st)). by repeat split.
Qed.

Lemma accepted_cons {helpers : Helpers} c call calls :
  accepted c (call :: calls)
  = accepted c [call]
    ++ accepted c calls.
Proof.
  destruct call as [[s sd] force]. unfold accepted. simpl.
  by destruct (_ || _).
Qed.

Lemma pipeline_save_async {helpers : Helpers} st0 put sys s sd force r sys1 :
  save_interval (self st0) <> 0 ->
  pipeline st0 put sys ->
  save_async s sd force sys = Some (r, sys1) ->
  r = Ok (bool_decide (s `mod` save_interval (self st0) = 0) || force)
  /\ pipeline st0 (put ++ accepted (self st0)
                                   [(s, sd, force)]) sys1.
Proof.
  intros Hi (finished & pending & Hput & Hsh & Herr & Hw) Hstep.
  unfold save_async in Hstep. rewrite should_save_run in Hstep.
  assert (save_interval (self (shared sys)) = save_interval (self st0)) as Hsi.
  { rewrite Hsh. simpl.
    exact (config_save_interval _ _ (drain_config finished st0)). }
  rewrite Hsi in Hstep. rewrite bool_decide_eq_false_2 in Hstep by done.
  simpl. destruct (_ || _) eqn:Hdue.
  - unfold queue_put in Hstep. destruct (queue_full _); [done|].
    inversion Hstep; subst r sys1; clear Hstep. split; [done|].
    destruct sys as [st n t err]. unfold queue_of in *. simpl in *.
    exists finished, (pending ++ [Some (s, _sharded_cpu_state_dict sd)]).
    split; [by rewrite Hput, app_assoc|].
    split.
    { generalize (drain finished st0).1 Hsh. intros X HX.
      destruct st as [c w]. destruct X as [cx wx]. unfold pipe in *.
      simpl in *. injection HX as -> ->. done. }
    split; [done|]. unfold queue_of. simpl. rewrite length_app. simpl.
    destruct t; try done; destruct Hw as [-> ->]; split; try done;
      by rewrite Nat.add_1_r.
  - inversion Hstep; subst r sys1; clear Hstep. split; [done|].
    rewrite app_nil_r. exists finished, pending.
    by destruct sys.
Qed.

Lemma pipeline_quiet {helpers : Helpers} st0 put sys rs sys' :
  run sys [] rs sys' ->
  pipeline st0 put sys -> unfinished_tasks sys = 0%nat ->
  rs = [] /\ shared sys' = shared sys /\ stderr sys' = stderr sys
  /\ unfinished_tasks sys' = 0%nat /\ pipeline st0 put sys'.
Proof.
  intros Hrun. remember [] as program eqn:Hp.
  induction Hrun as [sys|sys sys1 program results sys' Hstep Hrun IH|];
    intros Hpl Hu; [done| |done].
  assert (shared sys1 = shared sys /\ stderr sys1 = stderr sys
          /\ unfinished_tasks sys1 = 0%nat) as (E1 & E2 & E3).
  { destruct Hpl as (finished & pending & Hput & Hsh & Herr & Hw).
    destruct sys as [st n t err]. unfold _async_worker in Hstep.
    unfold queue_of in *. simpl in *. subst n.
    destruct t as [| |item| | |]; try done.
    - inversion Hstep; by subst.
    - destruct Hw as [_ Hlen]. unfold queue_get, queue_of in Hstep.
      simpl in Hstep. by destruct (_async_queue (self st)).
    - by destruct Hw.
    - by destruct Hw. }
  destruct (IH Hp (pipeline_worker _ _ _ _ Hpl Hstep) E3)
    as (-> & ? & ? & ? & ?).
  repeat split; try done; congruence.
Qed.

Lemma run_pipeline {helpers : Helpers} st0 sys program rs sys' :
  run sys program rs sys' ->
  save_interval (self st0) <> 0 ->
  forall put calls,
    program = async_calls calls ++ [Join] ->
    pipeline st0 put sys ->
    rs = map (fun '(s, _, force) =>
                Ok (Some (bool_decide (s `mod` save_interval (self st0) = 0)
                          || force))) calls ++ [Ok None]
    /\ shared sys'
       = pipe [] true
           (drain (put ++ accepted (self st0) calls)
                  st0).1
    /\ stderr sys'
       = (drain (put ++ accepted (self st0) calls)
                st0).2
    /\ unfinished_tasks sys' = 0%nat.
Proof.
  intros Hrun Hi.
  induction Hrun as [sys|sys sys1 program results sys' Hstep Hrun IH
                    |sys a r sys1 program results sys' Hact Hrun IH];
    intros put calls Hprog Hpl.
  - by destruct calls.
  - apply (IH put calls Hprog). by eapply pipeline_worker.
  - destruct calls as [|[[s sd] force] calls]; simpl in Hprog.
    + injection Hprog as -> ->. simpl in Hact. unfold join, queue_join in Hact.
      destruct (unfinished_tasks sys) eqn:Hu; [|done].
      inversion Hact; subst r sys1; clear Hact.
      destruct (pipeline_quiet _ _ _ _ _ Hrun Hpl Hu)
        as (-> & E1 & E2 & E3 & _).
      split; [done|]. rewrite app_nil_r, E1, E2.
      destruct Hpl as (finished & pending & Hput & Hsh & Herr & Hw).
      assert (pending = [] /\ queue_of sys = []) as [-> Hq].
      { destruct (worker sys); try done; destruct Hw as [-> Hlen];
          rewrite Hu in Hlen; try done;
          by destruct (queue_of sys). }
      rewrite app_nil_r in Hput. subst finished. rewrite Hq in Hsh.
      by repeat split.
    + injection Hprog as -> ->. simpl in Hact.
      destruct (save_async s sd force sys) as [[r' sys2]|] eqn:Hsa; [|done].
      destruct (pipeline_save_async _ _ _ _ _ _ _ _ Hi Hpl Hsa) as [-> Hpl'].
      inversion Hact; subst r sys1; clear Hact.
      destruct (IH _ calls eq_refl Hpl') as (-> & E1 & E2 & E3).
      split; [done|]. rewrite <- app_assoc, <- accepted_cons in E1, E2.
      by repeat split.
Qed.

Lemma schedule_run {helpers : Helpers} fuel : forall program sys rs sys',
  schedule fuel program sys = Some (rs, sys') -> run sys program rs sys'.
Proof.
  induction fuel as [|fuel IH]; intros program sys rs sys' H; [done|].
  simpl in H. destruct program as [|a program].
  { inversion H; subst. constructor. }
  destruct (act a sys) as [[r sys1]|] eqn:Ha.
  - destruct (schedule fuel program sys1) as [[results sys2]|] eqn:Hs; [|done].
    inversion H; subst. eapply run_main; [exact Ha|]. by apply IH.
  - destruct (_async_worker sys) as [sys1|] eqn:Hw; [|done].
    eapply run_worker; [exact Hw|]. by apply IH.
Qed.

Lemma run_app {helpers : Helpers} sys p1 r1 sys1 p2 r2 sys2 :
  run sys p1 r1 sys1 -> run sys1 p2 r2 sys2 ->
  run sys (p1 ++ p2) (r1 ++ r2) sys2.
Proof.
  induction 1 as [sys|sys sysa p1 r1 sys1 Hstep Hrun IH
                 |sys a r sysa p1 r1 sys1 Hact Hrun IH]; intros H2; simpl.
  - done.
  - eapply run_worker; [exact Hstep|]. by apply IH.
  - eapply run_main; [exact Hact|]. by apply IH.
Qed.

Lemma pipeline_boot st :
  _alive (self st) = true -> _async_queue (self st) = [] ->
  pipeline st [] (boot st).
Proof.
  intros Ha Hq. exists [], []. split; [done|]. unfold boot, queue_of. simpl.
  split; [|by rewrite Hq]. destruct st as [[] w]. simpl in *. by subst.
Qed.

Lemma pipeline_settle {helpers : Helpers} st0 put m : forall sys,
  (backlog sys <= m)%nat -> pipeline st0 put sys ->
  exists sys1,
    run sys [] [] sys1 /\ pipeline st0 put sys1
    /\ unfinished_tasks sys1 = 0%nat.
Proof.
  induction m as [|m IH]; intros sys Hm Hpl.
  - exists sys. split; [constructor|]. split; [done|].
    destruct Hpl as (finished & pending & _ & _ & _ & Hw).
    unfold backlog in Hm.
    destruct (worker sys); try done; lia.
  - destruct (unfinished_tasks sys) as [|u] eqn:Hu.
    { exists sys. split; [constructor|]. by split. }
    assert (exists sys1, _async_worker sys = Some sys1
                         /\ (backlog sys1 < backlog sys)%nat)
      as (sys1 & Hstep & Hless).
    { destruct Hpl as (finished & pending & _ & Hsh & _ & Hw).
      destruct sys as [st n t err].
      unfold _async_worker, backlog, queue_of in *. simpl in *. subst n.
      destruct t as [| |item| | |]; try done.
      - eexists. split; [done|]. rewrite Hsh. simpl. lia.
      - destruct Hw as [_ Hlen]. unfold queue_get, queue_of. simpl.
        destruct (_async_queue (self st)) as [|item rest] eqn:Hq;
          [simpl in Hlen; congruence|].
        eexists. split; [done|]. simpl. lia.
      - pose proof (process_config item st) as Hc.
        destruct (process item st) as [st' printed]. simpl in Hc.
        eexists. split; [done|]. simpl.
        assert (_async_queue (self st') = _async_queue (self st)) as ->
          by (unfold config in Hc; congruence).
        lia.
      - eexists. split; [done|]. simpl. lia. }
    destruct (IH sys1) as (sys2 & Hrun & Hpl2 & Hu2); [lia| |].
    { by eapply pipeline_worker. }
    exists sys2. split; [|done]. by eapply run_worker.
Qed.

Lemma pipeline_runs {helpers : Helpers} st0 calls : forall put sys,
  save_interval (self st0) <> 0 ->
  pipeline st0 put sys ->
  exists rs sys', run sys (async_calls calls ++ [Join]) rs sys'.
Proof.
  induction calls as [|[[s sd] force] calls IH]; intros put sys Hi Hpl.
  - destruct (pipeline_settle st0 put _ sys (le_n _) Hpl)
      as (sys1 & Hrun & _ & Hu).
    exists ([] ++ [Ok None]), sys1. eapply run_app; [exact Hrun|].
    eapply run_main; [|constructor]. simpl. unfold join, queue_join.
    by rewrite Hu.
  - destruct (pipeline_settle st0 put _ sys (le_n _) Hpl)
      as (sys1 & Hrun & Hpl1 & Hu).
    assert (exists r sys2, save_async s sd force sys1
                           = Some (r, sys2)) as (r & sys2 & Hsa).
    { unfold save_async. rewrite should_save_run.
      destruct (bool_decide _); [by eexists _, _|].
      destruct (_ || _); [|by eexists _, _].
      assert (queue_of sys1 = []) as Hq.
      { destruct Hpl1 as (finished & pending & _ & _ & _ & Hw).
        rewrite Hu in Hw.
        destruct (worker sys1); try done; destruct Hw as [_ Hlen];
          try done; by destruct (queue_of sys1). }
      unfold queue_put, queue_full. simpl. unfold queue_of in Hq.
      rewrite Hq. simpl.
      case_bool_decide as Hmax; simpl; [|by eexists _, _].
      rewrite bool_decide_eq_false_2 by lia. by eexists _, _. }
    destruct (pipeline_save_async _ _ _ _ _ _ _ _ Hi Hpl1 Hsa) as [-> Hpl2].
    destruct (IH _ sys2 Hi Hpl2) as (rs & sys' & Hrun2).
    eexists (_ :: rs), sys'. change (?a :: rs) with ([] ++ a :: rs).
    change (async_calls ((s, sd, force) :: calls) ++ [Join])
      with ([] ++ SaveAsync s sd force :: async_calls calls ++ [Join]).
    eapply run_app; [exact Hrun|].
    eapply run_main; [|exact Hrun2]. simpl. by rewrite Hsa.
Qed.

(** X12: Calls of [save_async] followed by [join] amount to the forced saves of
    the accepted steps made one after the other, in call order, with what
    they raise printed instead of raised: the calls return whether the step
    was due, [join] returns, and however the threads were interleaved the
    manager, the world and the output are those of [drain]. *)
Theorem save_async_then_join {helpers : Helpers} (st : St)
    (calls : list (Z * STATE_DICT_TYPE * bool)) :
  save_interval (self st) <> 0 ->
  _alive (self st) = true ->
  _async_queue (self st) = [] ->
  let program := async_calls calls ++ [Join] in
  let items := accepted (self st) calls in
  (exists rs sys', run (boot st) program rs sys')
  /\ forall rs sys',
       run (boot st) program rs sys' ->
       rs = map (fun '(s, _, force) =>
                   Ok (Some (bool_decide (s `mod` save_interval (self st) = 0)
                             || force))) calls ++ [Ok None]
       /\ shared sys' = (drain items st).1
       /\ stderr sys' = (drain items st).2
       /\ unfinished_tasks sys' = 0%nat.
Proof.
  intros Hi Ha Hq program items.
  pose proof (pipeline_boot st Ha Hq) as Hpl. split.
  - by eapply pipeline_runs.
  - intros rs sys' Hrun.
    destruct (run_pipeline st _ _ _ _ Hrun Hi [] calls eq_refl Hpl)
      as (-> & Hsh & Herr & Hu).
    simpl in Hsh, Herr. split; [done|]. split; [|by split].
    rewrite Hsh. fold items.
    pose proof (drain_config items st) as Hc.
    destruct (drain items st).1 as [[] w]. destruct st as [[] w0].
    unfold config in Hc. simpl in *. by simplify_eq.
Qed.

Lemma save_async_then_join_witness :
  let calls := [(10, some_state_dict, false); (11, some_state_dict, false);
                (12, some_state_dict, true)] in
  let program := async_calls calls ++ [Join] in
  (exists rs sys',
     run (helpers := already_on_cpu) (boot sample_state) program rs sys')
  /\ forall rs sys',
       run (helpers := already_on_cpu) (boot sample_state) program rs sys' ->
       rs = [Ok (Some true); Ok (Some false); Ok (Some true); Ok None]
       /\ steps_of (tracked (shared sys')) = [10; 12].
Proof.
  intros calls program.
  destruct (save_async_then_join (helpers := already_on_cpu) sample_state
                                 calls) as [Hex Hall]; [done..|].
  split; [exact Hex|]. intros rs sys' Hrun.
  destruct (Hall rs sys' Hrun) as (-> & -> & _). by vm_compute.
Defined.

Lemma process_queue item st :
  _async_queue (self (process item st).1) = _async_queue (self st)
  /\ _async_queue_maxsize (self (process item st).1)
     = _async_queue_maxsize (self st)
  /\ _alive (self (process item st).1) = _alive (self st)
  /\ save_interval (self (process item st).1) = save_interval (self st).
Proof.
  pose proof (process_config item st) as Hc. unfold config in Hc.
  by simplify_eq.
Qed.

(** *** The counter of the queue *)

Lemma counted_worker sys sys1 :
  _async_worker sys = Some sys1 ->
  unfinished_tasks sys = (length (queue_of sys) + in_flight (worker sys))%nat
  /\ worker sys <> Died ->
  unfinished_tasks sys1
    = (length (queue_of sys1) + in_flight (worker sys1))%nat
  /\ worker sys1 <> Died.
Proof.
  intros Hstep [Hu Hd]. destruct sys as [st n t err].
  unfold _async_worker, queue_of in *. simpl in *.
  destruct t as [| |item| | |]; try done.
  - inversion Hstep; subst. simpl. split; [|by destruct (_alive _)].
    by destruct (_alive _).
  - unfold queue_get, queue_of in Hstep. simpl in Hstep.
    destruct (_async_queue (self st)) as [|item rest]; [done|].
    inversion Hstep; subst. simpl in *. split; [lia|done].
  - destruct (process_queue item st) as (Hq & _).
    destruct (process item st) as [st' printed].
    inversion Hstep; subst. simpl in *. by rewrite Hq.
  - subst n. rewrite Nat.add_1_r in Hstep. simpl in Hstep.
    inversion Hstep; subst. simpl. split; [lia|done].
Qed.

Lemma counted_act {helpers : Helpers} a sys r sys1 :
  act a sys = Some (r, sys1) ->
  unfinished_tasks sys = (length (queue_of sys) + in_flight (worker sys))%nat
  /\ worker sys <> Died ->
  unfinished_tasks sys1
    = (length (queue_of sys1) + in_flight (worker sys1))%nat
  /\ worker sys1 <> Died.
Proof.
  intros Hact [Hu Hd]. destruct sys as [st n t err].
  unfold queue_of in *. simpl in *.
  destruct a as [s sd force| | |item|]; simpl in Hact.
  - unfold save_async in Hact. rewrite should_save_run in Hact. simpl in Hact.
    destruct (bool_decide _); [by inversion Hact; subst|].
    destruct (_ || _); [|by inversion Hact; subst].
    unfold queue_put in Hact. simpl in Hact.
    destruct (queue_full _); [done|]. inversion Hact; subst. simpl.
    rewrite length_app. simpl. unfold Item in *. split; [lia|done].
  - unfold join, queue_join in Hact. simpl in Hact.
    destruct n; [|done]. by inversion Hact; subst.
  - by inversion Hact; subst.
  - unfold queue_put in Hact. simpl in Hact.
    destruct (queue_full _); [done|]. inversion Hact; subst. simpl.
    rewrite length_app. simpl. unfold Item in *. split; [lia|done].
  - unfold thread_join in Hact. simpl in Hact.
    destruct t; by inversion Hact; subst.
Qed.

(** X13: The worker never calls [task_done] more often than items were put, so
    it never dies of the [ValueError] the queue would raise: whatever the
    main thread calls and however the threads are interleaved, the counter
    of the queue is the number of the items queued plus the one in
    progress. *)
Theorem worker_never_dies {helpers : Helpers} (st : St)
    (program : list Action) (rs : list (Res (option bool)))
    (sys' : System) :
  _async_queue (self st) = [] ->
  run (boot st) program rs sys' ->
  worker sys' <> Died
  /\ unfinished_tasks sys'
     = (length (queue_of sys') + in_flight (worker sys'))%nat.
Proof.
  intros Hq Hrun.
  assert (unfinished_tasks (boot st)
          = (length (queue_of (boot st)) + in_flight (worker (boot st)))%nat
          /\ worker (boot st) <> Died) as Hinv.
  { unfold boot, queue_of. simpl. by rewrite Hq. }
  induction Hrun as [sys|sys sys1 program results sys' Hstep Hrun IH
                    |sys a r sys1 program results sys' Hact Hrun IH].
  - by destruct Hinv.
  - apply IH. by eapply counted_worker.
  - apply IH. by eapply counted_act.
Qed.

Lemma worker_never_dies_witness :
  worker stuck_system <> Died
  /\ unfinished_tasks stuck_system
     = (length (queue_of stuck_system) + in_flight (worker stuck_system))%nat.
Proof.
  apply (worker_never_dies (helpers := already_on_cpu) sample_state
           [SaveAsync 10 some_state_dict false;
            SaveAsync 20 some_state_dict false; AliveClear]
           [Ok (Some true); Ok (Some true); Ok None]).
  - reflexivity.
  - apply (schedule_run (helpers := already_on_cpu) 8). vm_compute. reflexivity.
Defined.

(** *** Failures that stay with the worker *)

Lemma put_by_cons {helpers : Helpers} c a program :
  put_by c (a :: program) = put_by c [a] ++ put_by c program.
Proof. unfold put_by. simpl. by rewrite app_nil_r. Qed.

Lemma run_api_pipeline {helpers : Helpers} st0 sys program rs sys' :
  run sys program rs sys' ->
  save_interval (self st0) <> 0 ->
  Forall api_call program ->
  forall put,
    pipeline st0 put sys ->
    Forall (fun r => exists v, r = Ok v) rs
    /\ pipeline st0 (put ++ put_by (self st0) program) sys'.
Proof.
  intros Hrun Hi.
  induction Hrun as [sys|sys sys1 program results sys' Hstep Hrun IH
                    |sys a r sys1 program results sys' Hact Hrun IH];
    intros Hapi put Hpl.
  - split; [constructor|]. unfold put_by. simpl. by rewrite app_nil_r.
  - apply (IH Hapi put). by eapply pipeline_worker.
  - apply Forall_cons in Hapi as [Ha Hapi]. rewrite put_by_cons, app_assoc.
    destruct a as [s sd force| | |item|]; try done; simpl in Hact.
    + destruct (save_async s sd force sys) as [[r' sys2]|] eqn:Hsa; [|done].
      destruct (pipeline_save_async _ _ _ _ _ _ _ _ Hi Hpl Hsa) as [-> Hpl'].
      inversion Hact; subst r sys1; clear Hact.
      destruct (IH Hapi _ Hpl') as [Hok Hend]. split.
      * constructor; [by eexists|done].
      * replace (put_by (self st0) [SaveAsync s sd force])
          with (accepted (self st0) [(s, sd, force)]); [done|].
        unfold put_by. simpl. by rewrite app_nil_r.
    + unfold join, queue_join in Hact.
      destruct (unfinished_tasks sys); [|done].
      inversion Hact; subst r sys1; clear Hact.
      destruct (IH Hapi (put ++ put_by (self st0) [Join])) as [Hok Hend].
      { unfold put_by. simpl. by rewrite app_nil_r. }
      split; [|exact Hend]. constructor; [by eexists|done].
Qed.

(** X14: What a save raises in the worker never reaches the caller.  On a
    manager with a nonzero interval, the flag set and an empty queue,
    whatever storage does to the saves and however the threads are
    interleaved, every call of [save_async] and of [join] returns, and at
    any moment the worker has gone through a first part of the items put,
    in the order they were put: manager and world are what the forced saves
    of those items make of them, and what these saves raised is what was
    printed, in that order. *)
Theorem worker_failures_are_only_printed {helpers : Helpers} (st : St)
    (program : list Action) (rs : list (Res (option bool)))
    (sys' : System) :
  save_interval (self st) <> 0 ->
  _alive (self st) = true ->
  _async_queue (self st) = [] ->
  Forall api_call program ->
  run (boot st) program rs sys' ->
  Forall (fun r => exists v, r = Ok v) rs
  /\ exists finished,
       finished `prefix_of` put_by (self st) program
       /\ stderr sys' = (drain finished st).2
       /\ tracked (shared sys') = tracked (drain finished st).1
       /\ world (shared sys') = world (drain finished st).1.
Proof.
  intros Hi Ha Hq Hapi Hrun.
  destruct (run_api_pipeline st _ _ _ _ Hrun Hi Hapi [] (pipeline_boot st Ha Hq))
    as [Hok (finished & pending & Hput & Hsh & Herr & _)].
  split; [done|]. exists finished. simpl in Hput.
  split; [rewrite Hput; by apply prefix_app_r|]. split; [done|].
  rewrite Hsh. by split.
Qed.

Lemma worker_failures_are_only_printed_witness :
  let program := [SaveAsync 20 some_state_dict false; Join] in
  let sys' :=
    match schedule (helpers := already_on_cpu) 8 program
                   (boot state_store_down) with
    | Some (_, sys') => sys'
    | None => boot state_store_down
    end in
  (Forall (fun r : Res (option bool) => exists v, r = Ok v)
          [Ok (Some true); Ok None]
   /\ exists finished,
        finished `prefix_of` put_by (helpers := already_on_cpu)
                                    (self state_store_down) program
        /\ stderr sys' = (drain finished state_store_down).2
        /\ tracked (shared sys') = tracked (drain finished state_store_down).1
        /\ world (shared sys') = world (drain finished state_store_down).1)
  /\ stderr sys' = [OSError (SaveStateDict "ckpt/20")]
  /\ steps_of (tracked (shared sys')) = [10].
Proof.
  intros program sys'. split; [|by vm_compute].
  apply (worker_failures_are_only_printed (helpers := already_on_cpu)
           state_store_down program).
  - vm_compute. discriminate.
  - vm_compute. reflexivity.
  - vm_compute. reflexivity.
  - by repeat constructor.
  - apply (schedule_run (helpers := already_on_cpu) 8). vm_compute.
    reflexivity.
Defined.

(** *** Shutdown *)

Lemma stuck_worker sys sys1 :
  _async_worker sys = Some sys1 ->
  _alive (self (shared sys)) = false /\ worker sys <> Getting
  /\ queue_full (self (shared sys)) = true ->
  _alive (self (shared sys1)) = false /\ worker sys1 <> Getting
  /\ queue_full (self (shared sys1)) = true.
Proof.
  intros Hstep (Ha & Hw & Hf). destruct sys as [st n t err].
  unfold _async_worker in Hstep. simpl in *.
  destruct t as [| |item| | |]; try done.
  - rewrite Ha in Hstep. by inversion Hstep; subst.
  - destruct (process_queue item st) as (Hq & Hm & Hal & _).
    destruct (process item st) as [st' printed]. inversion Hstep; subst.
    simpl in *. unfold queue_full in *. by rewrite Hq, Hm, Hal.
  - destruct n; by inversion Hstep; subst.
Qed.

(** X15: [__del__] can wait forever.  Once the flag is cleared a worker that is
    not waiting for an item takes no further item off the queue, so when the
    queue is full at that point the [put] of the sentinel never returns. *)
Theorem del_blocks_on_full_queue {helpers : Helpers} (sys : System)
    (item : Item) (program : list Action) (rs : list (Res (option bool)))
    (sys' : System) :
  _alive (self (shared sys)) = false ->
  worker sys <> Getting ->
  queue_full (self (shared sys)) = true ->
  ~ run sys (Put item :: program) rs sys'.
Proof.
  intros Ha Hw Hf Hrun.
  assert (_alive (self (shared sys)) = false /\ worker sys <> Getting
          /\ queue_full (self (shared sys)) = true) as Hinv by done.
  clear Ha Hw Hf. remember (Put item :: program) as p eqn:Hp.
  induction Hrun as [sys|sys sys1 p results sys' Hstep Hrun IH
                    |sys a r sys1 p results sys' Hact Hrun IH].
  - done.
  - apply IH; [done|]. by eapply stuck_worker.
  - injection Hp as -> ->. simpl in Hact. unfold queue_put in Hact.
    destruct Hinv as (_ & _ & Hf). simpl in Hact. by rewrite Hf in Hact.
Qed.

Lemma del_blocks_on_full_queue_witness :
  ~ run (helpers := already_on_cpu) stuck_system (Put None :: [ThreadJoin])
        [Ok None; Ok None] stuck_system.
Proof.
  apply (del_blocks_on_full_queue (helpers := already_on_cpu) stuck_system
                                  None [ThreadJoin]).
  - vm_compute. reflexivity.
  - vm_compute. discriminate.
  - vm_compute. reflexivity.
Defined.

Lemma requeue_shared q b st st0 :
  st = pipe (_async_queue (self st)) b st0 ->
  on_self (with_queue q) st = pipe q b st0.
Proof. intros H. by rewrite H. Qed.

Lemma idle_worker sys sys1 :
  idle sys -> _async_worker sys = Some sys1 ->
  idle sys1 /\ shared sys1 = shared sys /\ stderr sys1 = stderr sys.
Proof.
  intros (Hq & Hu & Hw & Ha) Hstep. destruct sys as [st n t err].
  unfold _async_worker, queue_of in *. simpl in *.
  destruct Hw as [-> | ->].
  - rewrite Ha in Hstep. inversion Hstep; subst.
    unfold idle, queue_of. simpl. split; [|done].
    split; [done|]. split; [done|]. split; [by right|done].
  - unfold queue_get, queue_of in Hstep. simpl in Hstep.
    by rewrite Hq in Hstep.
Qed.

Lemma closing_worker st0 err sys sys1 :
  closing st0 err sys -> _async_worker sys = Some sys1 ->
  closing st0 err sys1.
Proof.
  intros (Hsh & Herr & Hnone & Hu & Hd & Hh) Hstep.
  destruct sys as [st n t err']. unfold closing.
  unfold _async_worker, queue_of in *. simpl in *.
  destruct t as [| |item| | |]; try done.
  - rewrite Hsh in Hstep. simpl in Hstep. inversion Hstep; subst sys1.
    simpl. repeat split; try done.
  - unfold queue_get, queue_of in Hstep. simpl in Hstep.
    destruct (_async_queue (self st)) as [|item rest] eqn:Hq; [done|].
    inversion Hstep; subst sys1. simpl.
    apply Forall_cons in Hnone as [<- Hnone].
    split; [by rewrite Hsh|]. repeat split; try done.
    + simpl in Hu. lia.
    + by intros item [= <-].
  - rewrite (Hh item eq_refl) in Hstep. simpl in Hstep.
    inversion Hstep; subst sys1. simpl. rewrite app_nil_r.
    repeat split; try done.
  - subst n. rewrite Nat.add_1_r in Hstep. simpl in Hstep.
    inversion Hstep; subst sys1. simpl. repeat split; try done.
Qed.

Lemma closing_quiet {helpers : Helpers} st0 err sys rs sys' :
  run sys [] rs sys' -> closing st0 err sys ->
  rs = [] /\ closing st0 err sys'
  /\ (worker sys = Returned -> worker sys' = Returned).
Proof.
  intros Hrun. remember [] as program eqn:Hp.
  induction Hrun as [sys|sys sys1 program results sys' Hstep Hrun IH|];
    intros Hcl; [done| |done].
  destruct (IH Hp (closing_worker _ _ _ _ Hcl Hstep)) as (-> & Hcl' & _).
  split; [done|]. split; [done|]. intros Hw.
  unfold _async_worker in Hstep. by rewrite Hw in Hstep.
Qed.

Lemma closing_thread_join {helpers : Helpers} st0 err sys rs sys' :
  run sys [ThreadJoin] rs sys' -> closing st0 err sys ->
  rs = [Ok None] /\ closing st0 err sys' /\ worker sys' = Returned.
Proof.
  intros Hrun. remember [ThreadJoin] as program eqn:Hp.
  induction Hrun as [sys|sys sys1 program results sys' Hstep Hrun IH
                    |sys a r sys1 program results sys' Hact Hrun IH];
    intros Hcl; [done| |].
  - apply (IH Hp). by eapply closing_worker.
  - injection Hp as -> ->. simpl in Hact. unfold thread_join in Hact.
    destruct (worker sys) eqn:Hw; try done.
    + inversion Hact; subst r sys1.
      destruct (closing_quiet _ _ _ _ _ Hrun Hcl) as (-> & Hcl' & Hret).
      by auto.
    + by destruct Hcl as (_ & _ & _ & _ & Hd & _).
Qed.

Lemma closing_put {helpers : Helpers} st0 err sys rs sys' :
  run sys [Put None; ThreadJoin] rs sys' -> closing st0 err sys ->
  rs = [Ok None; Ok None] /\ closing st0 err sys' /\ worker sys' = Returned.
Proof.
  intros Hrun. remember [Put None; ThreadJoin] as program eqn:Hp.
  induction Hrun as [sys|sys sys1 program results sys' Hstep Hrun IH
                    |sys a r sys1 program results sys' Hact Hrun IH];
    intros Hcl; [done| |].
  - apply (IH Hp). by eapply closing_worker.
  - injection Hp as -> ->. simpl in Hact. unfold queue_put in Hact.
    destruct (queue_full _); [done|]. inversion Hact; subst r sys1.
    destruct (closing_thread_join st0 err _ _ _ Hrun) as (-> & Hcl' & Hret);
      [|done].
    destruct Hcl as (Hsh & Herr & Hnone & Hu & Hd & Hh).
    destruct sys as [st n t err']. unfold closing, queue_of in *.
    simpl in *. split; [by apply requeue_shared|]. split; [done|].
    split; [apply Forall_app; by repeat constructor|].
    rewrite length_app. simpl. unfold Item in *.
    split; [lia|]. by split.
Qed.

Lemma idle_del {helpers : Helpers} st0 sys rs sys' :
  run sys __del__ rs sys' -> idle sys -> shared sys = st0 ->
  rs = [Ok None; Ok None; Ok None]
  /\ closing st0 (stderr sys) sys' /\ worker sys' = Returned.
Proof.
  intros Hrun. remember __del__ as program eqn:Hp.
  induction Hrun as [sys|sys sys1 program results sys' Hstep Hrun IH
                    |sys a r sys1 program results sys' Hact Hrun IH];
    intros Hidle Hst; [done| |].
  - destruct (idle_worker _ _ Hidle Hstep) as (Hidle1 & Hsh & Herr).
    rewrite <- Herr. apply (IH Hp Hidle1). congruence.
  - injection Hp as -> ->. simpl in Hact. inversion Hact; subst r sys1.
    destruct (closing_put st0 (stderr sys) _ _ _ Hrun) as (-> & Hcl & Hret);
      [|done].
    destruct Hidle as (Hq & Hu & Hw & Ha). destruct sys as [st n t err].
    unfold closing, queue_of in *. simpl in *. subst st0 n.
    rewrite Hq. simpl. split.
    { destruct st as [[] w]. simpl in *. by subst. }
    split; [done|]. split; [done|].
    destruct Hw as [-> | ->]; by repeat split.
Qed.

Lemma queue_full_empty c : _async_queue c = [] -> queue_full c = false.
Proof.
  intros Hq. unfold queue_full. rewrite Hq. simpl.
  case_bool_decide; [|done]. by rewrite bool_decide_eq_false_2 by lia.
Qed.

Lemma idle_del_runs {helpers : Helpers} sys :
  idle sys -> exists rs sys', run sys __del__ rs sys'.
Proof.
  intros (Hq & Hu & Hw & Ha).
  destruct sys as [[[bp si k d q ms al g] w] n t err].
  unfold queue_of in *. simpl in *. subst q n al.
  destruct Hw as [-> | ->].
  - eexists _, _. eapply run_main; [reflexivity|].
    eapply run_main.
    { unfold act, queue_put. rewrite queue_full_empty by reflexivity.
      reflexivity. }
    eapply run_worker; [reflexivity|].
    eapply run_main; [reflexivity|]. constructor.
  - eexists _, _. eapply run_main; [reflexivity|].
    eapply run_main.
    { unfold act, queue_put. rewrite queue_full_empty by reflexivity.
      reflexivity. }
    do 4 (eapply run_worker; [reflexivity|]).
    eapply run_main; [reflexivity|]. constructor.
Qed.

(** X16: On an idle pipeline [__del__] returns, with the worker stopped: however
    the threads are interleaved the thread has left its loop, no checkpoint
    was written or deleted, and nothing was printed. *)
Theorem del_stops_idle_worker {helpers : Helpers} (sys : System) :
  idle sys ->
  (exists rs sys', run sys __del__ rs sys')
  /\ forall rs sys',
       run sys __del__ rs sys' ->
       worker sys' = Returned
       /\ _alive (self (shared sys')) = false
       /\ tracked (shared sys') = tracked (shared sys)
       /\ world (shared sys') = world (shared sys)
       /\ stderr sys' = stderr sys.
Proof.
  intros Hidle. split; [by apply idle_del_runs|]. intros rs sys' Hrun.
  destruct (idle_del (shared sys) _ _ _ Hrun Hidle eq_refl)
    as (_ & (Hsh & Herr & _) & Hret).
  split; [done|]. rewrite Hsh. by repeat split.
Qed.

Lemma del_stops_idle_worker_witness :
  (exists rs sys',
     run (helpers := already_on_cpu) (boot sample_state) __del__ rs sys')
  /\ forall rs sys',
       run (helpers := already_on_cpu) (boot sample_state) __del__ rs sys' ->
       worker sys' = Returned
       /\ _alive (self (shared sys')) = false
       /\ tracked (shared sys') = tracked (shared (boot sample_state))
       /\ world (shared sys') = world (shared (boot sample_state))
       /\ stderr sys' = stderr (boot sample_state).
Proof.
  apply (del_stops_idle_worker (helpers := already_on_cpu) (boot sample_state)).
  vm_compute. auto.
Defined.

(** *** Checkpoints that are left behind *)

Lemma winding_down_start sys :
  _alive (self (shared sys)) = false -> worker sys <> Getting ->
  winding_down sys sys.
Proof.
  intros Ha Hw. split; [done|]. split; [done|]. exists []. split.
  - destruct sys as [[[] w] n t err]. unfold queue_of. simpl in *. by subst.
  - destruct (worker sys); try apply prefix_nil. done.
Qed.

Lemma winding_down_worker sys0 sys sys1 :
  winding_down sys0 sys -> _async_worker sys = Some sys1 ->
  winding_down sys0 sys1.
Proof.
  intros (Hw & Hq & done & Hsh & Hd) Hstep.
  destruct sys as [st n t err]. unfold winding_down.
  unfold _async_worker, queue_of in *. simpl in *.
  destruct t as [| |item| | |]; try done.
  - rewrite Hsh in Hstep. simpl in Hstep. inversion Hstep; subst sys1.
    simpl. split; [done|]. split; [done|]. by exists done.
  - destruct Hd as [-> Hheld]. rewrite Hsh, process_pipe in Hstep.
    simpl in Hstep.
    destruct (process item (shared sys0)) as [st' printed] eqn:Hp.
    inversion Hstep; subst sys1. simpl. split; [done|]. split; [done|].
    exists [item]. simpl. rewrite Hp. simpl. split; [done|].
    by rewrite Hheld.
  - destruct (queue_task_done _) as [sys2|] eqn:Hdone.
    + inversion Hstep; subst sys1. unfold queue_task_done in Hdone.
      simpl in Hdone. destruct n; [done|]. inversion Hdone; subst sys2.
      simpl. split; [done|]. split; [done|]. by exists done.
    + inversion Hstep; subst sys1. simpl. split; [done|]. split; [done|].
      by exists done.
Qed.

Lemma winding_down_put sys0 sys item sys1 :
  winding_down sys0 sys -> queue_put item sys = Some (tt, sys1) ->
  winding_down sys0 sys1.
Proof.
  intros (Hw & Hq & done & Hsh & Hd) Hput. unfold queue_put in Hput.
  destruct (queue_full _); [done|]. inversion Hput; subst sys1.
  destruct sys as [st n t err]. unfold winding_down, queue_of in *.
  simpl in *. split; [done|]. split.
  - etransitivity; [exact Hq|]. by apply prefix_app_r.
  - exists done. split; [|done]. by apply requeue_shared.
Qed.

Lemma winding_down_act {helpers : Helpers} sys0 sys a r sys1 :
  winding_down sys0 sys -> act a sys = Some (r, sys1) ->
  winding_down sys0 sys1.
Proof.
  intros Hwd Hact. destruct a as [s sd force| | |item|]; simpl in Hact.
  - unfold save_async in Hact. rewrite should_save_run in Hact.
    simpl in Hact. destruct (bool_decide _).
    { inversion Hact; subst. by destruct sys. }
    destruct (_ || _).
    + destruct (queue_put _ _) as [[[] sys2]|] eqn:Hput; [|done].
      inversion Hact; subst. eapply winding_down_put; [|exact Hput].
      by destruct sys.
    + inversion Hact; subst. by destruct sys.
  - unfold join, queue_join in Hact.
    destruct (unfinished_tasks sys); [|done]. by inversion Hact; subst.
  - inversion Hact; subst sys1. destruct Hwd as (Hw & Hq & done & Hsh & Hd).
    destruct sys as [st n t err]. unfold winding_down, queue_of in *.
    simpl in *. split; [done|]. split; [done|]. exists done.
    split; [|done]. by rewrite Hsh.
  - destruct (queue_put _ _) as [[[] sys2]|] eqn:Hput; [|done].
    inversion Hact; subst. by eapply winding_down_put.
  - unfold thread_join in Hact.
    destruct (worker sys); by inversion Hact; subst.
Qed.

Lemma winding_down_run {helpers : Helpers} sys0 sys program rs sys' :
  run sys program rs sys' -> winding_down sys0 sys -> winding_down sys0 sys'.
Proof.
  induction 1 as [sys|sys sys1 program results sys' Hstep Hrun IH
                 |sys a r sys1 program results sys' Hact Hrun IH];
    intros Hwd.
  - done.
  - apply IH. by eapply winding_down_worker.
  - apply IH. by eapply winding_down_act.
Qed.

(** X17: Once the flag is cleared the worker saves nothing that is still in the
    queue.  If it is not waiting for an item at that point then, whatever
    the main thread calls afterwards and however the threads are
    interleaved, no item leaves the queue any more, and the manager and the
    world change at most by the one item the worker had in hand. *)
Theorem cleared_flag_abandons_queue {helpers : Helpers} (sys : System)
    (program : list Action) (rs : list (Res (option bool)))
    (sys' : System) :
  _alive (self (shared sys)) = false ->
  worker sys <> Getting ->
  run sys program rs sys' ->
  queue_of sys `prefix_of` queue_of sys'
  /\ exists done,
       done `prefix_of` in_hand (worker sys)
       /\ tracked (shared sys') = tracked (drain done (shared sys)).1
       /\ world (shared sys') = world (drain done (shared sys)).1.
Proof.
  intros Ha Hw Hrun.
  destruct (winding_down_run sys _ _ _ _ Hrun (winding_down_start sys Ha Hw))
    as (_ & Hq & done & Hsh & Hd).
  split; [done|]. exists done. split.
  - destruct (worker sys'); try done. destruct Hd as [-> _].
    apply prefix_nil.
  - rewrite Hsh. by split.
Qed.

Lemma cleared_flag_abandons_queue_witness :
  let sys' :=
    match schedule (helpers := already_on_cpu) 8 [ThreadJoin] stuck_system with
    | Some (_, sys') => sys'
    | None => stuck_system
    end in
  (queue_of stuck_system `prefix_of` queue_of sys'
   /\ exists done,
        done `prefix_of` in_hand (worker stuck_system)
        /\ tracked (shared sys')
           = tracked (drain done (shared stuck_system)).1
        /\ world (shared sys') = world (drain done (shared stuck_system)).1)
  /\ worker sys' = Returned
  /\ steps_of (tracked (shared sys')) = [10]
  /\ queue_of sys' = [Some (20, some_state_dict)].
Proof.
  intros sys'. split; [|by vm_compute].
  apply (cleared_flag_abandons_queue (helpers := already_on_cpu) stuck_system
           [ThreadJoin] [Ok None]).
  - vm_compute. reflexivity.
  - vm_compute. discriminate.
  - apply (schedule_run (helpers := already_on_cpu) 8). vm_compute.
    reflexivity.
Defined.
